(** * Podcast dashboard: series derivation and zoom/pan domain clamping

    A shallow embedding of the computational parts of the dashboard:

    - [src/hooks/useZoomPan.js]: [domainsEqual], [clampDomain] and the
      domain state of the [useZoomPan] hook;
    - [src/hooks/usePodcastData.js]: [parseRow], [averageInWindow],
      [correlation] and the memoised derivation of episodes, summary and
      insights;
    - [src/components]: the regression lines and annotated points of the
      two scatter charts, the shares of the listener mix chart, and the
      tooltip projection and nearest-point search the charts share;
    - [src/App.jsx]: which view the page shows.

    JavaScript numbers are modelled by the type [num]: the reals extended
    with [NaN], [+Infinity] and [-Infinity].  The special values follow
    IEEE 754 / ECMAScript (NaN is absorbing, every comparison with NaN is
    false, [0/0 = NaN], [Infinity - Infinity = NaN], ...).  Finite
    arithmetic is exact: binary64 rounding, overflow and the sign of zero
    are abstracted away.  A property that is said to hold in exact
    arithmetic is a property of this model; the module [Binary64]
    transcribes the arithmetic functions over binary64 numbers, and
    [Binary64Facts] evaluates them where rounding makes the program
    depart from it.

    Strings are ASCII.  A CSV record carries every column of the header
    as a string, as the loader delivers it.  Array lengths and indices
    are integers ([nat] or [Z]). *)

From Stdlib Require Import PrimFloat.
From Stdlib Require Import Reals Lra Psatz ZArith List String Ascii Bool Lia.
From Stdlib Require Import Permutation Sorted.
Import ListNotations.

Set Implicit Arguments.

(** ** JavaScript numbers *)

Module JsNum.

Local Open Scope R_scope.

Inductive num : Type :=
| NaN
| NegInf
| Fin (r : R)
| PosInf.

Definition Rltb (x y : R) : bool := if Rlt_dec x y then true else false.
Definition Reqb (x y : R) : bool := if Req_dec_T x y then true else false.

Definition neg (a : num) : num :=
  match a with
  | NaN => NaN
  | NegInf => PosInf
  | Fin r => Fin (- r)
  | PosInf => NegInf
  end.

(** [a + b] *)
Definition add (a b : num) : num :=
  match a, b with
  | NaN, _ | _, NaN => NaN
  | PosInf, NegInf | NegInf, PosInf => NaN
  | PosInf, _ | _, PosInf => PosInf
  | NegInf, _ | _, NegInf => NegInf
  | Fin x, Fin y => Fin (x + y)
  end.

(** [a - b] *)
Definition sub (a b : num) : num := add a (neg b).

(** The infinity carrying the sign of [r], NaN when [r] is zero. *)
Definition inf_of_sign (r : R) : num :=
  if Rltb 0 r then PosInf else if Rltb r 0 then NegInf else NaN.

(** [a * b] *)
Definition mul (a b : num) : num :=
  match a, b with
  | NaN, _ | _, NaN => NaN
  | Fin x, Fin y => Fin (x * y)
  | PosInf, PosInf | NegInf, NegInf => PosInf
  | PosInf, NegInf | NegInf, PosInf => NegInf
  | PosInf, Fin y | Fin y, PosInf => inf_of_sign y
  | NegInf, Fin y | Fin y, NegInf => inf_of_sign (- y)
  end.

(** [a / b]; a zero divisor is the positive zero. *)
Definition div (a b : num) : num :=
  match a, b with
  | NaN, _ | _, NaN => NaN
  | Fin x, Fin y => if Reqb y 0 then inf_of_sign x else Fin (x / y)
  | Fin _, (PosInf | NegInf) => Fin 0
  | (PosInf | NegInf), (PosInf | NegInf) => NaN
  | PosInf, Fin y => if Rltb y 0 then NegInf else PosInf
  | NegInf, Fin y => if Rltb y 0 then PosInf else NegInf
  end.

(** [a ** 2] *)
Definition pow2 (a : num) : num := mul a a.

(** [Math.sqrt] *)
Definition Math_sqrt (a : num) : num :=
  match a with
  | NaN | NegInf => NaN
  | PosInf => PosInf
  | Fin r => if Rltb r 0 then NaN else Fin (sqrt r)
  end.

(** [Math.abs] *)
Definition Math_abs (a : num) : num :=
  match a with
  | NaN => NaN
  | NegInf | PosInf => PosInf
  | Fin r => Fin (Rabs r)
  end.

(** [a < b] *)
Definition ltb (a b : num) : bool :=
  match a, b with
  | NaN, _ | _, NaN => false
  | _, NegInf => false
  | NegInf, _ => true
  | PosInf, _ => false
  | Fin _, PosInf => true
  | Fin x, Fin y => Rltb x y
  end.

(** [a > b] *)
Definition gtb (a b : num) : bool := ltb b a.

(** [a === b] on numbers *)
Definition strict_eq (a b : num) : bool :=
  match a, b with
  | NegInf, NegInf | PosInf, PosInf => true
  | Fin x, Fin y => Reqb x y
  | _, _ => false
  end.

(** [a >= b] *)
Definition geb (a b : num) : bool := ltb b a || strict_eq a b.

(** [Math.min(a, b)] and [Math.max(a, b)]: NaN as soon as one argument is. *)
Definition Math_min (a b : num) : num :=
  match a, b with
  | NaN, _ | _, NaN => NaN
  | _, _ => if ltb b a then b else a
  end.

Definition Math_max (a b : num) : num :=
  match a, b with
  | NaN, _ | _, NaN => NaN
  | _, _ => if ltb a b then b else a
  end.

Definition is_nan (a : num) : bool :=
  match a with NaN => true | _ => false end.

Definition is_finite (a : num) : bool :=
  match a with Fin _ => true | _ => false end.

(** [a <= b] on numbers *)
Definition leqb (a b : num) : bool := ltb a b || strict_eq a b.

(** [Math.hypot(a, b)]: infinite as soon as one argument is, NaN if one
    is NaN otherwise. *)
Definition Math_hypot (a b : num) : num :=
  match a, b with
  | (PosInf | NegInf), _ | _, (PosInf | NegInf) => PosInf
  | NaN, _ | _, NaN => NaN
  | Fin x, Fin y => Fin (sqrt (x * x + y * y))
  end.

(** [a || b] on numbers: [b] when [a] is falsy, that is 0 or NaN. *)
Definition or_else (a b : num) : num :=
  match a with
  | NaN => b
  | Fin r => if Reqb r 0 then b else a
  | _ => a
  end.

(** The real a finite number holds (0 for NaN and the infinities). *)
Definition to_R (a : num) : R :=
  match a with Fin r => r | _ => 0 end.

(** A finite number that is not negative. *)
Definition nonNegative (a : num) : Prop :=
  exists r : R, a = Fin r /\ 0 <= r.

(** A finite number between [lo] and [hi]. *)
Definition within (lo hi : R) (a : num) : Prop :=
  exists v : R, a = Fin v /\ lo <= v <= hi.

End JsNum.

Export JsNum.

Declare Scope num_scope.
Delimit Scope num_scope with num.
Bind Scope num_scope with num.
Infix "+" := add : num_scope.
Infix "-" := sub : num_scope.
Infix "*" := mul : num_scope.
Infix "/" := div : num_scope.
Infix "<?" := ltb : num_scope.
Infix ">?" := gtb : num_scope.
Infix ">=?" := geb : num_scope.
Infix "===" := strict_eq (at level 70, no associativity) : num_scope.

(** Case analysis on the decidable real comparisons left in a goal. *)
Ltac real_cases :=
  unfold Rltb, Reqb in *;
  repeat match goal with
  | |- context [Rlt_dec ?a ?b] => destruct (Rlt_dec a b)
  | |- context [Rle_dec ?a ?b] => destruct (Rle_dec a b)
  | |- context [Req_dec_T ?a ?b] => destruct (Req_dec_T a b)
  | H : context [Rlt_dec ?a ?b] |- _ => destruct (Rlt_dec a b)
  | H : context [Rle_dec ?a ?b] |- _ => destruct (Rle_dec a b)
  | H : context [Req_dec_T ?a ?b] |- _ => destruct (Req_dec_T a b)
  end.

(** ** The zoom/pan hook: [src/hooks/useZoomPan.js] *)

Module ZoomPan.

Local Open Scope num_scope.

(** A domain is a two-element array [[d0, d1]]; [None] stands for the
    [null]/[undefined] a chart without that axis passes. *)
Definition domain : Type := (num * num)%type.

Definition DOMAIN_EPSILON : num := Fin (1 / 1000000).

Definition domainsEqual (a b : option domain) : bool :=
  match a, b with
  | None, None => true
  | None, Some _ | Some _, None => false
  | Some (a0, a1), Some (b0, b1) =>
      (Math_abs (a0 - b0) <? DOMAIN_EPSILON)
      && (Math_abs (a1 - b1) <? DOMAIN_EPSILON)
  end.

Definition clampDomain (candidate base : option domain) : option domain :=
  match candidate, base with
  | Some (candStart, candEnd), Some (base0, base1) =>
      let baseMin := Math_min base0 base1 in
      let baseMax := Math_max base0 base1 in
      let candMin := Math_min candStart candEnd in
      let candMax := Math_max candStart candEnd in
      let baseSpan := baseMax - baseMin in
      let candSpan := candMax - candMin in
      let '(candMin, candMax) :=
        if candSpan >=? baseSpan then (baseMin, baseMax)
        else
          let '(candMin, candMax) :=
            if candMin <? baseMin then
              let shift := baseMin - candMin in
              (candMin + shift, candMax + shift)
            else (candMin, candMax) in
          let '(candMin, candMax) :=
            if candMax >? baseMax then
              let shift := candMax - baseMax in
              (candMin - shift, candMax - shift)
            else (candMin, candMax) in
          (Math_max baseMin candMin, Math_min baseMax candMax) in
      if (candMax - candMin) <? DOMAIN_EPSILON then Some (base0, base1)
      else
        let ascending := base1 >=? base0 in
        if ascending then Some (candMin, candMax) else Some (candMax, candMin)
  | Some c, None => Some c
  | None, _ => base
  end.

(** The [domains] state of [useZoomPan]. *)
Record Domains : Type := {
  xDomain : option domain;
  yDomain : option domain
}.

(** What the hook needs of its arguments here: the two base domains. *)
Record Config : Type := {
  initialXDomain : option domain;
  initialYDomain : option domain
}.

(** [useState(() => ...)] and the effect that resets the state when a
    base domain changes. *)
Definition initialDomains (cfg : Config) : Domains :=
  {| xDomain := initialXDomain cfg; yDomain := initialYDomain cfg |}.

(** The ['zoom'] listener.  [rescaledX] and [rescaledY] are the domains
    d3 computes, [event.transform.rescaleX(baseXScale).domain()] and its
    Y counterpart; they are read only on an axis that has a base domain.
    [clampDomain] builds a fresh array, so the identity test of
    [domainsEqual] never succeeds on two arrays here. *)
Definition onZoom (cfg : Config) (rescaledX rescaledY : domain)
    (prev : Domains) : Domains :=
  let nextDomain := prev in
  let nextDomain :=
    match initialXDomain cfg with
    | Some _ =>
        let candidate := clampDomain (Some rescaledX) (initialXDomain cfg) in
        if negb (domainsEqual (xDomain prev) candidate)
        then {| xDomain := candidate; yDomain := yDomain nextDomain |}
        else nextDomain
    | None => nextDomain
    end in
  let nextDomain :=
    match initialYDomain cfg with
    | Some _ =>
        let candidate := clampDomain (Some rescaledY) (initialYDomain cfg) in
        if negb (domainsEqual (yDomain prev) candidate)
        then {| xDomain := xDomain nextDomain; yDomain := candidate |}
        else nextDomain
    | None => nextDomain
    end in
  nextDomain.

(** [resetZoom].  [setDomains] puts the base domains back.  When the
    overlay and the zoom behaviour exist, the call then starts a
    transition of the d3 transform to [zoomIdentity]; each tick of the
    transition is a zoom event that the ['zoom'] listener handles like
    any other, after the state was reset.  [transition] lists the
    rescaled domains of these events, oldest first; it is empty when
    the overlay or the behaviour is missing. *)
Definition resetZoom (cfg : Config) (transition : list (domain * domain))
    (_ : Domains) : Domains :=
  fold_left (fun st g => onZoom cfg (fst g) (snd g) st) transition
            (initialDomains cfg).

(** [a ?? b] *)
Definition nullish {A : Type} (a b : option A) : option A :=
  match a with Some _ => a | None => b end.

(** The domains the hook returns. *)
Definition reportedX (cfg : Config) (st : Domains) : option domain :=
  nullish (xDomain st) (initialXDomain cfg).

Definition reportedY (cfg : Config) (st : Domains) : option domain :=
  nullish (yDomain st) (initialYDomain cfg).

(** A run of zoom events, oldest first, from the initial state. *)
Definition afterGestures (cfg : Config) (gestures : list (domain * domain))
  : Domains :=
  fold_left (fun st g => onZoom cfg (fst g) (snd g) st) gestures
            (initialDomains cfg).

(** Vocabulary of the clamping properties. *)

(** Both bounds are finite numbers. *)
Definition finiteDomain (d : domain) : bool :=
  is_finite (fst d) && is_finite (snd d).

(** [max - min] of the two bounds, as [clampDomain] computes it. *)
Definition span (d : domain) : num :=
  Math_max (fst d) (snd d) - Math_min (fst d) (snd d).

(** [d] lies within [base]: base min <= d min and d max <= base max. *)
Definition inBounds (d base : domain) : bool :=
  (Math_min (fst d) (snd d) >=? Math_min (fst base) (snd base))
  && (Math_max (fst base) (snd base) >=? Math_max (fst d) (snd d)).

(** [d] runs in the direction of [base] (ascending or descending). *)
Definition sameDirection (d base : domain) : bool :=
  if snd base >=? fst base then snd d >=? fst d else fst d >=? snd d.

(** [r] is a domain inside [base], in its direction and not narrower
    than the epsilon. *)
Definition settled (base : domain) (r : option domain) : bool :=
  match r with
  | Some d =>
      inBounds d base && sameDirection d base
      && negb (span d <? DOMAIN_EPSILON)
  | None => false
  end.

(** [d] is a finite domain between the bounds of the finite [base] and
    in its direction. *)
Definition withinBase (base : domain) (d : option domain) : Prop :=
  exists b0 b1 r0 r1 : R,
    base = (Fin b0, Fin b1) /\ d = Some (Fin r0, Fin r1)
    /\ (Rmin b0 b1 <= r0 <= Rmax b0 b1)%R
    /\ (Rmin b0 b1 <= r1 <= Rmax b0 b1)%R
    /\ (b0 <= b1 -> r0 <= r1)%R
    /\ (b1 < b0 -> r1 <= r0)%R.

(** The domain a zoom event carries for an axis is the base itself, as
    it is under the identity transform; nothing is asked of an axis
    without a base. *)
Definition identityRescaled (base : option domain) (r : domain) : Prop :=
  forall b, base = Some b -> finiteDomain b = true /\ r = b.

End ZoomPan.


(** ** String to number: [Number(s)] on a string *)

Module StringToNumber.

Local Open Scope string_scope.

(** The result of reading a numeric literal, before it becomes a [num].
    [Dec neg m e] is the decimal [(-1)^neg * m * 10^e]. *)
Inductive numeral : Type :=
| NotNumeric
| Infinite (negative : bool)
| Dec (negative : bool) (mantissa : N) (exponent : Z).

(** White space and line terminators (the ASCII ones). *)
Definition is_ws (c : ascii) : bool :=
  let n := nat_of_ascii c in
  (Nat.eqb n 9 || Nat.eqb n 10 || Nat.eqb n 11 || Nat.eqb n 12
   || Nat.eqb n 13 || Nat.eqb n 32)%bool.

Fixpoint trim_start (s : string) : string :=
  match s with
  | String c r => if is_ws c then trim_start r else s
  | EmptyString => s
  end.

Fixpoint trim_end (s : string) : string :=
  match s with
  | String c r =>
      match trim_end r with
      | EmptyString => if is_ws c then EmptyString else String c EmptyString
      | r' => String c r'
      end
  | EmptyString => EmptyString
  end.

Definition trim (s : string) : string := trim_end (trim_start s).

(** Value of a digit in the given radix. *)
Definition digit_val (radix : N) (c : ascii) : option N :=
  let n := N_of_ascii c in
  let v :=
    if ((48 <=? n) && (n <=? 57))%N%bool then Some (n - 48)%N
    else if ((97 <=? n) && (n <=? 102))%N%bool then Some (n - 87)%N
    else if ((65 <=? n) && (n <=? 70))%N%bool then Some (n - 55)%N
    else None in
  match v with
  | Some d => if (d <? radix)%N then Some d else None
  | None => None
  end.

(** Reads the longest run of digits at the head of [s], continuing the
    accumulator [acc]; returns the value, the number of digits read and
    the rest of the string. *)
Fixpoint take_digits (radix : N) (s : string) (acc : N) (count : nat)
  : N * nat * string :=
  match s with
  | String c r =>
      match digit_val radix c with
      | Some d => take_digits radix r (acc * radix + d)%N (S count)
      | None => (acc, count, s)
      end
  | EmptyString => (acc, count, s)
  end.

(** [ExponentPart]: [e] or [E], an optional sign, at least one digit, and
    nothing after it. *)
Definition read_exponent (s : string) : option Z :=
  match s with
  | EmptyString => Some 0%Z
  | String c r =>
      if (Ascii.eqb c "e" || Ascii.eqb c "E")%bool then
        let '(negative, digits) :=
          match r with
          | String "-" r' => (true, r')
          | String "+" r' => (false, r')
          | _ => (false, r)
          end in
        match take_digits 10 digits 0 0 with
        | (_, O, _) => None
        | (v, S _, EmptyString) =>
            Some (if negative then (- Z.of_N v)%Z else Z.of_N v)
        | (_, S _, String _ _) => None
        end
      else None
  end.

(** [StrUnsignedDecimalLiteral] without the [Infinity] case. *)
Definition read_unsigned_decimal (negative : bool) (s : string) : numeral :=
  let '(ip, ni, rest) := take_digits 10 s 0 0 in
  let '(m, nf, rest) :=
    match rest with
    | String "." r => take_digits 10 r ip 0
    | _ => (ip, O, rest)
    end in
  match (ni + nf)%nat with
  | O => NotNumeric
  | S _ =>
      match read_exponent rest with
      | Some e => Dec negative m (e - Z.of_nat nf)
      | None => NotNumeric
      end
  end.

Definition read_signed_decimal (s : string) : numeral :=
  let '(negative, body) :=
    match s with
    | String "-" r => (true, r)
    | String "+" r => (false, r)
    | _ => (false, s)
    end in
  if String.eqb body "Infinity" then Infinite negative
  else read_unsigned_decimal negative body.

(** [NonDecimalIntegerLiteral]: the digits after [0x], [0o] or [0b]. *)
Definition read_radix (radix : N) (digits : string) : numeral :=
  match take_digits radix digits 0 0 with
  | (v, S _, EmptyString) => Dec false v 0
  | _ => NotNumeric
  end.

(** [StringToNumber]: the empty (or all-blank) string reads as zero. *)
Definition read (s : string) : numeral :=
  match trim s with
  | EmptyString => Dec false 0 0
  | String "0" (String c r) as t =>
      if (Ascii.eqb c "x" || Ascii.eqb c "X")%bool then read_radix 16 r
      else if (Ascii.eqb c "o" || Ascii.eqb c "O")%bool then read_radix 8 r
      else if (Ascii.eqb c "b" || Ascii.eqb c "B")%bool then read_radix 2 r
      else read_signed_decimal t
  | t => read_signed_decimal t
  end.

Local Open Scope R_scope.

(** [m * 10^e] as a real. *)
Definition dec_value (m : N) (e : Z) : R :=
  if (0 <=? e)%Z then IZR (Z.of_N m * 10 ^ e)
  else IZR (Z.of_N m) / IZR (10 ^ (- e)).

Definition value (n : numeral) : num :=
  match n with
  | NotNumeric => NaN
  | Infinite negative => if negative then NegInf else PosInf
  | Dec negative m e =>
      if negative then Fin (- dec_value m e) else Fin (dec_value m e)
  end.

End StringToNumber.

(** [Number(s)] for a string [s]. *)
Definition Number (s : string) : num :=
  StringToNumber.value (StringToNumber.read s).

(** A non-negative integer (an array length or index) as a number. *)
Definition of_nat (n : nat) : num := Fin (IZR (Z.of_nat n)).

(** ** Array helpers *)

(** [s.split(sep)] for a one-character separator. *)
Fixpoint split (sep : ascii) (s : string) : list string :=
  match s with
  | EmptyString => [EmptyString]
  | String c r =>
      if Ascii.eqb c sep then EmptyString :: split sep r
      else match split sep r with
           | h :: t => String c h :: t
           | [] => [String c EmptyString]
           end
  end.

(** A relative index of [slice], [splice] and the like, resolved against
    the length [len]. *)
Definition relative_index (len k : Z) : Z :=
  if (k <? 0)%Z then Z.max (len + k) 0 else Z.min k len.

(** [arr.slice(start, end)] *)
Definition slice {A : Type} (arr : list A) (start stop : Z) : list A :=
  let len := Z.of_nat (List.length arr) in
  let k := relative_index len start in
  let final := relative_index len stop in
  firstn (Z.to_nat (final - k)) (skipn (Z.to_nat k) arr).

(** [arr.slice(start)] *)
Definition slice_from {A : Type} (arr : list A) (start : Z) : list A :=
  slice arr start (Z.of_nat (List.length arr)).

(** [arr.reduce((sum, item) => sum + f(item), 0)] *)
Definition sum_by {A : Type} (f : A -> num) (arr : list A) : num :=
  fold_left (fun sum item => add sum (f item)) arr (Fin 0).

(** [arr.sort(compare)]: the sort is stable; an element moves behind a
    later one only when [compare] says it is greater. *)
Fixpoint sort_insert {A : Type} (compare : A -> A -> num) (x : A)
    (sorted : list A) : list A :=
  match sorted with
  | [] => [x]
  | y :: rest =>
      if gtb (compare x y) (Fin 0) then y :: sort_insert compare x rest
      else x :: sorted
  end.

Fixpoint sort {A : Type} (compare : A -> A -> num) (arr : list A) : list A :=
  match arr with
  | [] => []
  | x :: rest => sort_insert compare x (sort compare rest)
  end.

(** [arr.reduce(f)] without an initial value: the first element seeds
    the accumulator; on an empty array the call throws a TypeError,
    here [None]. *)
Definition reduce1 {A : Type} (f : A -> A -> A) (arr : list A) : option A :=
  match arr with
  | [] => None
  | first :: rest => Some (fold_left f rest first)
  end.

(** ** The data hook: [src/hooks/usePodcastData.js] *)

Module PodcastData.

Local Open Scope num_scope.

(** One CSV record as the loader hands it to the row function: every
    column of the header is a string. *)
Module Raw.
Record Row : Type := {
  episode : string;
  title : string;
  description : string;
  guest : string;
  duration : string;
  downloads : string;
  completion_numbers : string;
  new_listeners : string;
  returning_listeners : string;
  subscribers_gained : string;
  social_media_shares : string
}.
End Raw.

(** The object [parseRow] returns. *)
Record Item : Type := {
  episode : num;
  title : string;
  description : string;
  guest : string;
  durationMinutes : num;
  downloads : num;
  completionNumbers : num;
  completionRate : num;
  newListeners : num;
  returningListeners : num;
  listenersTotal : num;
  subscribersGained : num;
  socialMediaShares : num
}.

(** The first two statements of [parseRow]: the duration column in
    minutes.  A component the destructuring does not find is [undefined],
    which the arithmetic reads as NaN; components after the third are
    dropped. *)
Definition parseDuration (duration : string) : num :=
  let parts := map Number (split ":" duration) in
  let hours := nth 0 parts NaN in
  let minutes := nth 1 parts NaN in
  let seconds := nth 2 parts NaN in
  hours * Fin 60 + minutes + seconds / Fin 60.

Definition parseRow (row : Raw.Row) : Item :=
  let durationMinutes := parseDuration (Raw.duration row) in
  let downloads := Number (Raw.downloads row) in
  let completionNumbers := Number (Raw.completion_numbers row) in
  let newListeners := Number (Raw.new_listeners row) in
  let returningListeners := Number (Raw.returning_listeners row) in
  let listenersTotal := newListeners + returningListeners in
  {| episode := Number (Raw.episode row);
     title := Raw.title row;
     description := Raw.description row;
     guest := Raw.guest row;
     durationMinutes := durationMinutes;
     downloads := downloads;
     completionNumbers := completionNumbers;
     completionRate :=
       if downloads === Fin 0 then Fin 0 else completionNumbers / downloads;
     newListeners := newListeners;
     returningListeners := returningListeners;
     listenersTotal := listenersTotal;
     subscribersGained := Number (Raw.subscribers_gained row);
     socialMediaShares := Number (Raw.social_media_shares row) |}.

Definition averageInWindow {A : Type} (series : list A) (index : Z)
    (accessor : A -> num) (window : Z) : num :=
  let start := Z.max 0 (index - (window - 1)) in
  let slice := slice series start (index + 1) in
  let total := sum_by accessor slice in
  total / of_nat (List.length slice).

(** [values.reduce((sum, v) => sum + (v - mean) ** 2, 0)] *)
Definition variance (values : list num) (mean : num) : num :=
  fold_left (fun sum v => sum + pow2 (v - mean)) values (Fin 0).

(** [xs.reduce((sum, x, idx) => sum + (x - meanX) * (ys[idx] - meanY), 0)],
    from index [idx] on; an index outside [ys] reads [undefined]. *)
Fixpoint covariance_from (idx : nat) (xs ys : list num) (meanX meanY sum : num)
  : num :=
  match xs with
  | [] => sum
  | x :: rest =>
      covariance_from (S idx) rest ys meanX meanY
        (sum + (x - meanX) * (nth idx ys NaN - meanY))
  end.

Definition correlation {A : Type} (series : list A)
    (xAccessor yAccessor : A -> num) : num :=
  let xs := map xAccessor series in
  let ys := map yAccessor series in
  let n := List.length xs in
  match n with
  | O => Fin 0
  | S _ =>
      let meanX := sum_by (fun v => v) xs / of_nat n in
      let meanY := sum_by (fun v => v) ys / of_nat n in
      let numerator := covariance_from 0 xs ys meanX meanY (Fin 0) in
      let denominator :=
        Math_sqrt (variance xs meanX * variance ys meanY) in
      if denominator === Fin 0 then Fin 0 else numerator / denominator
  end.

(** An element of [episodes]: the parsed item ([...item]) and the fields
    derived from its place in the series. *)
Record Episode : Type := {
  item : Item;
  cumulativeSubscribers : num;
  cumulativeDownloads : num;
  downloadsRolling : num;
  completionRolling : num;
  newListenerRatio : num;
  subscribersPerThousandDownloads : num;
  sharesPerThousandDownloads : num
}.

(** The callback of [raw.map((item, idx) => ...)], with the two running
    totals it updates passed in and out. *)
Definition deriveEpisode (raw : list Item) (it : Item) (idx : nat)
    (cumulativeSubscribers cumulativeDownloads : num)
  : Episode * (num * num) :=
  let cumulativeSubscribers := cumulativeSubscribers + subscribersGained it in
  let cumulativeDownloads := cumulativeDownloads + downloads it in
  let downloadsRolling := averageInWindow raw (Z.of_nat idx) downloads 7 in
  let completionRolling :=
    averageInWindow raw (Z.of_nat idx) completionRate 7 in
  let newListenerRatio :=
    if listenersTotal it === Fin 0 then Fin 0
    else newListeners it / listenersTotal it in
  ({| item := it;
      cumulativeSubscribers := cumulativeSubscribers;
      cumulativeDownloads := cumulativeDownloads;
      downloadsRolling := downloadsRolling;
      completionRolling := completionRolling;
      newListenerRatio := newListenerRatio;
      subscribersPerThousandDownloads :=
        if downloads it === Fin 0 then Fin 0
        else (subscribersGained it / downloads it) * Fin 1000;
      sharesPerThousandDownloads :=
        if downloads it === Fin 0 then Fin 0
        else (socialMediaShares it / downloads it) * Fin 1000 |},
   (cumulativeSubscribers, cumulativeDownloads)).

(** The [map] itself, left to right from index [idx]; returns the
    episodes and the final running totals. *)
Fixpoint deriveFrom (raw : list Item) (idx : nat)
    (cumulativeSubscribers cumulativeDownloads : num) (rest : list Item)
  : list Episode * (num * num) :=
  match rest with
  | [] => ([], (cumulativeSubscribers, cumulativeDownloads))
  | it :: rest' =>
      let '(ep, (cs, cd)) :=
        deriveEpisode raw it idx cumulativeSubscribers cumulativeDownloads in
      let '(eps, totals) := deriveFrom raw (S idx) cs cd rest' in
      (ep :: eps, totals)
  end.

Definition arrAverage {A : Type} (arr : list A) (accessor : A -> num) : num :=
  sum_by accessor arr / of_nat (List.length arr).

Record Summary : Type := {
  totalEpisodes : nat;
  averageDownloads : num;
  averageCompletionRate : num;
  averageDuration : num;
  totalSubscribers : num;
  downloadsGrowthPercent : num;
  completionRateChange : num;
  newListenerShareChange : num;
  sharesSubscribersCorrelation : num;
  durationCompletionCorrelation : num;
  latestEpisode : option Episode
}.

(** [Math.floor(episodes.length / 2)] *)
Definition halfwayIndex (episodes : list Episode) : nat :=
  Nat.div (List.length episodes) 2.

Definition earlySlice (episodes : list Episode) : list Episode :=
  slice episodes 0 (Z.of_nat (halfwayIndex episodes)).

Definition lateSlice (episodes : list Episode) : list Episode :=
  slice_from episodes (Z.of_nat (halfwayIndex episodes)).

(** The [summary] object, from the episodes and the final value of
    [cumulativeSubscribers]. *)
Definition computeSummary (episodes : list Episode)
    (cumulativeSubscribers : num) : Summary :=
  let earlySlice := earlySlice episodes in
  let lateSlice := lateSlice episodes in
  let averageDownloadsEarly :=
    arrAverage earlySlice (fun d => downloads (item d)) in
  let averageDownloadsLate :=
    arrAverage lateSlice (fun d => downloads (item d)) in
  let avgCompletionEarly :=
    arrAverage earlySlice (fun d => completionRate (item d)) in
  let avgCompletionLate :=
    arrAverage lateSlice (fun d => completionRate (item d)) in
  let avgNewListenerRatioEarly := arrAverage earlySlice newListenerRatio in
  let avgNewListenerRatioLate := arrAverage lateSlice newListenerRatio in
  let sharesSubscribersCorrelation :=
    correlation episodes (fun d => socialMediaShares (item d))
                (fun d => subscribersGained (item d)) in
  let durationCompletionCorrelation :=
    correlation episodes (fun d => durationMinutes (item d))
                (fun d => completionRate (item d)) in
  {| totalEpisodes := List.length episodes;
     averageDownloads := arrAverage episodes (fun d => downloads (item d));
     averageCompletionRate :=
       arrAverage episodes (fun d => completionRate (item d));
     averageDuration :=
       arrAverage episodes (fun d => durationMinutes (item d));
     totalSubscribers := cumulativeSubscribers;
     downloadsGrowthPercent :=
       if averageDownloadsEarly === Fin 0 then Fin 0
       else ((averageDownloadsLate - averageDownloadsEarly)
             / averageDownloadsEarly) * Fin 100;
     completionRateChange :=
       (avgCompletionLate - avgCompletionEarly) * Fin 100;
     newListenerShareChange :=
       (avgNewListenerRatioLate - avgNewListenerRatioEarly) * Fin 100;
     sharesSubscribersCorrelation := sharesSubscribersCorrelation;
     durationCompletionCorrelation := durationCompletionCorrelation;
     latestEpisode := nth_error episodes (List.length episodes - 1) |}.

(** The [insights] object of a non-empty series. *)
Module Insights.
Record t : Type := {
  downloads : string;
  completion : string;
  listenerMix : string;
  subscriberGrowth : string;
  sharesToSubs : string;
  duration : string
}.
End Insights.

(** The value of [useMemo]: [summary] is [null] and [insights] is the
    empty object [{}] (here [None]) when there is no row. *)
Record Memoized : Type := {
  episodes : list Episode;
  summary : option Summary;
  insights : option Insights.t
}.

(** The state of the hook: [raw], [loading] and [error].  The rejection
    reason of the loader is kept as a message. *)
Record State : Type := {
  raw : list Item;
  loading : bool;
  error : option string
}.

Definition initialState : State :=
  {| raw := []; loading := true; error := None |}.

(** How the promise of [csv(DATA_URL, parseRow)] settles. *)
Inductive Settled : Type :=
| Resolved (rows : list Raw.Row)
| Rejected (err : string).

(** The effect: [.then] sorts the parsed rows by episode number and
    stores them, [.catch] stores the error. *)
Definition onSettled (outcome : Settled) (st : State) : State :=
  match outcome with
  | Resolved rows =>
      let parsed := map parseRow rows in
      let sorted := sort (fun a b => episode a - episode b) parsed in
      {| raw := sorted; loading := false; error := error st |}
  | Rejected err =>
      {| raw := raw st; loading := false; error := Some err |}
  end.

(** What [usePodcastData] returns. *)
Module Out.
Record t : Type := {
  episodes : list Episode;
  summary : option Summary;
  insights : option Insights.t;
  loading : bool;
  error : option string
}.
End Out.

Section Formatting.

Local Open Scope string_scope.

(** The two number formatters of the language, [value.toFixed(digits)]
    and [value.toLocaleString()], are left abstract. *)
Variable toFixed : num -> nat -> string.
Variable toLocaleString : num -> string.

Definition formatPercent (value : num) (digits : nat) : string :=
  (if value >=? Fin 0 then "+" else "") ++ toFixed value digits ++ "%".

(** The [insights] object; the two correlation coefficients it reads are
    the ones stored in the summary. *)
Definition buildInsights (summary : Summary) : Insights.t :=
  let sharesSubscribersCorrelation := sharesSubscribersCorrelation summary in
  let durationCompletionCorrelation :=
    durationCompletionCorrelation summary in
  {| Insights.downloads :=
       "Recent episodes are averaging "
       ++ formatPercent (downloadsGrowthPercent summary) 1
       ++ " downloads versus the earliest half of the catalog.";
     Insights.completion :=
       "Completion rate moved "
       ++ formatPercent (completionRateChange summary) 1
       ++ " from early episodes to the latest half.";
     Insights.listenerMix :=
       "New listeners make up "
       ++ formatPercent (newListenerShareChange summary) 1
       ++ " more of the audience in newer episodes.";
     Insights.subscriberGrowth :=
       "Total subscribers climbed to "
       ++ toLocaleString (totalSubscribers summary)
       ++ " with the latest release.";
     Insights.sharesToSubs :=
       if sharesSubscribersCorrelation >=? Fin 0
       then "Social sharing strongly correlates with subscriber gains (r = "
            ++ toFixed sharesSubscribersCorrelation 2 ++ ")."
       else "Higher social sharing currently coincides with fewer subscribers (r = "
            ++ toFixed sharesSubscribersCorrelation 2 ++ ").";
     Insights.duration :=
       if durationCompletionCorrelation >=? Fin 0
       then "Longer episodes trend toward stronger completion rates (r = "
            ++ toFixed durationCompletionCorrelation 2 ++ ")."
       else "Longer episodes trend toward lower completion (r = "
            ++ toFixed durationCompletionCorrelation 2
            ++ "); consider testing shorter cuts." |}.

(** The callback of [useMemo]. *)
Definition memoized (raw : list Item) : Memoized :=
  match raw with
  | [] => {| episodes := []; summary := None; insights := None |}
  | _ :: _ =>
      let '(episodes, (cumulativeSubscribers, _)) :=
        deriveFrom raw 0 (Fin 0) (Fin 0) raw in
      let summary := computeSummary episodes cumulativeSubscribers in
      {| episodes := episodes;
         summary := Some summary;
         insights := Some (buildInsights summary) |}
  end.

Definition usePodcastData (st : State) : Out.t :=
  let memoized := memoized (raw st) in
  {| Out.episodes := episodes memoized;
     Out.summary := summary memoized;
     Out.insights := insights memoized;
     Out.loading := loading st;
     Out.error := error st |}.

End Formatting.

(** A data row for the examples: the given episode number, duration,
    downloads and completions, every other numeric column zero. *)
Definition sampleRow (episode duration downloads completions : string)
  : Raw.Row :=
  {| Raw.episode := episode;
     Raw.title := "Episode";
     Raw.description := "";
     Raw.guest := "";
     Raw.duration := duration;
     Raw.downloads := downloads;
     Raw.completion_numbers := completions;
     Raw.new_listeners := "0";
     Raw.returning_listeners := "0";
     Raw.subscribers_gained := "0";
     Raw.social_media_shares := "0" |}.

(** The rolling mean as the specification words it: the mean over the
    records at the indices [max(0, i-6) .. i] of the series (on [nat],
    [i - 6] is [max(0, i-6)]). *)
Definition windowIndices (i : nat) : list nat :=
  seq (i - 6) (i + 1 - (i - 6)).

Definition recordsAt {A : Type} (series : list A) (indices : list nat)
  : list A :=
  flat_map (fun k => match nth_error series k with
                     | Some x => [x]
                     | None => []
                     end) indices.

Definition trailingWindow {A : Type} (series : list A) (i : nat) : list A :=
  recordsAt series (windowIndices i).

Definition trailingMean {A : Type} (series : list A) (i : nat)
    (accessor : A -> num) : num :=
  sum_by accessor (trailingWindow series i)
  / of_nat (List.length (trailingWindow series i)).

(** Real-valued counterparts of the sums [correlation] computes, for a
    series whose values are finite numbers. *)
Section RealSeries.

Local Open Scope R_scope.

Context {A : Type}.

Definition rsum_by (f : A -> R) (l : list A) : R :=
  fold_right (fun a s => f a + s) 0 l.

Definition rmean (f : A -> R) (l : list A) : R :=
  rsum_by f l / IZR (Z.of_nat (List.length l)).

(** Sum of products of deviations from the means. *)
Definition rcov (fx fy : A -> R) (l : list A) : R :=
  rsum_by (fun a => (fx a - rmean fx l) * (fy a - rmean fy l)) l.

(** Sum of squared deviations from the mean. *)
Definition rvar (f : A -> R) (l : list A) : R := rcov f f l.

Definition rcorr (fx fy : A -> R) (l : list A) : R :=
  let denominator := sqrt (rvar fx l * rvar fy l) in
  if Req_dec_T denominator 0 then 0 else rcov fx fy l / denominator.

End RealSeries.

(** Ten data rows with episodes 1 to 10 and downloads 10, 20, ..., 100. *)
Definition tenRows : list Raw.Row :=
  map (fun p => sampleRow (fst p) "00:30:00" (snd p) "5")
      [("1", "10"); ("2", "20"); ("3", "30"); ("4", "40"); ("5", "50");
       ("6", "60"); ("7", "70"); ("8", "80"); ("9", "90"); ("10", "100")]%string.

(** A summary for the examples, with the two correlation coefficients
    given and every other statistic zero. *)
Definition sampleSummary (sharesSubscribers durationCompletion : num)
  : Summary :=
  {| totalEpisodes := 2;
     averageDownloads := Fin 0;
     averageCompletionRate := Fin 0;
     averageDuration := Fin 0;
     totalSubscribers := Fin 0;
     downloadsGrowthPercent := Fin 0;
     completionRateChange := Fin 0;
     newListenerShareChange := Fin 0;
     sharesSubscribersCorrelation := sharesSubscribers;
     durationCompletionCorrelation := durationCompletion;
     latestEpisode := None |}.

(** Formatters for the examples; the properties below hold for any. *)
Definition plainFixed (_ : num) (_ : nat) : string := "0.0".
Definition plainLocale (_ : num) : string := "0".

(** Vocabulary of the insight properties: which of the two phrasings a
    correlation insight starts with. *)
Definition positiveSharesToSubs (text : string) : bool :=
  String.prefix "Social sharing strongly correlates with subscriber gains"
                text.

Definition cautionSharesToSubs (text : string) : bool :=
  String.prefix
    "Higher social sharing currently coincides with fewer subscribers" text.

Definition positiveDuration (text : string) : bool :=
  String.prefix "Longer episodes trend toward stronger completion rates" text.

Definition cautionDuration (text : string) : bool :=
  String.prefix "Longer episodes trend toward lower completion" text.

(** [a] comes no later than [b] by episode number, both being finite. *)
Definition episodeLe (a b : Item) : Prop :=
  exists x y : R, episode a = Fin x /\ episode b = Fin y /\ (x <= y)%R.

(** Every number [parseRow] stores in the item is finite. *)
Definition finiteItem (it : Item) : bool :=
  is_finite (episode it) && is_finite (durationMinutes it)
  && is_finite (downloads it) && is_finite (completionNumbers it)
  && is_finite (completionRate it) && is_finite (newListeners it)
  && is_finite (returningListeners it) && is_finite (listenersTotal it)
  && is_finite (subscribersGained it) && is_finite (socialMediaShares it).

(** Every statistic of the summary is finite. *)
Definition finiteSummary (s : Summary) : bool :=
  is_finite (averageDownloads s) && is_finite (averageCompletionRate s)
  && is_finite (averageDuration s) && is_finite (totalSubscribers s)
  && is_finite (downloadsGrowthPercent s)
  && is_finite (completionRateChange s)
  && is_finite (newListenerShareChange s)
  && is_finite (sharesSubscribersCorrelation s)
  && is_finite (durationCompletionCorrelation s).

(** An item for the examples: episode number, downloads, shares and
    subscribers gained are given, the duration is 30 minutes, the other
    numbers are zero. *)
Definition sampleItem (episode downloads shares subscribers : R) : Item :=
  {| episode := Fin episode;
     title := "Episode";
     description := "";
     guest := "";
     durationMinutes := Fin 30;
     downloads := Fin downloads;
     completionNumbers := Fin 0;
     completionRate := Fin 0;
     newListeners := Fin 0;
     returningListeners := Fin 0;
     listenersTotal := Fin 0;
     subscribersGained := Fin subscribers;
     socialMediaShares := Fin shares |}.

Definition threeItems : list Item :=
  [sampleItem 1 10 1 2; sampleItem 2 20 2 4; sampleItem 3 30 3 5].

End PodcastData.

(** ** The scatter charts: [SharesSubscribersScatter] and
    [DurationCompletionScatter] *)

Module Scatter.

Import PodcastData.
Local Open Scope num_scope.

(** A plotted point: its two coordinates and the episode it stands for
    (the title the first chart also copies is only displayed). *)
Module Point.
Record t : Type := { x : num; y : num; episode : num }.
End Point.

Record Regression : Type := { slope : num; intercept : num }.

(** [calculateRegression] of [SharesSubscribersScatter]. *)
Definition calculateRegression (points : list Point.t) : Regression :=
  let n := of_nat (List.length points) in
  let sumX := sum_by Point.x points in
  let sumY := sum_by Point.y points in
  let sumXY := sum_by (fun p => Point.x p * Point.y p) points in
  let sumXX := sum_by (fun p => Point.x p * Point.x p) points in
  let denominator := n * sumXX - sumX * sumX in
  if denominator === Fin 0 then
    {| slope := Fin 0; intercept := or_else (sumY / n) (Fin 0) |}
  else
    let slope := (n * sumXY - sumX * sumY) / denominator in
    let intercept := (sumY - slope * sumX) / n in
    {| slope := slope; intercept := intercept |}.

(** [regressionLine] of [DurationCompletionScatter]. *)
Definition regressionLine (points : list Point.t) : Regression :=
  let n := of_nat (List.length points) in
  let sumX := sum_by Point.x points in
  let sumY := sum_by Point.y points in
  let sumXY := sum_by (fun p => Point.x p * Point.y p) points in
  let sumXX := sum_by (fun p => Point.x p * Point.x p) points in
  let denominator := n * sumXX - sumX * sumX in
  if denominator === Fin 0 then {| slope := Fin 0; intercept := Fin 0 |}
  else
    let slope := (n * sumXY - sumX * sumY) / denominator in
    let intercept := (sumY - slope * sumX) / n in
    {| slope := slope; intercept := intercept |}.

(** The points each chart builds from the episodes. *)
Definition sharesSubscribersPoint (d : Episode) : Point.t :=
  {| Point.x := socialMediaShares (item d);
     Point.y := subscribersGained (item d);
     Point.episode := PodcastData.episode (item d) |}.

Definition durationCompletionPoint (d : Episode) : Point.t :=
  {| Point.x := durationMinutes (item d);
     Point.y := completionRate (item d);
     Point.episode := PodcastData.episode (item d) |}.

Definition sharesSubscribersPoints (data : list Episode) : list Point.t :=
  map sharesSubscribersPoint data.

Definition durationCompletionPoints (data : list Episode) : list Point.t :=
  map durationCompletionPoint data.

(** [topShare]: the point the first chart annotates. *)
Definition topShare (points : list Point.t) : option Point.t :=
  reduce1 (fun maxPoint point =>
             if Point.x point >? Point.x maxPoint then point else maxPoint)
          points.

(** [bestCompletion]: the point the second chart annotates. *)
Definition bestCompletion (points : list Point.t) : option Point.t :=
  reduce1 (fun best point =>
             if Point.y point >? Point.y best then point else best)
          points.

(** Both coordinates are finite. *)
Definition finitePoint (p : Point.t) : bool :=
  is_finite (Point.x p) && is_finite (Point.y p).

Definition px (p : Point.t) : R := to_R (Point.x p).
Definition py (p : Point.t) : R := to_R (Point.y p).

(** Sum of squared vertical distances from the line [y = s x + i]. *)
Definition squaredError (points : list Point.t) (s i : R) : R :=
  rsum_by (fun p => (py p - (s * px p + i)) * (py p - (s * px p + i)))%R
          points.

(** Points for the examples. *)
Definition samplePoint (x y : R) : Point.t :=
  {| Point.x := Fin x; Point.y := Fin y; Point.episode := Fin 0 |}.

(** Three points on the line [y = 2 x + 1]. *)
Definition linePoints : list Point.t :=
  [samplePoint 1 3; samplePoint 2 5; samplePoint 3 7].

(** Three points on no common line. *)
Definition scatterPoints : list Point.t :=
  [samplePoint 1 1; samplePoint 3 2; samplePoint 2 4].

End Scatter.

(** ** The listener mix chart: [ListenerMixChart] *)

Module ListenerMix.

Import PodcastData.
Local Open Scope num_scope.

Record Shares : Type := { newShare : num; returningShare : num }.

(** The callback of [data.map] that builds [shareData]. *)
Definition shareOf (d : Episode) : Shares :=
  {| newShare :=
       if listenersTotal (item d) === Fin 0 then Fin 0
       else newListeners (item d) / listenersTotal (item d);
     returningShare :=
       if listenersTotal (item d) === Fin 0 then Fin 0
       else returningListeners (item d) / listenersTotal (item d) |}.

Definition shareData (data : list Episode) : list Shares :=
  map shareOf data.


End ListenerMix.

(** ** The page: [src/App.jsx] *)

Module AppView.

Import PodcastData.

(** What [App] renders: the loading line, the fallback message, or the
    summary strip and the six charts, each chart with the episodes and
    its entry of [insights]. *)
Inductive View : Type :=
| LoadingView
| FallbackView
| Dashboard (summary : Summary) (data : list Episode)
            (insights : option Insights.t).

(** [error || !summary]: a stored rejection reason counts as truthy. *)
Definition App (out : Out.t) : View :=
  if Out.loading out then LoadingView
  else
    match Out.error out, Out.summary out with
    | None, Some summary =>
        Dashboard summary (Out.episodes out) (Out.insights out)
    | _, _ => FallbackView
    end.

End AppView.

(** ** Tooltips and hovering in the chart components *)

Module Hover.

Local Open Scope num_scope.

(** [chartDimensions]: the same width and height in every chart. *)
Definition width : num := Fin 640.
Definition height : num := Fin 360.

Record Position : Type := { left : num; top : num }.

(** The part of a bounding rectangle the handlers read. *)
Record Rect : Type := {
  rectLeft : num;
  rectTop : num;
  rectWidth : num;
  rectHeight : num
}.

(** [projectPointToWrapper]: [wrapper] is the bounding rectangle of
    [wrapperRef.current] ([None] when the ref is empty); [svgX] and
    [svgY] are the point's coordinates under the chart's two scales. *)
Definition projectPointToWrapper (wrapper : option Rect) (svgX svgY : num)
  : option Position :=
  match wrapper with
  | None => None
  | Some rect =>
      let wrapperWidth := rectWidth rect in
      let wrapperHeight := rectHeight rect in
      if (wrapperWidth === Fin 0) || (wrapperHeight === Fin 0) then None
      else
        let left := (svgX / width) * wrapperWidth in
        let top := (svgY / height) * wrapperHeight in
        let horizontalPadding := Fin 12 in
        let verticalPadding := Fin 20 in
        Some {| left := Math_min (Math_max left horizontalPadding)
                                 (wrapperWidth - horizontalPadding);
                top := Math_min (Math_max top verticalPadding)
                                (wrapperHeight - verticalPadding) |}
  end.

Record PointerEvent : Type := {
  buttons : num;
  clientX : num;
  clientY : num
}.

Section Pointer.

Context {P : Type}.

(** The closure variables of the [forEach] loop. *)
Record Closest : Type := {
  closestPoint : option P;
  closestDistance : num;
  closestPosition : option Position
}.

(** The chart's [projectPointToWrapper], as a function of the point. *)
Variable project : P -> option Position.

(** Distance of a projected point from the pointer. *)
Definition distanceTo (pointerX pointerY : num) (projected : Position)
  : num :=
  Math_hypot (left projected - pointerX) (top projected - pointerY).

Definition closestStep (pointerX pointerY : num) (acc : Closest) (point : P)
  : Closest :=
  match project point with
  | None => acc
  | Some projected =>
      let distance := distanceTo pointerX pointerY projected in
      if distance <? closestDistance acc then
        {| closestPoint := Some point;
           closestDistance := distance;
           closestPosition := Some projected |}
      else acc
  end.

(** What the loop has established after the points [seen]: no projected
    point of [seen] is closer to the pointer than the recorded distance,
    and a recorded point is one of [seen] with its projection and its
    distance. *)
Definition closestOf (pointerX pointerY : num) (seen : list P)
    (acc : Closest) : Prop :=
  (forall q pq, In q seen -> project q = Some pq ->
     (distanceTo pointerX pointerY pq <? closestDistance acc) = false)
  /\ match closestPoint acc, closestPosition acc with
     | Some p, Some pos =>
         In p seen /\ project p = Some pos
         /\ closestDistance acc = distanceTo pointerX pointerY pos
     | None, None => True
     | _, _ => False
     end.

(** [Math.max(24, Math.min(wrapperRect.width, wrapperRect.height) * 0.05)] *)
Definition activationRadius (wrapperRect : Rect) : num :=
  Math_max (Fin 24)
           (Math_min (rectWidth wrapperRect) (rectHeight wrapperRect)
            * Fin (5 / 100)).

(** [handlePointerMove]: the new value of [hoveredPoint], given the old
    one. *)
Definition handlePointerMove (wrapper : option Rect) (data : list P)
    (event : PointerEvent) (hoveredPoint : option (P * Position))
  : option (P * Position) :=
  match wrapper with
  | None => hoveredPoint
  | Some wrapperRect =>
      if buttons event >? Fin 0 then None
      else
        let pointerX := clientX event - rectLeft wrapperRect in
        let pointerY := clientY event - rectTop wrapperRect in
        let found :=
          fold_left (closestStep pointerX pointerY) data
                    {| closestPoint := None;
                       closestDistance := PosInf;
                       closestPosition := None |} in
        match closestPoint found, closestPosition found with
        | Some point, Some position =>
            if leqb (closestDistance found) (activationRadius wrapperRect)
            then Some (point, position)
            else None
        | _, _ => None
        end
  end.

End Pointer.

End Hover.

(** ** The same computations in binary64

    The numbers of JavaScript are binary64 floating-point numbers, and
    every [+], [-], [*], [/] and [Math.sqrt] of the program rounds to
    nearest.  This module transcribes the arithmetic functions once
    more, over the primitive binary64 numbers, to evaluate them on
    concrete inputs exactly as the program does.  The square
    [(v - mean) ** 2] is the rounded product [(v - mean) * (v - mean)]. *)

Module Binary64.

Local Open Scope float_scope.
#[local] Set Warnings "-inexact-float".

(** An array length as a number (exact below 2^53). *)
Fixpoint of_nat (n : nat) : float :=
  match n with
  | O => 0
  | S k => of_nat k + 1
  end.

(** [a >= b] and [a > b] *)
Definition geb (a b : float) : bool := b <=? a.
Definition gtb (a b : float) : bool := b <? a.

Definition Math_min (a b : float) : float :=
  if PrimFloat.is_nan a || PrimFloat.is_nan b then PrimFloat.nan
  else if b <? a then b else a.

Definition Math_max (a b : float) : float :=
  if PrimFloat.is_nan a || PrimFloat.is_nan b then PrimFloat.nan
  else if a <? b then b else a.

(** [arr.reduce((sum, item) => sum + f(item), 0)] *)
Definition sum_by {A : Type} (f : A -> float) (arr : list A) : float :=
  fold_left (fun sum item => sum + f item) arr 0.

(** *** [useZoomPan.js] *)

Definition domain : Type := (float * float)%type.

Definition DOMAIN_EPSILON : float := 1e-6.

Definition clampDomain (candidate base : option domain) : option domain :=
  match candidate, base with
  | Some (candStart, candEnd), Some (base0, base1) =>
      let baseMin := Math_min base0 base1 in
      let baseMax := Math_max base0 base1 in
      let candMin := Math_min candStart candEnd in
      let candMax := Math_max candStart candEnd in
      let baseSpan := baseMax - baseMin in
      let candSpan := candMax - candMin in
      let '(candMin, candMax) :=
        if geb candSpan baseSpan then (baseMin, baseMax)
        else
          let '(candMin, candMax) :=
            if candMin <? baseMin then
              let shift := baseMin - candMin in
              (candMin + shift, candMax + shift)
            else (candMin, candMax) in
          let '(candMin, candMax) :=
            if gtb candMax baseMax then
              let shift := candMax - baseMax in
              (candMin - shift, candMax - shift)
            else (candMin, candMax) in
          (Math_max baseMin candMin, Math_min baseMax candMax) in
      if (candMax - candMin) <? DOMAIN_EPSILON then Some (base0, base1)
      else
        let ascending := geb base1 base0 in
        if ascending then Some (candMin, candMax) else Some (candMax, candMin)
  | Some c, None => Some c
  | None, _ => base
  end.

(** *** [usePodcastData.js] *)

(** The duration column [hours:minutes:seconds] in minutes, as
    [parseRow] computes it from the three numbers. *)
Definition durationMinutes (hours minutes seconds : float) : float :=
  hours * 60 + minutes + seconds / 60.

Definition averageInWindow {A : Type} (series : list A) (index : Z)
    (accessor : A -> float) (window : Z) : float :=
  let start := Z.max 0 (index - (window - 1)) in
  let slice := slice series start (index + 1) in
  let total := sum_by accessor slice in
  total / of_nat (List.length slice).

Definition variance (values : list float) (mean : float) : float :=
  fold_left (fun sum v => sum + (v - mean) * (v - mean)) values 0.

Fixpoint covariance_from (idx : nat) (xs ys : list float)
    (meanX meanY sum : float) : float :=
  match xs with
  | [] => sum
  | x :: rest =>
      covariance_from (S idx) rest ys meanX meanY
        (sum + (x - meanX) * (nth idx ys PrimFloat.nan - meanY))
  end.

Definition correlation {A : Type} (series : list A)
    (xAccessor yAccessor : A -> float) : float :=
  let xs := map xAccessor series in
  let ys := map yAccessor series in
  let n := List.length xs in
  match n with
  | O => 0
  | S _ =>
      let meanX := sum_by (fun v => v) xs / of_nat n in
      let meanY := sum_by (fun v => v) ys / of_nat n in
      let numerator := covariance_from 0 xs ys meanX meanY 0 in
      let denominator :=
        PrimFloat.sqrt (variance xs meanX * variance ys meanY) in
      if denominator =? 0 then 0 else numerator / denominator
  end.

(** *** The scatter charts *)

(** A point is its pair of coordinates [(x, y)]. *)
Definition Point : Type := (float * float)%type.

(** [a || b] on numbers *)
Definition or_else (a b : float) : float :=
  if PrimFloat.is_nan a || (a =? 0) then b else a.

Definition calculateRegression (points : list Point) : float * float :=
  let n := of_nat (List.length points) in
  let sumX := sum_by fst points in
  let sumY := sum_by snd points in
  let sumXY := sum_by (fun p => fst p * snd p) points in
  let sumXX := sum_by (fun p => fst p * fst p) points in
  let denominator := n * sumXX - sumX * sumX in
  if denominator =? 0 then (0, or_else (sumY / n) 0)
  else
    let slope := (n * sumXY - sumX * sumY) / denominator in
    let intercept := (sumY - slope * sumX) / n in
    (slope, intercept).

Definition regressionLine (points : list Point) : float * float :=
  let n := of_nat (List.length points) in
  let sumX := sum_by fst points in
  let sumY := sum_by snd points in
  let sumXY := sum_by (fun p => fst p * snd p) points in
  let sumXX := sum_by (fun p => fst p * fst p) points in
  let denominator := n * sumXX - sumX * sumX in
  if denominator =? 0 then (0, 0)
  else
    let slope := (n * sumXY - sumX * sumY) / denominator in
    let intercept := (sumY - slope * sumX) / n in
    (slope, intercept).

End Binary64.

(** * Properties *)

(** ** Domain clamping *)

Module ZoomPanFacts.

Import ZoomPan.
Local Open Scope R_scope.

(** Unfolds the number operations and splits on every real comparison. *)
Ltac num_unfold :=
  cbv [clampDomain domainsEqual DOMAIN_EPSILON span inBounds sameDirection
       finiteDomain fst snd is_finite is_nan
       Math_min Math_max Math_abs Math_sqrt add sub mul div neg pow2
       ltb gtb geb strict_eq inf_of_sign orb andb negb] in *.

Ltac real_split :=
  unfold Rltb, Reqb in *;
  repeat (match goal with
          | |- context [Rlt_dec ?a ?b] => destruct (Rlt_dec a b)
          | |- context [Req_dec_T ?a ?b] => destruct (Req_dec_T a b)
          | H : context [Rlt_dec ?a ?b] |- _ => destruct (Rlt_dec a b)
          | H : context [Req_dec_T ?a ?b] |- _ => destruct (Req_dec_T a b)
          end; try lra; try discriminate; cbv beta iota in *).

Lemma domain_eq (x y x' y' : R) :
  x = x' -> y = y' -> Some (Fin x, Fin y) = Some (Fin x', Fin y').
Proof. intros -> ->; reflexivity. Qed.

Ltac num_crush :=
  num_unfold; try discriminate; try reflexivity;
  real_split; try discriminate; try reflexivity;
  try (apply domain_eq; lra).

(** A candidate at least as wide as a finite base collapses to the base. *)
Lemma clampDomain_wide (c : domain) (b0 b1 : R) :
  (span c >=? span (Fin b0, Fin b1))%num = true ->
  clampDomain (Some c) (Some (Fin b0, Fin b1)) = Some (Fin b0, Fin b1).
Proof.
  destruct c as [c0 c1]; intros H.
  destruct c0, c1; num_crush.
Qed.

(** A candidate inside a finite base, in its direction and not narrower
    than the epsilon, is a fixed point. *)
Lemma clampDomain_inside (c : domain) (b0 b1 : R) :
  inBounds c (Fin b0, Fin b1) = true ->
  sameDirection c (Fin b0, Fin b1) = true ->
  (span c <? DOMAIN_EPSILON)%num = false ->
  clampDomain (Some c) (Some (Fin b0, Fin b1)) = Some c.
Proof.
  destruct c as [c0 c1]; intros Hin Hdir Hspan.
  destruct c0, c1; num_crush.
Qed.

Lemma clampDomain_nan_candidate (b0 b1 : R) :
  clampDomain (Some (NaN, NaN)) (Some (Fin b0, Fin b1)) = Some (NaN, NaN).
Proof. num_crush. Qed.

(** The three shapes of a clamped domain over a finite base: the base
    itself, the all-NaN domain, or a domain [clampDomain_inside] applies
    to. *)
Lemma clampDomain_shape (c : domain) (b0 b1 : R) :
  let base := (Fin b0, Fin b1) in
  let r := clampDomain (Some c) (Some base) in
  r = Some base \/ r = Some (NaN, NaN) \/ settled base r = true.
Proof.
  destruct c as [c0 c1]; cbv zeta.
  destruct c0, c1; unfold settled; num_unfold; real_split;
    first [ left; reflexivity
          | right; left; reflexivity
          | right; right; reflexivity
          | left; apply domain_eq; lra ].
Qed.

Lemma clampDomain_base (b0 b1 : R) :
  clampDomain (Some (Fin b0, Fin b1)) (Some (Fin b0, Fin b1))
  = Some (Fin b0, Fin b1).
Proof. apply clampDomain_wide. num_crush. Qed.

Lemma clampDomain_idempotent (d : option domain) (b0 b1 : R) :
  let base := Some (Fin b0, Fin b1) in
  clampDomain (clampDomain d base) base = clampDomain d base.
Proof.
  cbv zeta. destruct d as [c|].
  - destruct (clampDomain_shape c b0 b1) as [H | [H | H]]; cbv zeta in H.
    + rewrite H. apply clampDomain_base.
    + rewrite H. apply clampDomain_nan_candidate.
    + destruct (clampDomain (Some c) (Some (Fin b0, Fin b1))) as [r|];
        [|discriminate].
      unfold settled in H.
      apply andb_prop in H; destruct H as [H Hs].
      apply andb_prop in H; destruct H as [Hi Hd].
      apply clampDomain_inside; trivial.
      now apply negb_true_iff.
  - simpl. apply clampDomain_base.
Qed.

(** With a NaN bound in the base every comparison of the clamp fails and
    both bounds come out NaN. *)
Lemma clampDomain_nan_base (c base : domain) :
  (is_nan (fst base) || is_nan (snd base))%bool = true ->
  clampDomain (Some c) (Some base) = Some (NaN, NaN).
Proof.
  destruct c as [c0 c1], base as [b0 b1]; simpl; intros H.
  destruct b0, b1; try discriminate H; destruct c0, c1; num_crush.
Qed.

(** A base whose bounds are one finite number absorbs every finite
    candidate. *)
Lemma clampDomain_point_base (c0 c1 b : R) :
  clampDomain (Some (Fin c0, Fin c1)) (Some (Fin b, Fin b))
  = Some (Fin b, Fin b).
Proof. apply clampDomain_wide. num_crush. Qed.

Lemma domainsEqual_refl_finite (b0 b1 : R) :
  domainsEqual (Some (Fin b0, Fin b1)) (Some (Fin b0, Fin b1)) = true.
Proof.
  num_unfold.
  replace (b0 + - b0) with 0 by lra. replace (b1 + - b1) with 0 by lra.
  rewrite Rabs_R0. real_split.
Qed.

(** One zoom event leaves an axis alone when its base is a point and the
    rescaled domain is finite. *)
Lemma onZoom_point_x (cfg : Config) (b : R) (rx ry : domain) (st : Domains) :
  initialXDomain cfg = Some (Fin b, Fin b) ->
  finiteDomain rx = true ->
  xDomain st = Some (Fin b, Fin b) ->
  xDomain (onZoom cfg rx ry st) = Some (Fin b, Fin b).
Proof.
  intros Hx Hf Hst. unfold onZoom. rewrite Hx, Hst.
  destruct rx as [[] []]; try discriminate Hf.
  rewrite clampDomain_point_base, domainsEqual_refl_finite. simpl.
  destruct (initialYDomain cfg); [|exact Hst].
  match goal with |- context [if ?t then _ else _] => destruct t end;
    simpl; first [exact Hst | reflexivity].
Qed.

Lemma onZoom_point_y (cfg : Config) (b : R) (rx ry : domain) (st : Domains) :
  initialYDomain cfg = Some (Fin b, Fin b) ->
  finiteDomain ry = true ->
  yDomain st = Some (Fin b, Fin b) ->
  yDomain (onZoom cfg rx ry st) = Some (Fin b, Fin b).
Proof.
  intros Hy Hf Hst. unfold onZoom. rewrite Hy, Hst.
  destruct ry as [[] []]; try discriminate Hf.
  rewrite clampDomain_point_base, domainsEqual_refl_finite. simpl.
  destruct (initialXDomain cfg); [|exact Hst].
  match goal with |- context [if ?t then _ else _] => destruct t end;
    simpl; first [exact Hst | reflexivity].
Qed.

Lemma gestures_point_x (cfg : Config) (b : R)
    (gestures : list (domain * domain)) (st : Domains) :
  initialXDomain cfg = Some (Fin b, Fin b) ->
  Forall (fun g => finiteDomain (fst g) = true) gestures ->
  xDomain st = Some (Fin b, Fin b) ->
  xDomain (fold_left (fun st g => onZoom cfg (fst g) (snd g) st) gestures st)
  = Some (Fin b, Fin b).
Proof.
  intros Hx Hall. revert st.
  induction Hall as [|g gs Hg _ IH]; intros st Hst; simpl.
  - exact Hst.
  - apply IH. now apply onZoom_point_x.
Qed.

Lemma gestures_point_y (cfg : Config) (b : R)
    (gestures : list (domain * domain)) (st : Domains) :
  initialYDomain cfg = Some (Fin b, Fin b) ->
  Forall (fun g => finiteDomain (snd g) = true) gestures ->
  yDomain st = Some (Fin b, Fin b) ->
  yDomain (fold_left (fun st g => onZoom cfg (fst g) (snd g) st) gestures st)
  = Some (Fin b, Fin b).
Proof.
  intros Hy Hall. revert st.
  induction Hall as [|g gs Hg _ IH]; intros st Hst; simpl.
  - exact Hst.
  - apply IH. now apply onZoom_point_y.
Qed.

(** C1 as the spec states it fails: the candidate [[-5, 44]] is as wide
    as the base [[1, 50]], so the clamp does not return [[1, 49]]. *)
Lemma pan_past_edge_not_1_49 :
  clampDomain (Some (Fin (-5), Fin 44)) (Some (Fin 1, Fin 50))
  <> Some (Fin 1, Fin 49).
Proof.
  rewrite clampDomain_wide by num_crush.
  intros H; injection H; lra.
Qed.

(** A window narrower than an ascending base that starts below it is
    moved up to the base minimum with its width kept. *)
Lemma clampDomain_shift_right (b0 b1 c0 c1 : R) :
  b0 <= b1 -> c0 <= c1 -> c0 < b0 ->
  1 / 1000000 <= c1 - c0 < b1 - b0 ->
  clampDomain (Some (Fin c0, Fin c1)) (Some (Fin b0, Fin b1))
  = Some (Fin b0, Fin (b0 + (c1 - c0))).
Proof. intros Hb Hc Hlow Hw. num_crush. Qed.

(** C1 (amended).  For the base domain [[1, 50]] the candidate
    [[-5, 44]], whose width 49 equals the base span, clamps to the base
    [[1, 50]].  The candidate [[-5, 43]], of width 48 and so narrower
    than the base, is shifted to start at 1 with its width kept, not
    truncated to [[1, 43]]: it clamps to [[1, 49]]. *)
Theorem pan_past_edge :
  clampDomain (Some (Fin (-5), Fin 44)) (Some (Fin 1, Fin 50))
  = Some (Fin 1, Fin 50)
  /\ clampDomain (Some (Fin (-5), Fin 43)) (Some (Fin 1, Fin 50))
     = Some (Fin 1, Fin 49)
  /\ clampDomain (Some (Fin (-5), Fin 43)) (Some (Fin 1, Fin 50))
     <> Some (Fin 1, Fin 43).
Proof.
  assert (E : clampDomain (Some (Fin (-5), Fin 43)) (Some (Fin 1, Fin 50))
              = Some (Fin 1, Fin 49)) by num_crush.
  split; [|split].
  - num_crush.
  - exact E.
  - rewrite E. intros H. injection H as H. lra.
Qed.

(** C3 as the spec states it fails: a candidate inside the base is not
    always returned unchanged.  Inside [[1, 50]], the ascending window
    [[20, 20.0000005]] is narrower than the epsilon and clamps to the
    base; the descending window [[30, 20]] comes back ascending. *)
Lemma in_bounds_candidate_changed :
  let base := (Fin 1, Fin 50) in
  let narrow := (Fin 20, Fin 20.0000005) in
  let reversed := (Fin 30, Fin 20) in
  inBounds narrow base = true
  /\ clampDomain (Some narrow) (Some base) = Some base
  /\ clampDomain (Some narrow) (Some base) <> Some narrow
  /\ inBounds reversed base = true
  /\ clampDomain (Some reversed) (Some base) = Some (Fin 20, Fin 30)
  /\ clampDomain (Some reversed) (Some base) <> Some reversed.
Proof.
  cbv zeta.
  assert (N : clampDomain (Some (Fin 20, Fin 20.0000005))
                          (Some (Fin 1, Fin 50)) = Some (Fin 1, Fin 50))
    by num_crush.
  assert (V : clampDomain (Some (Fin 30, Fin 20)) (Some (Fin 1, Fin 50))
              = Some (Fin 20, Fin 30)) by num_crush.
  repeat split.
  - num_crush.
  - exact N.
  - rewrite N. intros H; injection H; lra.
  - num_crush.
  - exact V.
  - rewrite V. intros H; injection H; lra.
Qed.

(** C3 (amended).  In exact arithmetic, over a base domain with finite
    bounds: a candidate that lies within the base, runs in the base's
    direction and is at least epsilon (1e-6) wide is returned unchanged;
    a candidate whose span is greater than or equal to the base span
    returns exactly the base; and clamping is idempotent for every
    candidate, absent or with any bounds.  The first and the last of
    the three rest on exact subtraction and addition: in binary64 they
    can fail by rounding, as [Binary64Facts.clampDomain_binary64_rounding]
    shows for a candidate one unit in the last place inside the base. *)
Theorem clampDomain_fixed_wide_idempotent (b0 b1 : R) :
  let base := (Fin b0, Fin b1) in
  (forall c : domain,
      inBounds c base = true ->
      sameDirection c base = true ->
      (span c <? DOMAIN_EPSILON)%num = false ->
      clampDomain (Some c) (Some base) = Some c)
  /\ (forall c : domain,
         (span c >=? span base)%num = true ->
         clampDomain (Some c) (Some base) = Some base)
  /\ (forall d : option domain,
         clampDomain (clampDomain d (Some base)) (Some base)
         = clampDomain d (Some base)).
Proof.
  cbv zeta. split; [|split].
  - intros c. apply clampDomain_inside.
  - intros c. apply clampDomain_wide.
  - intros d. apply clampDomain_idempotent.
Qed.

Lemma clampDomain_fixed_wide_idempotent_witness :
  let base := (Fin 1, Fin 50) in
  clampDomain (Some (Fin 20, Fin 30)) (Some base) = Some (Fin 20, Fin 30)
  /\ clampDomain (Some (Fin (-10), Fin 60)) (Some base) = Some base
  /\ clampDomain (clampDomain (Some (Fin (-5), Fin 43)) (Some base))
                 (Some base)
     = clampDomain (Some (Fin (-5), Fin 43)) (Some base).
Proof.
  cbv zeta.
  destruct (clampDomain_fixed_wide_idempotent 1 50) as (Hin & Hwide & Hidem).
  split; [|split].
  - apply Hin; num_crush.
  - apply Hwide; num_crush.
  - apply Hidem.
Defined.

(** C7 as the spec states it fails: with the malformed base
    [[NaN, 5]] one zoom event makes the hook report [[NaN, NaN]], not
    the base. *)
Lemma nan_base_not_reported_verbatim :
  let cfg := {| initialXDomain := Some (NaN, Fin 5);
                initialYDomain := None |} in
  let st := afterGestures cfg [((Fin 2, Fin 4), (Fin 0, Fin 0))] in
  reportedX cfg st = Some (NaN, NaN)
  /\ reportedX cfg st <> initialXDomain cfg.
Proof.
  cbv zeta.
  assert (E : reportedX {| initialXDomain := Some (NaN, Fin 5);
                           initialYDomain := None |}
                (afterGestures {| initialXDomain := Some (NaN, Fin 5);
                                  initialYDomain := None |}
                   [((Fin 2, Fin 4), (Fin 0, Fin 0))]) = Some (NaN, NaN)).
  { unfold afterGestures, reportedX, onZoom, initialDomains; simpl.
    num_crush. }
  split; [exact E|]. rewrite E. simpl. discriminate.
Qed.

(** C7 (amended).  A base domain whose two bounds are the same finite
    number absorbs every candidate with finite bounds: [clampDomain]
    returns that base verbatim, and over any run of zoom events with
    finite rescaled domains the hook keeps reporting it, on either axis.
    A base with a NaN bound does not throw either, but clamps every
    candidate to [[NaN, NaN]]. *)
Theorem degenerate_base_no_op :
  (forall b c0 c1 : R,
      clampDomain (Some (Fin c0, Fin c1)) (Some (Fin b, Fin b))
      = Some (Fin b, Fin b))
  /\ (forall (cfg : Config) (b : R) (gestures : list (domain * domain)),
         initialXDomain cfg = Some (Fin b, Fin b) ->
         Forall (fun g => finiteDomain (fst g) = true) gestures ->
         reportedX cfg (afterGestures cfg gestures) = initialXDomain cfg)
  /\ (forall (cfg : Config) (b : R) (gestures : list (domain * domain)),
         initialYDomain cfg = Some (Fin b, Fin b) ->
         Forall (fun g => finiteDomain (snd g) = true) gestures ->
         reportedY cfg (afterGestures cfg gestures) = initialYDomain cfg)
  /\ (forall c base : domain,
         (is_nan (fst base) || is_nan (snd base))%bool = true ->
         clampDomain (Some c) (Some base) = Some (NaN, NaN)).
Proof.
  split; [|split; [|split]].
  - intros b c0 c1. apply clampDomain_point_base.
  - intros cfg b gestures Hx Hall.
    unfold reportedX, afterGestures.
    rewrite gestures_point_x with (b := b); trivial.
    now rewrite Hx.
  - intros cfg b gestures Hy Hall.
    unfold reportedY, afterGestures.
    rewrite gestures_point_y with (b := b); trivial.
    now rewrite Hy.
  - apply clampDomain_nan_base.
Qed.

Lemma degenerate_base_no_op_witness :
  let cfg := {| initialXDomain := Some (Fin 5, Fin 5);
                initialYDomain := Some (Fin 0, Fin 0) |} in
  let gestures := [((Fin 2, Fin 4), (Fin 1, Fin 0));
                   ((Fin 5, Fin 6), (Fin 0, Fin 3))] in
  clampDomain (Some (Fin 2, Fin 4)) (Some (Fin 5, Fin 5))
  = Some (Fin 5, Fin 5)
  /\ reportedX cfg (afterGestures cfg gestures) = Some (Fin 5, Fin 5)
  /\ reportedY cfg (afterGestures cfg gestures) = Some (Fin 0, Fin 0)
  /\ clampDomain (Some (Fin 2, Fin 4)) (Some (NaN, Fin 5))
     = Some (NaN, NaN).
Proof.
  cbv zeta.
  destruct degenerate_base_no_op as (Hpoint & Hx & Hy & Hnan).
  split; [|split; [|split]].
  - apply Hpoint.
  - refine (Hx {| initialXDomain := Some (Fin 5, Fin 5);
                  initialYDomain := Some (Fin 0, Fin 0) |} 5 _ eq_refl _).
    repeat constructor.
  - refine (Hy {| initialXDomain := Some (Fin 5, Fin 5);
                  initialYDomain := Some (Fin 0, Fin 0) |} 0 _ eq_refl _).
    repeat constructor.
  - apply Hnan. reflexivity.
Defined.

End ZoomPanFacts.

(** ** Series derivation *)

Module PodcastDataFacts.

Import PodcastData.
Local Open Scope num_scope.

(** *** NaN is absorbing *)

Lemma add_NaN_r (a : num) : a + NaN = NaN.
Proof. now destruct a. Qed.

Lemma sub_NaN_r (a : num) : a - NaN = NaN.
Proof. now destruct a. Qed.

Lemma mul_NaN_r (a : num) : a * NaN = NaN.
Proof. now destruct a. Qed.

Lemma div_NaN_r (a : num) : a / NaN = NaN.
Proof. now destruct a. Qed.

Lemma zero_div_zero : Fin 0 / Fin 0 = NaN.
Proof. cbv [div inf_of_sign]. real_cases; try lra; reflexivity. Qed.

(** *** The per-1000-downloads guard (C10) *)

(** Every derived episode is the image of its item by [deriveEpisode]. *)
Lemma deriveFrom_In (raw rest : list Item) (idx : nat) (cs cd : num)
    (e : Episode) :
  In e (fst (deriveFrom raw idx cs cd rest)) ->
  exists it idx' cs' cd',
    In it rest /\ e = fst (deriveEpisode raw it idx' cs' cd').
Proof.
  revert idx cs cd.
  induction rest as [|it rest IH]; intros idx cs cd; simpl.
  - intros [].
  - destruct (deriveFrom raw (S idx) (cs + subscribersGained it)
                (cd + downloads it) rest) as [eps totals] eqn:E.
    simpl. intros [<- | Hin].
    + exists it, idx, cs, cd. split; [now left | reflexivity].
    + specialize (IH (S idx) (cs + subscribersGained it)
                      (cd + downloads it)).
      rewrite E in IH. destruct (IH Hin) as (it' & i' & cs' & cd' & H1 & H2).
      exists it', i', cs', cd'. split; [now right | exact H2].
Qed.

Lemma deriveEpisode_item (raw : list Item) (it : Item) (idx : nat)
    (cs cd : num) :
  item (fst (deriveEpisode raw it idx cs cd)) = it.
Proof. reflexivity. Qed.

Lemma memoized_episodes toFixed toLocaleString (raw : list Item) :
  episodes (memoized toFixed toLocaleString raw)
  = fst (deriveFrom raw 0 (Fin 0) (Fin 0) raw).
Proof.
  destruct raw as [|it rest]; [reflexivity|].
  unfold memoized.
  destruct (deriveFrom (it :: rest) 0 (Fin 0) (Fin 0) (it :: rest))
    as [eps [cs cd]].
  reflexivity.
Qed.

Lemma zero_strict_eq : (Fin 0 === Fin 0) = true.
Proof. cbv [strict_eq]. real_cases; [reflexivity | lra]. Qed.

(** The same guard in [parseRow]: no downloads, completion rate 0. *)
Lemma completionRate_guard (row : Raw.Row) :
  downloads (parseRow row) = Fin 0 -> completionRate (parseRow row) = Fin 0.
Proof.
  unfold parseRow; cbn [downloads completionRate].
  intros ->. now rewrite zero_strict_eq.
Qed.

(** C10.  For every row whose downloads are 0, the derived fields
    [subscribersPerThousandDownloads] and [sharesPerThousandDownloads]
    of its episode are exactly 0 (so neither NaN nor infinite), whatever
    the other columns hold. *)
Theorem per_thousand_guard toFixed toLocaleString (raw : list Item)
    (e : Episode) :
  In e (episodes (memoized toFixed toLocaleString raw)) ->
  downloads (item e) = Fin 0 ->
  subscribersPerThousandDownloads e = Fin 0
  /\ sharesPerThousandDownloads e = Fin 0.
Proof.
  rewrite memoized_episodes. intros Hin Hzero.
  destruct (deriveFrom_In _ _ _ _ _ _ Hin) as (it & idx & cs & cd & _ & ->).
  rewrite deriveEpisode_item in Hzero.
  unfold deriveEpisode;
    cbn [fst subscribersPerThousandDownloads sharesPerThousandDownloads].
  now rewrite Hzero, zero_strict_eq.
Qed.

Lemma per_thousand_guard_witness :
  let it := parseRow (sampleRow "1" "00:30:00" "0" "0") in
  let e := fst (deriveEpisode [it] it 0 (Fin 0) (Fin 0)) in
  subscribersPerThousandDownloads e = Fin 0
  /\ sharesPerThousandDownloads e = Fin 0.
Proof.
  cbv zeta.
  apply (per_thousand_guard plainFixed plainLocale
           [parseRow (sampleRow "1" "00:30:00" "0" "0")]).
  - left. reflexivity.
  - reflexivity.
Defined.

(** *** A series of one episode (C9) *)

Lemma arrAverage_nil {A : Type} (accessor : A -> num) :
  arrAverage [] accessor = NaN.
Proof. exact zero_div_zero. Qed.

Lemma earlySlice_singleton (ep : Episode) : earlySlice [ep] = [].
Proof. reflexivity. Qed.

Lemma computeSummary_singleton (ep : Episode) (cs : num) :
  let s := computeSummary [ep] cs in
  downloadsGrowthPercent s = NaN
  /\ completionRateChange s = NaN
  /\ newListenerShareChange s = NaN.
Proof.
  cbv zeta. unfold computeSummary.
  cbn [downloadsGrowthPercent completionRateChange newListenerShareChange].
  rewrite earlySlice_singleton, !arrAverage_nil.
  cbn [strict_eq]. now rewrite !sub_NaN_r, div_NaN_r.
Qed.

Lemma memoized_singleton toFixed toLocaleString (it : Item) :
  exists (ep : Episode) (cs : num),
    memoized toFixed toLocaleString [it]
    = {| episodes := [ep];
         summary := Some (computeSummary [ep] cs);
         insights :=
           Some (buildInsights toFixed toLocaleString
                   (computeSummary [ep] cs)) |}.
Proof.
  unfold memoized. cbn [deriveFrom].
  destruct (deriveEpisode [it] it 0 (Fin 0) (Fin 0)) as [ep [cs cd]].
  now exists ep, cs.
Qed.

(** C9.  For every series of exactly one episode the half-split index
    is [floor(1/2) = 0], the early-half slice is empty, and the fields
    [downloadsGrowthPercent], [completionRateChange] and
    [newListenerShareChange] of the published summary are all NaN; no
    error is raised.  This holds from the loaded CSV row on. *)
Theorem single_episode_summary_NaN toFixed toLocaleString :
  (forall it : Item,
      let m := memoized toFixed toLocaleString [it] in
      halfwayIndex (episodes m) = 0%nat
      /\ earlySlice (episodes m) = []
      /\ exists s : Summary,
           summary m = Some s
           /\ downloadsGrowthPercent s = NaN
           /\ completionRateChange s = NaN
           /\ newListenerShareChange s = NaN)
  /\ (forall row : Raw.Row,
         let out := usePodcastData toFixed toLocaleString
                      (onSettled (Resolved [row]) initialState) in
         Out.error out = None
         /\ exists s : Summary,
              Out.summary out = Some s
              /\ downloadsGrowthPercent s = NaN
              /\ completionRateChange s = NaN
              /\ newListenerShareChange s = NaN).
Proof.
  assert (H : forall it : Item,
             let m := memoized toFixed toLocaleString [it] in
             halfwayIndex (episodes m) = 0%nat
             /\ earlySlice (episodes m) = []
             /\ exists s : Summary,
                  summary m = Some s
                  /\ downloadsGrowthPercent s = NaN
                  /\ completionRateChange s = NaN
                  /\ newListenerShareChange s = NaN).
  { intros it; cbv zeta.
    destruct (memoized_singleton toFixed toLocaleString it)
      as (ep & cs & ->).
    cbn [episodes summary].
    split; [reflexivity | split; [reflexivity |]].
    exists (computeSummary [ep] cs).
    split; [reflexivity | apply computeSummary_singleton]. }
  split; [exact H |].
  intros row; cbv zeta.
  split; [reflexivity |].
  unfold usePodcastData, onSettled; cbn [raw Out.summary map sort sort_insert].
  apply (H (parseRow row)).
Qed.

(** *** The empty series (C4) *)

(** C4 as the spec states it fails: an empty series raises no error.
    After the loader resolves with no row the hook reports
    [error = null] (and [summary = null]). *)
Lemma empty_series_no_error :
  let out := usePodcastData plainFixed plainLocale
               (onSettled (Resolved []) initialState) in
  Out.error out = None /\ Out.summary out = None.
Proof. split; reflexivity. Qed.

(** C4 (amended).  For an empty input series the summary computation
    raises no error: it returns [summary = null] with no episodes and
    empty insights, not NaN-valued statistics, and the hook reports
    [summary === null] with [error === null]; for a non-empty series
    the summary is never [null]. *)
Theorem empty_series_summary_null toFixed toLocaleString :
  memoized toFixed toLocaleString []
  = {| episodes := []; summary := None; insights := None |}
  /\ (let out := usePodcastData toFixed toLocaleString
                   (onSettled (Resolved []) initialState) in
      Out.episodes out = [] /\ Out.summary out = None
      /\ Out.insights out = None /\ Out.error out = None
      /\ Out.loading out = false)
  /\ (forall (it : Item) (rest : list Item),
         exists s : Summary,
           summary (memoized toFixed toLocaleString (it :: rest)) = Some s
           /\ insights (memoized toFixed toLocaleString (it :: rest))
              = Some (buildInsights toFixed toLocaleString s)).
Proof.
  split; [reflexivity | split; [repeat split |]].
  intros it rest. unfold memoized.
  destruct (deriveFrom (it :: rest) 0 (Fin 0) (Fin 0) (it :: rest))
    as [eps [cs cd]].
  eexists; split; reflexivity.
Qed.

(** *** Insight phrasing (C8) *)

Lemma ltb_zero_not_geb (c : num) :
  (c <? Fin 0) = true -> (c >=? Fin 0) = false.
Proof.
  destruct c; cbv [ltb geb strict_eq orb]; try discriminate; try reflexivity.
  real_cases; try discriminate; try reflexivity; lra.
Qed.

Lemma zero_geb_zero : (Fin 0 >=? Fin 0) = true.
Proof. cbv [ltb geb strict_eq orb]. real_cases; try reflexivity; lra. Qed.

(** C8.  For every summary, each correlation insight (shares to
    subscribers, duration to completion) uses its positive phrasing
    exactly when the correlation coefficient is [>= 0] and its caution
    phrasing otherwise, in particular when the coefficient is negative;
    a coefficient of exactly 0 takes the positive branch. *)
Theorem insight_phrasing toFixed toLocaleString (s : Summary) :
  let ins := buildInsights toFixed toLocaleString s in
  let r1 := sharesSubscribersCorrelation s in
  let r2 := durationCompletionCorrelation s in
  positiveSharesToSubs (Insights.sharesToSubs ins) = (r1 >=? Fin 0)
  /\ cautionSharesToSubs (Insights.sharesToSubs ins) = negb (r1 >=? Fin 0)
  /\ positiveDuration (Insights.duration ins) = (r2 >=? Fin 0)
  /\ cautionDuration (Insights.duration ins) = negb (r2 >=? Fin 0)
  /\ (r1 = Fin 0 -> positiveSharesToSubs (Insights.sharesToSubs ins) = true)
  /\ ((r1 <? Fin 0) = true ->
      cautionSharesToSubs (Insights.sharesToSubs ins) = true)
  /\ (r2 = Fin 0 -> positiveDuration (Insights.duration ins) = true)
  /\ ((r2 <? Fin 0) = true ->
      cautionDuration (Insights.duration ins) = true).
Proof.
  cbv zeta.
  assert (P1 : positiveSharesToSubs
                 (Insights.sharesToSubs (buildInsights toFixed toLocaleString s))
               = (sharesSubscribersCorrelation s >=? Fin 0)).
  { unfold buildInsights; cbn [Insights.sharesToSubs].
    destruct (sharesSubscribersCorrelation s >=? Fin 0); reflexivity. }
  assert (C1 : cautionSharesToSubs
                 (Insights.sharesToSubs (buildInsights toFixed toLocaleString s))
               = negb (sharesSubscribersCorrelation s >=? Fin 0)).
  { unfold buildInsights; cbn [Insights.sharesToSubs].
    destruct (sharesSubscribersCorrelation s >=? Fin 0); reflexivity. }
  assert (P2 : positiveDuration
                 (Insights.duration (buildInsights toFixed toLocaleString s))
               = (durationCompletionCorrelation s >=? Fin 0)).
  { unfold buildInsights; cbn [Insights.duration].
    destruct (durationCompletionCorrelation s >=? Fin 0); reflexivity. }
  assert (C2 : cautionDuration
                 (Insights.duration (buildInsights toFixed toLocaleString s))
               = negb (durationCompletionCorrelation s >=? Fin 0)).
  { unfold buildInsights; cbn [Insights.duration].
    destruct (durationCompletionCorrelation s >=? Fin 0); reflexivity. }
  repeat split; trivial.
  - intros H. now rewrite P1, H, zero_geb_zero.
  - intros H. now rewrite C1, (ltb_zero_not_geb _ H).
  - intros H. now rewrite P2, H, zero_geb_zero.
  - intros H. now rewrite C2, (ltb_zero_not_geb _ H).
Qed.

Lemma neg_half_ltb_zero : (Fin (-1 / 2) <? Fin 0) = true.
Proof. cbv [ltb]. real_cases; [reflexivity | lra]. Defined.

Lemma insight_phrasing_witness :
  let zeroThenNegative := sampleSummary (Fin 0) (Fin (-1 / 2)) in
  let negativeThenZero := sampleSummary (Fin (-1 / 2)) (Fin 0) in
  let text s := buildInsights plainFixed plainLocale s in
  (positiveSharesToSubs (Insights.sharesToSubs (text zeroThenNegative)) = true
   /\ cautionDuration (Insights.duration (text zeroThenNegative)) = true)
  /\ (cautionSharesToSubs (Insights.sharesToSubs (text negativeThenZero))
      = true
      /\ positiveDuration (Insights.duration (text negativeThenZero)) = true).
Proof.
  cbv zeta.
  destruct (insight_phrasing plainFixed plainLocale
              (sampleSummary (Fin 0) (Fin (-1 / 2))))
    as (_ & _ & _ & _ & Hzero1 & _ & _ & Hneg2).
  destruct (insight_phrasing plainFixed plainLocale
              (sampleSummary (Fin (-1 / 2)) (Fin 0)))
    as (_ & _ & _ & _ & _ & Hneg1 & Hzero2 & _).
  split; split.
  - apply Hzero1. reflexivity.
  - apply Hneg2. exact neg_half_ltb_zero.
  - apply Hneg1. exact neg_half_ltb_zero.
  - apply Hzero2. reflexivity.
Defined.

(** *** Duration parsing (C2) *)

Lemma Fin_eq (x y : R) : x = y -> Fin x = Fin y.
Proof. now intros ->. Qed.

(** Evaluates a closed expression down to the real arithmetic, decides
    the comparisons met on the way and leaves the real (in)equalities to
    [lra]. *)
Ltac num_eval :=
  lazy -[IZR Rplus Rminus Rmult Rdiv Rinv Ropp Rlt Rle Rgt Rge
         Rlt_dec Rle_dec Req_dec_T sqrt Rabs];
  repeat (match goal with
          | |- context [Rlt_dec ?a ?b] => destruct (Rlt_dec a b)
          | |- context [Req_dec_T ?a ?b] => destruct (Req_dec_T a b)
          end; try lra; cbv beta iota);
  try reflexivity; try (apply Fin_eq; lra);
  try (apply f_equal; apply Fin_eq; lra).

Lemma add_NaN_l (a : num) : NaN + a = NaN.
Proof. reflexivity. Qed.

(** A component that is missing or not numeric among the first three
    makes the whole duration NaN. *)
Lemma parseDuration_NaN_component (s : string) (i : nat) :
  (i < 3)%nat ->
  nth i (map Number (split ":" s)) NaN = NaN ->
  parseDuration s = NaN.
Proof.
  intros Hi H. unfold parseDuration.
  destruct i as [|[|[|i]]]; [| | |lia]; rewrite H.
  - reflexivity.
  - now rewrite add_NaN_r.
  - reflexivity || now rewrite add_NaN_r.
Qed.

Lemma parseDuration_short (s : string) :
  (List.length (split ":" s) < 3)%nat -> parseDuration s = NaN.
Proof.
  intros H. apply parseDuration_NaN_component with (i := 2%nat); [lia|].
  apply nth_overflow. rewrite length_map. lia.
Qed.

(** Three numeric components give [hours * 60 + minutes + seconds / 60];
    what follows the third is not read. *)
Lemma parseDuration_numeric (s : string) (h m sec : R)
    (more : list num) :
  map Number (split ":" s) = Fin h :: Fin m :: Fin sec :: more ->
  parseDuration s = Fin (h * 60 + m + sec / 60)%R.
Proof.
  intros H. unfold parseDuration. rewrite H. num_eval.
Qed.

(** C2 as the spec states it fails: the malformed duration ["12:34"]
    raises no error; [parseRow] returns an item whose [durationMinutes]
    is NaN. *)
Lemma malformed_duration_yields_NaN :
  durationMinutes (parseRow (sampleRow "1" "12:34" "100" "50")) = NaN.
Proof. num_eval. Qed.

(** C2 (amended).  The duration column of a row is read as
    [hours * 60 + minutes + seconds / 60]: ["01:23:45"] gives 83.75 and
    ["00:00:00"] gives 0.  No error is raised on a malformed string: a
    string with fewer than three components (["12:34"]), or with a
    missing or non-numeric component among the first three, gives NaN,
    and components after the third are ignored (["1:2:3:4"] gives
    62.05). *)
Theorem duration_parsing :
  parseDuration "01:23:45" = Fin 83.75
  /\ parseDuration "00:00:00" = Fin 0
  /\ parseDuration "12:34" = NaN
  /\ parseDuration "1:2:3:4" = Fin 62.05
  /\ (forall row : Raw.Row,
         durationMinutes (parseRow row) = parseDuration (Raw.duration row))
  /\ (forall (s : string) (h m sec : R) (more : list num),
         map Number (split ":" s) = Fin h :: Fin m :: Fin sec :: more ->
         parseDuration s = Fin (h * 60 + m + sec / 60)%R)
  /\ (forall s : string,
         (List.length (split ":" s) < 3)%nat -> parseDuration s = NaN)
  /\ (forall (s : string) (i : nat),
         (i < 3)%nat ->
         nth i (map Number (split ":" s)) NaN = NaN ->
         parseDuration s = NaN).
Proof.
  refine (conj _ (conj _ (conj _ (conj _ (conj _ (conj _ (conj _ _))))))).
  - num_eval.
  - num_eval.
  - num_eval.
  - num_eval.
  - intros row. reflexivity.
  - apply parseDuration_numeric.
  - apply parseDuration_short.
  - apply parseDuration_NaN_component.
Qed.

Lemma duration_parsing_witness :
  parseDuration "00:45:30" = Fin (0 * 60 + 45 + 30 / 60)%R
  /\ parseDuration "45" = NaN
  /\ parseDuration "1:xx:3" = NaN.
Proof.
  destruct duration_parsing as (_ & _ & _ & _ & _ & Hnum & Hshort & Hnan).
  split; [|split].
  - apply (Hnum "00:45:30"%string 0%R 45%R 30%R []). num_eval.
  - apply Hshort. vm_compute. lia.
  - apply (Hnan "1:xx:3"%string 1%nat); [lia | reflexivity].
Defined.

(** *** The rolling window (C5) *)

Lemma recordsAt_beyond {A : Type} (series : list A) (a n : nat) :
  (List.length series <= a)%nat -> recordsAt series (seq a n) = [].
Proof.
  revert a; induction n as [|n IH]; intros a Ha; [reflexivity|].
  unfold recordsAt in *; simpl.
  rewrite (proj2 (nth_error_None series a) Ha). simpl.
  apply IH. lia.
Qed.

(** Taking [n] records after skipping [a] reads the indices
    [a .. a+n-1] that exist. *)
Lemma firstn_skipn_recordsAt {A : Type} (series : list A) (a n : nat) :
  firstn n (skipn a series) = recordsAt series (seq a n).
Proof.
  revert a; induction n as [|n IH]; intros a; [reflexivity|].
  destruct (skipn a series) as [|x rest] eqn:E.
  - rewrite recordsAt_beyond; [reflexivity|].
    rewrite <- (firstn_skipn a series), E, app_nil_r.
    rewrite length_firstn. lia.
  - assert (Hx : nth_error series a = Some x).
    { rewrite <- (Nat.add_0_r a), <- nth_error_skipn, E. reflexivity. }
    assert (Hr : rest = skipn (S a) series).
    { change (S a) with (1 + a)%nat.
      rewrite <- skipn_skipn, E. reflexivity. }
    unfold recordsAt; cbn [seq flat_map firstn].
    rewrite Hx. cbn [app]. f_equal.
    rewrite Hr. apply IH.
Qed.

Lemma slice_recordsAt {A : Type} (series : list A) (a b : nat) :
  slice series (Z.of_nat a) (Z.of_nat b) = recordsAt series (seq a (b - a)).
Proof.
  unfold slice, relative_index.
  destruct (Z.ltb_spec (Z.of_nat a) 0); [lia|].
  destruct (Z.ltb_spec (Z.of_nat b) 0); [lia|].
  set (len := List.length series).
  destruct (Nat.le_gt_cases len a) as [Ha | Ha].
  - rewrite recordsAt_beyond by exact Ha.
    rewrite skipn_all2 by (fold len; lia). now rewrite firstn_nil.
  - replace (Z.to_nat (Z.min (Z.of_nat a) (Z.of_nat len))) with a by lia.
    rewrite <- firstn_skipn_recordsAt.
    destruct (Nat.le_gt_cases b len) as [Hb | Hb].
    + f_equal. lia.
    + rewrite !firstn_all2; trivial; rewrite length_skipn; fold len; lia.
Qed.

Lemma averageInWindow_trailingMean {A : Type} (series : list A) (i : nat)
    (accessor : A -> num) :
  averageInWindow series (Z.of_nat i) accessor 7 = trailingMean series i accessor.
Proof.
  unfold averageInWindow, trailingMean, trailingWindow, windowIndices.
  replace (Z.max 0 (Z.of_nat i - (7 - 1))) with (Z.of_nat (i - 6)) by lia.
  replace (Z.of_nat i + 1)%Z with (Z.of_nat (i + 1)) by lia.
  now rewrite slice_recordsAt.
Qed.

Lemma recordsAt_length {A : Type} (series : list A) (a n : nat) :
  (a + n <= List.length series)%nat ->
  List.length (recordsAt series (seq a n)) = n.
Proof.
  intros H. rewrite <- firstn_skipn_recordsAt.
  rewrite length_firstn, length_skipn. lia.
Qed.

(** The episode at index [k] comes from the item at index [k], with
    that index passed to [deriveEpisode]. *)
Lemma deriveFrom_nth (raw rest : list Item) (idx : nat) (cs cd : num)
    (k : nat) (e : Episode) :
  nth_error (fst (deriveFrom raw idx cs cd rest)) k = Some e ->
  exists it cs' cd',
    nth_error rest k = Some it
    /\ e = fst (deriveEpisode raw it (idx + k) cs' cd').
Proof.
  revert idx cs cd k.
  induction rest as [|it rest IH]; intros idx cs cd k; simpl.
  - destruct k; discriminate.
  - destruct (deriveFrom raw (S idx) (cs + subscribersGained it)
                (cd + downloads it) rest) as [eps totals] eqn:E.
    destruct k as [|k]; simpl.
    + intros [= <-]. exists it, cs, cd.
      rewrite Nat.add_0_r. split; reflexivity.
    + intros Hk.
      specialize (IH (S idx) (cs + subscribersGained it)
                      (cd + downloads it) k).
      rewrite E in IH. destruct (IH Hk) as (it' & cs' & cd' & H1 & H2).
      exists it', cs', cd'. split; [exact H1|].
      now rewrite Nat.add_succ_r.
Qed.

Lemma deriveFrom_length (raw rest : list Item) (idx : nat) (cs cd : num) :
  List.length (fst (deriveFrom raw idx cs cd rest)) = List.length rest.
Proof.
  revert idx cs cd.
  induction rest as [|it rest IH]; intros idx cs cd; simpl; [reflexivity|].
  specialize (IH (S idx) (cs + subscribersGained it) (cd + downloads it)).
  destruct (deriveFrom raw (S idx) (cs + subscribersGained it)
              (cd + downloads it) rest) as [eps totals].
  simpl in *. now rewrite IH.
Qed.

Lemma trailingWindow_length {A : Type} (series : list A) (i : nat) :
  (i < List.length series)%nat ->
  List.length (trailingWindow series i) = Nat.min (i + 1) 7.
Proof.
  intros H. unfold trailingWindow, windowIndices.
  rewrite recordsAt_length; lia.
Qed.

Lemma rolling_fields toFixed toLocaleString (raw : list Item) (i : nat) :
  (i < List.length raw)%nat ->
  exists e : Episode,
    nth_error (episodes (memoized toFixed toLocaleString raw)) i = Some e
    /\ downloadsRolling e = trailingMean raw i downloads
    /\ completionRolling e = trailingMean raw i completionRate.
Proof.
  intros Hi. rewrite memoized_episodes.
  destruct (nth_error (fst (deriveFrom raw 0 (Fin 0) (Fin 0) raw)) i)
    as [e|] eqn:E.
  - exists e. split; [reflexivity|].
    destruct (deriveFrom_nth _ _ _ _ _ _ E) as (it & cs & cd & _ & ->).
    unfold deriveEpisode; cbn [fst downloadsRolling completionRolling].
    now rewrite !averageInWindow_trailingMean.
  - apply nth_error_None in E. rewrite deriveFrom_length in E. lia.
Qed.

(** C5.  For every series and every index [i], the rolling mean is the
    mean over the records at the indices [max(0, i-6) .. i]: a window
    of 7 records that shrinks to [i + 1] records for the early indices
    instead of being padded.  Both rolling fields of every episode are
    computed so.  With downloads 10, 20, ..., 100 the rolling downloads
    average is 40 at index 6 and exactly 10 at index 0. *)
Theorem rolling_window toFixed toLocaleString :
  (forall (A : Type) (series : list A) (i : nat) (accessor : A -> num),
      averageInWindow series (Z.of_nat i) accessor 7
      = trailingMean series i accessor)
  /\ (forall (A : Type) (series : list A) (i : nat),
         (i < List.length series)%nat ->
         List.length (trailingWindow series i) = Nat.min (i + 1) 7)
  /\ (forall (raw : list Item) (i : nat),
         (i < List.length raw)%nat ->
         exists e : Episode,
           nth_error (episodes (memoized toFixed toLocaleString raw)) i
           = Some e
           /\ downloadsRolling e = trailingMean raw i downloads
           /\ completionRolling e = trailingMean raw i completionRate)
  /\ (let eps :=
        episodes (memoized toFixed toLocaleString (map parseRow tenRows)) in
      map downloads (map parseRow tenRows)
      = map Fin [10; 20; 30; 40; 50; 60; 70; 80; 90; 100]%R
      /\ option_map downloadsRolling (nth_error eps 6) = Some (Fin 40)
      /\ option_map downloadsRolling (nth_error eps 0) = Some (Fin 10)).
Proof.
  refine (conj _ (conj _ (conj _ (conj _ (conj _ _))))).
  - intros A. apply averageInWindow_trailingMean.
  - intros A. apply trailingWindow_length.
  - apply rolling_fields.
  - reflexivity.
  - num_eval.
  - num_eval.
Qed.

Lemma rolling_window_witness :
  let raw := map parseRow tenRows in
  List.length (trailingWindow raw 2) = 3%nat
  /\ exists e : Episode,
       nth_error (episodes (memoized plainFixed plainLocale raw)) 8 = Some e
       /\ downloadsRolling e = trailingMean raw 8 downloads
       /\ completionRolling e = trailingMean raw 8 completionRate.
Proof.
  cbv zeta.
  destruct (rolling_window plainFixed plainLocale) as (_ & Hlen & Hroll & _).
  split.
  - apply (Hlen Item (map parseRow tenRows) 2%nat).
    rewrite length_map. simpl. lia.
  - apply (Hroll (map parseRow tenRows) 8%nat).
    rewrite length_map. simpl. lia.
Defined.

(** *** Correlation (C6) *)

Section Correlation.

Context {A : Type}.

(** The indexed reduction of the numerator reads [ys] at the index of
    the current [x]; over two columns of one series this is a plain
    fold over the series. *)
Lemma covariance_from_fold (x y : A -> num) (meanX meanY : num)
    (pre rest : list A) (sum : num) :
  covariance_from (List.length pre) (map x rest) (map y (pre ++ rest))
                  meanX meanY sum
  = fold_left (fun s a => s + (x a - meanX) * (y a - meanY)) rest sum.
Proof.
  revert pre sum.
  induction rest as [|a rest IH]; intros pre sum; [reflexivity|].
  cbn [map covariance_from fold_left].
  replace (nth (List.length pre) (map y (pre ++ a :: rest)) NaN) with (y a).
  - specialize (IH (pre ++ [a]) (sum + (x a - meanX) * (y a - meanY))).
    rewrite <- app_assoc, length_app in IH. cbn [List.length app] in IH.
    rewrite Nat.add_1_r in IH. exact IH.
  - rewrite map_app, app_nth2; rewrite length_map; [|lia].
    now rewrite Nat.sub_diag.
Qed.

Lemma sum_by_map (f : A -> num) (l : list A) :
  sum_by (fun v => v) (map f l) = sum_by f l.
Proof.
  unfold sum_by. generalize (Fin 0).
  induction l as [|a l IH]; intros acc; [reflexivity|]. apply IH.
Qed.

Lemma variance_map (f : A -> num) (mean : num) (l : list A) :
  variance (map f l) mean
  = fold_left (fun s a => s + (f a - mean) * (f a - mean)) l (Fin 0).
Proof.
  unfold variance. generalize (Fin 0).
  induction l as [|a l IH]; intros acc; [reflexivity|]. apply IH.
Qed.




Local Open Scope R_scope.

(** On finite values the folds of the code are the real sums. *)
Lemma fold_products_Fin (fx fy : A -> R) (mx my : R) (l : list A) (s0 : R) :
  fold_left (fun s a => (s + (Fin (fx a) - Fin mx) * (Fin (fy a) - Fin my))%num)
            l (Fin s0)
  = Fin (s0 + rsum_by (fun a => (fx a - mx) * (fy a - my)) l).
Proof.
  revert s0. induction l as [|a l IH]; intros s0; cbn [fold_left rsum_by fold_right].
  - apply Fin_eq. lra.
  - cbn [sub add neg mul]. rewrite IH. apply Fin_eq.
    unfold rsum_by. lra.
Qed.

Lemma sum_by_Fin (f : A -> R) (l : list A) :
  sum_by (fun a => Fin (f a)) l = Fin (rsum_by f l).
Proof.
  unfold sum_by.
  assert (H : forall s0,
             fold_left (fun s a => (s + Fin (f a))%num) l (Fin s0)
             = Fin (s0 + rsum_by f l)).
  { induction l as [|a l IH]; intros s0; cbn [fold_left rsum_by fold_right].
    - apply Fin_eq. lra.
    - cbn [add]. rewrite IH. apply Fin_eq. unfold rsum_by. lra. }
  rewrite H. apply Fin_eq. lra.
Qed.

Lemma length_neq_0 (n : nat) : IZR (Z.of_nat (S n)) <> 0.
Proof. apply not_0_IZR. lia. Qed.

Lemma div_Fin (x y : R) : y <> 0 -> (Fin x / Fin y)%num = Fin (x / y).
Proof. intros H. cbv [div Reqb]. destruct (Req_dec_T y 0); [lra | reflexivity]. Qed.

Lemma rsum_by_nonneg (g : A -> R) (l : list A) :
  (forall a, 0 <= g a) -> 0 <= rsum_by g l.
Proof.
  intros H. induction l as [|a l IH]; cbn [rsum_by fold_right]; [lra|].
  specialize (H a). unfold rsum_by in IH. lra.
Qed.

Lemma rvar_nonneg (f : A -> R) (l : list A) : 0 <= rvar f l.
Proof.
  unfold rvar, rcov. apply rsum_by_nonneg. intros a.
  apply (Rle_0_sqr (f a - rmean f l)).
Qed.

(** On a non-empty series of finite numbers the code computes [rcorr]. *)
Lemma correlation_real (fx fy : A -> R) (series : list A) :
  series <> [] ->
  correlation series (fun a => Fin (fx a)) (fun a => Fin (fy a))
  = Fin (rcorr fx fy series).
Proof.
  intros Hne. unfold correlation. rewrite !length_map.
  destruct (List.length series) as [|n] eqn:E.
  { now apply length_zero_iff_nil in E. }
  assert (Hn : IZR (Z.of_nat (List.length series)) <> 0)
    by (rewrite E; apply length_neq_0).
  rewrite <- E.
  rewrite (covariance_from_fold _ _ _ _ [] series).
  rewrite !variance_map, !sum_by_map, !sum_by_Fin.
  unfold of_nat.
  rewrite !div_Fin by exact Hn.
  rewrite !fold_products_Fin.
  fold (rmean fx series) (rmean fy series).
  rewrite !Rplus_0_l.
  fold (rcov fx fy series) (rcov fx fx series) (rcov fy fy series).
  fold (rvar fx series) (rvar fy series).
  pose proof (rvar_nonneg fx series) as Hx.
  pose proof (rvar_nonneg fy series) as Hy.
  cbn [mul]. unfold Math_sqrt, Rltb.
  destruct (Rlt_dec (rvar fx series * rvar fy series) 0) as [Hneg|_]; [nra|].
  unfold rcorr. cbn [strict_eq]. unfold Reqb.
  destruct (Req_dec_T (sqrt (rvar fx series * rvar fy series)) 0) as [_|Hd].
  - reflexivity.
  - now apply div_Fin.
Qed.

(** The real side: Cauchy-Schwarz and what follows from it. *)

Lemma sq_nonneg (x : R) : 0 <= x * x.
Proof. apply (Rle_0_sqr x). Qed.

Lemma cauchy_schwarz_step (x y P U V : R) :
  0 <= U -> 0 <= V -> P * P <= U * V ->
  (x * y + P) * (x * y + P) <= (x * x + U) * (y * y + V).
Proof.
  intros HU HV HP.
  pose proof (sq_nonneg x) as Hx. pose proof (sq_nonneg y) as Hy.
  assert (HxV : 0 <= x * x * V) by (apply Rmult_le_pos; assumption).
  assert (HyU : 0 <= y * y * U) by (apply Rmult_le_pos; assumption).
  set (m := x * x * V + y * y * U).
  set (t := 2 * x * y * P).
  assert (H2 : t * t <= m * m).
  { pose proof (sq_nonneg (x * x * V - y * y * U)) as Hs.
    assert (Hd : 0 <= 4 * ((x * x) * (y * y)) * (U * V - P * P)).
    { apply Rmult_le_pos; [|lra].
      apply Rmult_le_pos; [lra|]. now apply Rmult_le_pos. }
    replace (m * m) with
      ((x * x * V - y * y * U) * (x * x * V - y * y * U)
       + 4 * ((x * x) * (y * y)) * (U * V - P * P) + t * t)
      by (unfold m, t; ring).
    lra. }
  assert (H3 : t <= m).
  { destruct (Rle_dec t m) as [|Hn]; [assumption|].
    exfalso. apply Rnot_le_lt in Hn.
    assert (0 <= m) by (unfold m; lra).
    assert (m * m < t * t) by (apply Rmult_le_0_lt_compat; lra).
    lra. }
  replace ((x * y + P) * (x * y + P))
    with (x * x * (y * y) + t + P * P) by (unfold t; ring).
  replace ((x * x + U) * (y * y + V))
    with (x * x * (y * y) + m + U * V) by (unfold m; ring).
  lra.
Qed.

Lemma cauchy_schwarz (u v : A -> R) (l : list A) :
  rsum_by (fun a => u a * v a) l * rsum_by (fun a => u a * v a) l
  <= rsum_by (fun a => u a * u a) l * rsum_by (fun a => v a * v a) l.
Proof.
  induction l as [|a l IH]; cbn [rsum_by fold_right]; [lra|].
  apply cauchy_schwarz_step; trivial;
    apply rsum_by_nonneg; intros; apply sq_nonneg.
Qed.

Lemma rcov_sq_le (fx fy : A -> R) (l : list A) :
  rcov fx fy l * rcov fx fy l <= rvar fx l * rvar fy l.
Proof.
  exact (cauchy_schwarz (fun a => fx a - rmean fx l)
                        (fun a => fy a - rmean fy l) l).
Qed.


Lemma rsum_by_ext_in (f g : A -> R) (l : list A) :
  (forall a, In a l -> f a = g a) -> rsum_by f l = rsum_by g l.
Proof.
  induction l as [|a l IH]; intros H; cbn [rsum_by fold_right]; [reflexivity|].
  rewrite (H a (or_introl eq_refl)).
  unfold rsum_by in IH. rewrite IH; [reflexivity|].
  intros b Hb. apply H. now right.
Qed.

Lemma rsum_by_scale (k : R) (g : A -> R) (l : list A) :
  rsum_by (fun a => k * g a) l = k * rsum_by g l.
Proof.
  induction l as [|a l IH]; cbn [rsum_by fold_right]; [ring|].
  unfold rsum_by in IH. rewrite IH. ring.
Qed.

Lemma rsum_by_affine (k b : R) (g : A -> R) (l : list A) :
  rsum_by (fun a => k * g a + b) l
  = k * rsum_by g l + IZR (Z.of_nat (List.length l)) * b.
Proof.
  induction l as [|a l IH]; cbn [rsum_by fold_right List.length].
  - change (IZR (Z.of_nat 0)) with 0. ring.
  - unfold rsum_by in IH. rewrite IH, Nat2Z.inj_succ, succ_IZR. ring.
Qed.

Lemma rmean_affine (k b : R) (fx fy : A -> R) (l : list A) :
  l <> [] ->
  (forall a, In a l -> fy a = k * fx a + b) ->
  rmean fy l = k * rmean fx l + b.
Proof.
  intros Hne H. unfold rmean.
  rewrite (@rsum_by_ext_in fy (fun a => k * fx a + b) l H), rsum_by_affine.
  destruct l as [|a l]; [congruence|].
  pose proof (length_neq_0 (List.length l)) as Hn.
  cbn [List.length]. field. exact Hn.
Qed.

(** Along a line [y = k x + b] the deviations of [y] are [k] times
    those of [x]. *)
Lemma rcov_affine (k b : R) (fx fy : A -> R) (l : list A) :
  (forall a, In a l -> fy a = k * fx a + b) ->
  rcov fx fy l = k * rvar fx l /\ rvar fy l = k * k * rvar fx l.
Proof.
  intros H. destruct l as [|a0 l0] eqn:E.
  { unfold rvar, rcov; cbn [rsum_by fold_right]. lra. }
  rewrite <- E in *.
  assert (Hm : rmean fy l = k * rmean fx l + b).
  { apply rmean_affine; [rewrite E; discriminate | exact H]. }
  unfold rvar, rcov. rewrite Hm. split.
  - rewrite <- rsum_by_scale. apply rsum_by_ext_in.
    intros a Ha. rewrite (H a Ha). ring.
  - rewrite <- rsum_by_scale. apply rsum_by_ext_in.
    intros a Ha. rewrite (H a Ha). ring.
Qed.

Lemma rvar_constant (c : R) (f : A -> R) (l : list A) :
  (forall a, In a l -> f a = c) -> rvar f l = 0.
Proof.
  intros H.
  destruct (@rcov_affine 0 c (fun _ => 0) f l) as [_ Hv].
  { intros a Ha. rewrite (H a Ha). ring. }
  rewrite Hv. ring.
Qed.

Lemma term_le_rsum_by (g : A -> R) (l : list A) (a : A) :
  (forall b, 0 <= g b) -> In a l -> g a <= rsum_by g l.
Proof.
  intros Hg. induction l as [|b l IH]; intros Ha; [destruct Ha|].
  cbn [rsum_by fold_right].
  pose proof (@rsum_by_nonneg g l Hg) as Hl. unfold rsum_by in *.
  destruct Ha as [-> | Ha]; [lra|].
  specialize (IH Ha). specialize (Hg b). lra.
Qed.

Lemma rvar_pos (f : A -> R) (l : list A) (i j : A) :
  In i l -> In j l -> f i <> f j -> 0 < rvar f l.
Proof.
  intros Hi Hj Hne. unfold rvar, rcov.
  set (m := rmean f l).
  set (g := fun a => (f a - m) * (f a - m)).
  assert (Hg : forall b, 0 <= g b) by (intros b; apply sq_nonneg).
  pose proof (@term_le_rsum_by g l i Hg Hi) as Ti.
  pose proof (@term_le_rsum_by g l j Hg Hj) as Tj.
  destruct (Req_dec_T (f i) m) as [Him | Him].
  - assert (0 < g j).
    { unfold g. assert (f j - m <> 0) by lra.
      destruct (Rtotal_order (f j - m) 0) as [Hlt | [Heq | Hgt]];
        [| lra |].
      - replace ((f j - m) * (f j - m)) with ((m - f j) * (m - f j)) by ring.
        apply Rmult_lt_0_compat; lra.
      - apply Rmult_lt_0_compat; lra. }
    lra.
  - assert (0 < g i).
    { unfold g.
      destruct (Rtotal_order (f i - m) 0) as [Hlt | [Heq | Hgt]];
        [| lra |].
      - replace ((f i - m) * (f i - m)) with ((m - f i) * (m - f i)) by ring.
        apply Rmult_lt_0_compat; lra.
      - apply Rmult_lt_0_compat; lra. }
    lra.
Qed.



End Correlation.



Local Open Scope R_scope.



End PodcastDataFacts.

(** ** Where binary64 departs from exact arithmetic

    The properties above and below that rest on real algebra
    (cancellation, associativity, the Cauchy-Schwarz inequality) hold in
    exact arithmetic.  Evaluated in binary64, as the program computes,
    they can fail by rounding; the lemmas of this module evaluate the
    program's functions at inputs where they do. *)

Module Binary64Facts.

Local Open Scope float_scope.
#[local] Set Warnings "-inexact-float".


(** [clampDomain] on the base [[1, 50]] in binary64.  The candidate
    [[1.0000000000000002, 50]] lies within the base and is far wider
    than the epsilon, yet its span rounds to 49 and the base comes back.
    Clamping [[-7.000000000000003, 41.99999999999999]] gives
    [[1.0000000000000009, 50]], and clamping that again gives [[1, 50]].
    The candidate [[1e17, 1e17 + 48]] of width 48 comes back as
    [[1, 48]], of width 47; and [[-31.23328422184768,
    -20.14739626095559]] is shifted to start at 1.0000000000000036. *)
Lemma clampDomain_binary64_rounding :
  let base := Some (1, 50) in
  Binary64.clampDomain (Some (1.0000000000000002, 50)) base = Some (1, 50)
  /\ Binary64.clampDomain (Some (-7.000000000000003, 41.99999999999999)) base
     = Some (0x1.0000000000004p+0, 50)
  /\ Binary64.clampDomain
       (Binary64.clampDomain
          (Some (-7.000000000000003, 41.99999999999999)) base) base
     = Some (1, 50)
  /\ (1e17 + 48) - 1e17 = 48
  /\ Binary64.clampDomain (Some (1e17, 1e17 + 48)) base = Some (1, 48)
  /\ Binary64.clampDomain (Some (-31.23328422184768, -20.14739626095559))
       base
     = Some (0x1.0000000000010p+0, 12.085887960892094).
Proof. vm_compute. repeat split. Qed.

(** The scenario of C1 is exact in binary64 too. *)
Lemma clampDomain_binary64_pan :
  Binary64.clampDomain (Some (-5, 44)) (Some (1, 50)) = Some (1, 50)
  /\ Binary64.clampDomain (Some (-5, 43)) (Some (1, 50)) = Some (1, 49).
Proof. vm_compute. split; reflexivity. Qed.

(** The rolling mean of seven values 0.7 is 0.7000000000000001 in
    binary64, above every one of them. *)
Lemma averageInWindow_binary64_above :
  (0.7 <? Binary64.averageInWindow [0.7; 0.7; 0.7; 0.7; 0.7; 0.7; 0.7] 6
            (fun v => v) 7) = true.
Proof. vm_compute. reflexivity. Qed.

(** Seven points that share the duration 00:45:20 as [x]: in binary64
    the denominator [n * sumXX - sumX * sumX] is not 0, the guard is not
    taken and both functions return the slope 0.125. *)
Lemma regression_binary64_constant_x :
  let x := Binary64.durationMinutes 0 45 20 in
  let points := map (fun y => (x, y)) [1; 2; 3; 4; 5; 6; 7] in
  fst (Binary64.regressionLine points) = 0.125
  /\ fst (Binary64.calculateRegression points) = 0.125.
Proof. vm_compute. split; reflexivity. Qed.

(** On [x = [4, 19, 11]], [y = [5, 6, 28]] the slope is exactly 0 in
    binary64 while the correlation coefficient is about -9.1e-18: the
    line does not fall, the coefficient is negative. *)
Lemma slope_binary64_sign :
  let points := [(4, 5); (19, 6); (11, 28)] in
  fst (Binary64.calculateRegression points) = 0
  /\ (Binary64.correlation points fst snd <? 0) = true.
Proof. vm_compute. split; reflexivity. Qed.

End Binary64Facts.

(** ** The visible domain stays inside the base *)

Ltac minmax_cases :=
  unfold Rmin, Rmax in *;
  repeat match goal with
         | |- context [Rle_dec ?a ?b] => destruct (Rle_dec a b)
         | H : context [Rle_dec ?a ?b] |- _ => destruct (Rle_dec a b)
         end.

Module ZoomPanBounds.

Import ZoomPan ZoomPanFacts.
Local Open Scope R_scope.

Lemma clampDomain_finite_within (c0 c1 b0 b1 : R) :
  exists r0 r1 : R,
    clampDomain (Some (Fin c0, Fin c1)) (Some (Fin b0, Fin b1))
    = Some (Fin r0, Fin r1)
    /\ Rmin b0 b1 <= r0 <= Rmax b0 b1
    /\ Rmin b0 b1 <= r1 <= Rmax b0 b1
    /\ (b0 <= b1 -> r0 <= r1)
    /\ (b1 < b0 -> r1 <= r0).
Proof.
  num_unfold. real_split;
    (eexists; eexists; split; [reflexivity|]; minmax_cases; lra).
Qed.

(** X2.  In exact arithmetic, a candidate narrower than the base and at
    least epsilon wide is translated, never resized: the result has the
    width of the candidate; it starts at the base minimum when the
    candidate started below it, ends at the base maximum when the
    candidate ended above it, and has the candidate's own bounds when
    the candidate was inside.  (In binary64 the shift rounds: see
    [Binary64Facts.clampDomain_binary64_rounding].) *)
Theorem clampDomain_translates (c0 c1 b0 b1 : R) :
  let cmin := Rmin c0 c1 in
  let cmax := Rmax c0 c1 in
  let bmin := Rmin b0 b1 in
  let bmax := Rmax b0 b1 in
  1 / 1000000 <= cmax - cmin < bmax - bmin ->
  exists r0 r1 : R,
    clampDomain (Some (Fin c0, Fin c1)) (Some (Fin b0, Fin b1))
    = Some (Fin r0, Fin r1)
    /\ Rmax r0 r1 - Rmin r0 r1 = cmax - cmin
    /\ (cmin < bmin -> Rmin r0 r1 = bmin)
    /\ (bmax < cmax -> Rmax r0 r1 = bmax)
    /\ (bmin <= cmin -> cmax <= bmax -> Rmin r0 r1 = cmin /\ Rmax r0 r1 = cmax).
Proof.
  cbv zeta. intros Hw.
  num_unfold. minmax_cases; real_split;
    (eexists; eexists; split; [reflexivity|]; minmax_cases; lra).
Qed.

Lemma clampDomain_translates_witness :
  exists r0 r1 : R,
    clampDomain (Some (Fin 46, Fin 53)) (Some (Fin 50, Fin 1))
    = Some (Fin r0, Fin r1)
    /\ Rmax r0 r1 - Rmin r0 r1 = Rmax 46 53 - Rmin 46 53
    /\ (Rmin 46 53 < Rmin 50 1 -> Rmin r0 r1 = Rmin 50 1)
    /\ (Rmax 50 1 < Rmax 46 53 -> Rmax r0 r1 = Rmax 50 1)
    /\ (Rmin 50 1 <= Rmin 46 53 -> Rmax 46 53 <= Rmax 50 1 ->
        Rmin r0 r1 = Rmin 46 53 /\ Rmax r0 r1 = Rmax 46 53).
Proof.
  apply (clampDomain_translates 46 53 50 1).
  unfold Rmin, Rmax.
  destruct (Rle_dec 46 53); destruct (Rle_dec 50 1); lra.
Defined.

Lemma abs_sub_sym (a b : num) : Math_abs (a - b) = Math_abs (b - a).
Proof.
  destruct a, b; try reflexivity.
  cbn [sub add neg Math_abs]. f_equal.
  replace (r + - r0) with (- (r0 + - r)) by ring. apply Rabs_Ropp.
Qed.

(** X3.  [domainsEqual], as the hook calls it on two different arrays
    (or missing domains), is symmetric; it holds between two domains
    with the same finite bounds; it fails as soon as one of the two has
    a NaN bound, even against a copy with the very same bounds; and on
    finite bounds it holds exactly when both pairs of bounds differ by
    less than 1e-6. *)
Theorem domainsEqual_properties :
  (forall a b : option domain, domainsEqual a b = domainsEqual b a)
  /\ (forall d : domain, finiteDomain d = true ->
        domainsEqual (Some d) (Some d) = true)
  /\ (forall a b : domain,
         (is_nan (fst a) || is_nan (snd a))%bool = true ->
         domainsEqual (Some a) (Some b) = false
         /\ domainsEqual (Some b) (Some a) = false)
  /\ (forall a0 a1 b0 b1 : R,
         domainsEqual (Some (Fin a0, Fin a1)) (Some (Fin b0, Fin b1)) = true
         <-> Rabs (a0 - b0) < 1 / 1000000 /\ Rabs (a1 - b1) < 1 / 1000000).
Proof.
  assert (Hsym : forall a b : option domain,
             domainsEqual a b = domainsEqual b a).
  { intros [[a0 a1]|] [[b0 b1]|]; try reflexivity.
    unfold domainsEqual. now rewrite (abs_sub_sym a0 b0), (abs_sub_sym a1 b1). }
  assert (Hnan : forall a b : domain,
             (is_nan (fst a) || is_nan (snd a))%bool = true ->
             domainsEqual (Some a) (Some b) = false).
  { intros [a0 a1] [b0 b1]; simpl. intros H.
    destruct a0, a1; try discriminate H; try reflexivity;
      unfold domainsEqual; cbn [sub add neg Math_abs ltb];
      try reflexivity; apply andb_false_r. }
  refine (conj Hsym (conj _ (conj _ _))).
  - intros [[] []] H; try discriminate H. apply domainsEqual_refl_finite.
  - intros a b H. split; [now apply Hnan | rewrite Hsym; now apply Hnan].
  - intros a0 a1 b0 b1. unfold domainsEqual, DOMAIN_EPSILON.
    cbn [sub add neg Math_abs ltb]. unfold Rltb, Rminus.
    destruct (Rlt_dec (Rabs (a0 + - b0)) (1 / 1000000));
      destruct (Rlt_dec (Rabs (a1 + - b1)) (1 / 1000000)); simpl;
      split; intros H; try discriminate; try reflexivity; try tauto.
Qed.

Lemma domainsEqual_properties_witness :
  domainsEqual (Some (Fin 1, Fin 50)) (Some (Fin 1, Fin 50)) = true
  /\ domainsEqual (Some (NaN, Fin 5)) (Some (NaN, Fin 5)) = false.
Proof.
  destruct domainsEqual_properties as (_ & Hrefl & Hnan & _).
  split.
  - apply (Hrefl (Fin 1, Fin 50)). reflexivity.
  - apply (Hnan (NaN, Fin 5) (NaN, Fin 5)). reflexivity.
Defined.

Lemma clampDomain_withinBase (c0 c1 b0 b1 : R) :
  withinBase (Fin b0, Fin b1)
    (clampDomain (Some (Fin c0, Fin c1)) (Some (Fin b0, Fin b1))).
Proof.
  destruct (clampDomain_finite_within c0 c1 b0 b1)
    as (r0 & r1 & E & H0 & H1 & Ha & Hd).
  exists b0, b1, r0, r1. repeat split; trivial; lra.
Qed.

(** X1.  Whatever finite candidate is clamped against a finite base,
    [clampDomain] returns a domain with finite bounds that both lie
    between the smaller and the larger bound of the base, and that runs
    in the direction of the base (ascending for an ascending base,
    descending for a descending one). *)
Theorem clampDomain_stays_within (candidate base : domain) :
  finiteDomain candidate = true -> finiteDomain base = true ->
  withinBase base (clampDomain (Some candidate) (Some base)).
Proof.
  intros Hc Hb.
  destruct candidate as [[] []]; try discriminate Hc.
  destruct base as [[] []]; try discriminate Hb.
  apply clampDomain_withinBase.
Qed.

Lemma clampDomain_stays_within_witness :
  withinBase (Fin 50, Fin 1)
    (clampDomain (Some (Fin 46, Fin 53)) (Some (Fin 50, Fin 1))).
Proof.
  apply (@clampDomain_stays_within (Fin 46, Fin 53) (Fin 50, Fin 1));
    reflexivity.
Defined.

Lemma base_withinBase (b0 b1 : R) :
  withinBase (Fin b0, Fin b1) (Some (Fin b0, Fin b1)).
Proof.
  exists b0, b1, b0, b1.
  repeat split; trivial; minmax_cases; lra.
Qed.

Lemma onZoom_within_x (cfg : Config) (base rx ry : domain) (st : Domains) :
  initialXDomain cfg = Some base ->
  finiteDomain rx = true ->
  withinBase base (xDomain st) ->
  withinBase base (xDomain (onZoom cfg rx ry st)).
Proof.
  intros Hx Hf Hst. unfold onZoom. rewrite Hx.
  destruct rx as [[] []]; try discriminate Hf.
  assert (Hc : withinBase base
                 (clampDomain (Some (Fin r, Fin r0)) (Some base))).
  { destruct Hst as (b0 & b1 & _ & _ & -> & _). apply clampDomain_withinBase. }
  destruct (negb (domainsEqual (xDomain st) _));
    destruct (initialYDomain cfg);
    try match goal with |- context [if ?t then _ else _] => destruct t end;
    simpl; assumption.
Qed.

Lemma onZoom_within_y (cfg : Config) (base rx ry : domain) (st : Domains) :
  initialYDomain cfg = Some base ->
  finiteDomain ry = true ->
  withinBase base (yDomain st) ->
  withinBase base (yDomain (onZoom cfg rx ry st)).
Proof.
  intros Hy Hf Hst. unfold onZoom. rewrite Hy.
  destruct ry as [[] []]; try discriminate Hf.
  assert (Hc : withinBase base
                 (clampDomain (Some (Fin r, Fin r0)) (Some base))).
  { destruct Hst as (b0 & b1 & _ & _ & -> & _). apply clampDomain_withinBase. }
  destruct (negb (domainsEqual (yDomain _) _));
    destruct (initialXDomain cfg);
    try match goal with |- context [if ?t then _ else _] => destruct t end;
    simpl; assumption.
Qed.

Lemma fold_onZoom_invariant (cfg : Config) (P : Domains -> Prop)
    (ok : domain * domain -> Prop) (gestures : list (domain * domain))
    (st : Domains) :
  (forall g s, ok g -> P s -> P (onZoom cfg (fst g) (snd g) s)) ->
  Forall ok gestures -> P st ->
  P (fold_left (fun s g => onZoom cfg (fst g) (snd g) s) gestures st).
Proof.
  intros Hstep Hall. revert st.
  induction Hall as [|g gs Hg _ IH]; intros st Hst; simpl; auto.
Qed.

(** X4.  When the base domain of an axis has finite bounds, then after
    any sequence of zoom events whose rescaled domains have finite
    bounds the domain the hook reports for that axis has finite bounds
    between the two bounds of the base and runs in the base's
    direction. *)
Theorem visible_domain_within_base (cfg : Config) (base : domain)
    (gestures : list (domain * domain)) :
  finiteDomain base = true ->
  (initialXDomain cfg = Some base ->
   Forall (fun g => finiteDomain (fst g) = true) gestures ->
   withinBase base (reportedX cfg (afterGestures cfg gestures)))
  /\ (initialYDomain cfg = Some base ->
      Forall (fun g => finiteDomain (snd g) = true) gestures ->
      withinBase base (reportedY cfg (afterGestures cfg gestures))).
Proof.
  intros Hb. destruct base as [[] []]; try discriminate Hb.
  split; intros Hi Hall.
  - assert (H : withinBase (Fin r, Fin r0)
                  (xDomain (afterGestures cfg gestures))).
    { unfold afterGestures.
      apply (@fold_onZoom_invariant cfg
               (fun s => withinBase (Fin r, Fin r0) (xDomain s))
               (fun g => finiteDomain (fst g) = true)); trivial.
      - intros g s Hg Hs. now apply onZoom_within_x.
      - unfold initialDomains; simpl. rewrite Hi. apply base_withinBase. }
    unfold reportedX.
    destruct H as (b0 & b1 & r0' & r1' & Eb & E & H). rewrite E. simpl.
    now exists b0, b1, r0', r1'.
  - assert (H : withinBase (Fin r, Fin r0)
                  (yDomain (afterGestures cfg gestures))).
    { unfold afterGestures.
      apply (@fold_onZoom_invariant cfg
               (fun s => withinBase (Fin r, Fin r0) (yDomain s))
               (fun g => finiteDomain (snd g) = true)); trivial.
      - intros g s Hg Hs. now apply onZoom_within_y.
      - unfold initialDomains; simpl. rewrite Hi. apply base_withinBase. }
    unfold reportedY.
    destruct H as (b0 & b1 & r0' & r1' & Eb & E & H). rewrite E. simpl.
    now exists b0, b1, r0', r1'.
Qed.

Lemma visible_domain_within_base_witness :
  let cfg := {| initialXDomain := Some (Fin 1, Fin 50);
                initialYDomain := Some (Fin 100, Fin 0) |} in
  let gestures := [((Fin (-5), Fin 20), (Fin 120, Fin 60));
                   ((Fin 30, Fin 70), (Fin 40, Fin (-10)))] in
  withinBase (Fin 1, Fin 50) (reportedX cfg (afterGestures cfg gestures))
  /\ withinBase (Fin 100, Fin 0)
       (reportedY cfg (afterGestures cfg gestures)).
Proof.
  cbv zeta. split.
  - refine (proj1 (visible_domain_within_base
                     {| initialXDomain := Some (Fin 1, Fin 50);
                        initialYDomain := Some (Fin 100, Fin 0) |}
                     (Fin 1, Fin 50) _ eq_refl) eq_refl _).
    repeat constructor.
  - refine (proj2 (visible_domain_within_base
                     {| initialXDomain := Some (Fin 1, Fin 50);
                        initialYDomain := Some (Fin 100, Fin 0) |}
                     (Fin 100, Fin 0) _ eq_refl) eq_refl _).
    repeat constructor.
Defined.

Lemma onZoom_xDomain (cfg : Config) (rx ry : domain) (prev : Domains) :
  xDomain (onZoom cfg rx ry prev)
  = match initialXDomain cfg with
    | Some _ =>
        if negb (domainsEqual (xDomain prev)
                   (clampDomain (Some rx) (initialXDomain cfg)))
        then clampDomain (Some rx) (initialXDomain cfg)
        else xDomain prev
    | None => xDomain prev
    end.
Proof.
  unfold onZoom.
  destruct (initialXDomain cfg); destruct (initialYDomain cfg);
    repeat match goal with
           | |- context [if ?t then _ else _] => destruct t
           end; reflexivity.
Qed.

Lemma onZoom_yDomain (cfg : Config) (rx ry : domain) (prev : Domains) :
  yDomain (onZoom cfg rx ry prev)
  = match initialYDomain cfg with
    | Some _ =>
        if negb (domainsEqual (yDomain prev)
                   (clampDomain (Some ry) (initialYDomain cfg)))
        then clampDomain (Some ry) (initialYDomain cfg)
        else yDomain prev
    | None => yDomain prev
    end.
Proof.
  unfold onZoom.
  destruct (initialXDomain cfg); destruct (initialYDomain cfg);
    repeat match goal with
           | |- context [if ?t then _ else _] => destruct t
           end; reflexivity.
Qed.

Lemma resetZoom_snoc (cfg : Config) (ticks : list (domain * domain))
    (rx ry : domain) (st : Domains) :
  resetZoom cfg (ticks ++ [(rx, ry)]) st
  = onZoom cfg rx ry (resetZoom cfg ticks st).
Proof. unfold resetZoom. now rewrite fold_left_app. Qed.

(** An axis without a base domain never gets a domain. *)
Lemma resetZoom_no_base (cfg : Config) (ticks : list (domain * domain))
    (st : Domains) :
  (initialXDomain cfg = None -> xDomain (resetZoom cfg ticks st) = None)
  /\ (initialYDomain cfg = None -> yDomain (resetZoom cfg ticks st) = None).
Proof.
  unfold resetZoom.
  assert (G : forall events s,
             (initialXDomain cfg = None -> xDomain s = None) ->
             (initialYDomain cfg = None -> yDomain s = None) ->
             (initialXDomain cfg = None ->
              xDomain (fold_left (fun st g => onZoom cfg (fst g) (snd g) st)
                                 events s) = None)
             /\ (initialYDomain cfg = None ->
                 yDomain (fold_left (fun st g => onZoom cfg (fst g) (snd g) st)
                                    events s) = None)).
  { induction events as [|g events IH]; intros s Hx Hy; [now split|].
    cbn [fold_left]. apply IH.
    - intros E. rewrite onZoom_xDomain, E. now apply Hx.
    - intros E. rewrite onZoom_yDomain, E. now apply Hy. }
  apply G; unfold initialDomains; cbn [xDomain yDomain]; trivial.
Qed.

(** The event of the identity transform on an axis with a finite base:
    the state keeps a domain that [domainsEqual] already took for the
    base, and gets the base otherwise. *)
Lemma identity_event (base : domain) (prev : option domain) :
  finiteDomain base = true ->
  let next := if negb (domainsEqual prev
                         (clampDomain (Some base) (Some base)))
              then clampDomain (Some base) (Some base)
              else prev in
  domainsEqual (nullish next (Some base)) (Some base) = true
  /\ (domainsEqual prev (Some base) = false ->
      nullish next (Some base) = Some base).
Proof.
  intros Hb. destruct base as [[] []]; try discriminate Hb.
  cbv zeta. rewrite clampDomain_base.
  destruct (domainsEqual prev (Some (Fin r, Fin r0))) eqn:E; cbn [negb].
  - split; [|intros H; discriminate (eq_trans (eq_sym E) H)].
    destruct prev as [d|]; [exact E | discriminate E].
  - split; [apply domainsEqual_refl_finite | reflexivity].
Qed.

(** X5.  [resetZoom], with the zoom events of its transition taken into
    account.  Without a transition (no overlay) the hook reports the
    base domains again at once.  With a transition, whatever its ticks
    carry (the first ones carry the transform from before the reset and
    zoom the state in again), once the last event, that of the identity
    transform whose rescaled domains are the finite bases themselves,
    has been handled, the hook reports on each axis a domain that
    [domainsEqual] takes for the base: the base itself when the state
    before that event was not already that close to it. *)
Theorem reset_restores_base (cfg : Config) (st : Domains)
    (ticks : list (domain * domain)) (rx ry : domain) :
  identityRescaled (initialXDomain cfg) rx ->
  identityRescaled (initialYDomain cfg) ry ->
  (reportedX cfg (resetZoom cfg [] st) = initialXDomain cfg
   /\ reportedY cfg (resetZoom cfg [] st) = initialYDomain cfg)
  /\ (let final := resetZoom cfg (ticks ++ [(rx, ry)]) st in
      domainsEqual (reportedX cfg final) (initialXDomain cfg) = true
      /\ domainsEqual (reportedY cfg final) (initialYDomain cfg) = true)
  /\ (let before := resetZoom cfg ticks st in
      let final := resetZoom cfg (ticks ++ [(rx, ry)]) st in
      (domainsEqual (xDomain before) (initialXDomain cfg) = false ->
       reportedX cfg final = initialXDomain cfg)
      /\ (domainsEqual (yDomain before) (initialYDomain cfg) = false ->
          reportedY cfg final = initialYDomain cfg)).
Proof.
  intros Hx Hy.
  destruct (resetZoom_no_base cfg ticks st) as [Nx Ny].
  assert (X : domainsEqual
                (reportedX cfg (resetZoom cfg (ticks ++ [(rx, ry)]) st))
                (initialXDomain cfg) = true
              /\ (domainsEqual (xDomain (resetZoom cfg ticks st))
                              (initialXDomain cfg) = false ->
                  reportedX cfg (resetZoom cfg (ticks ++ [(rx, ry)]) st)
                  = initialXDomain cfg)).
  { rewrite resetZoom_snoc. unfold reportedX. rewrite onZoom_xDomain.
    destruct (initialXDomain cfg) as [b|] eqn:E.
    - destruct (Hx b eq_refl) as [Fb ->].
      exact (identity_event b (xDomain (resetZoom cfg ticks st)) Fb).
    - rewrite (Nx eq_refl). split; reflexivity. }
  assert (Y : domainsEqual
                (reportedY cfg (resetZoom cfg (ticks ++ [(rx, ry)]) st))
                (initialYDomain cfg) = true
              /\ (domainsEqual (yDomain (resetZoom cfg ticks st))
                              (initialYDomain cfg) = false ->
                  reportedY cfg (resetZoom cfg (ticks ++ [(rx, ry)]) st)
                  = initialYDomain cfg)).
  { rewrite resetZoom_snoc. unfold reportedY. rewrite onZoom_yDomain.
    destruct (initialYDomain cfg) as [b|] eqn:E.
    - destruct (Hy b eq_refl) as [Fb ->].
      exact (identity_event b (yDomain (resetZoom cfg ticks st)) Fb).
    - rewrite (Ny eq_refl). split; reflexivity. }
  refine (conj (conj _ _) (conj (conj (proj1 X) (proj1 Y))
                                (conj (proj2 X) (proj2 Y)))).
  - unfold resetZoom, reportedX, initialDomains; cbn [fold_left xDomain].
    now destruct (initialXDomain cfg).
  - unfold resetZoom, reportedY, initialDomains; cbn [fold_left yDomain].
    now destruct (initialYDomain cfg).
Qed.

Lemma reset_restores_base_witness :
  let cfg := {| initialXDomain := Some (Fin 1, Fin 50);
                initialYDomain := None |} in
  let final := resetZoom cfg ([((Fin 10, Fin 20), (Fin 0, Fin 0))]
                              ++ [((Fin 1, Fin 50), (Fin 0, Fin 0))])
                         (initialDomains cfg) in
  xDomain (resetZoom cfg [((Fin 10, Fin 20), (Fin 0, Fin 0))]
                     (initialDomains cfg))
  = Some (Fin 10, Fin 20)
  /\ domainsEqual (reportedX cfg final) (Some (Fin 1, Fin 50)) = true.
Proof.
  cbv zeta. split.
  - unfold resetZoom. cbn [fold_left fst snd]. rewrite onZoom_xDomain.
    cbn [initialXDomain initialDomains xDomain].
    rewrite clampDomain_inside by num_crush.
    num_crush; exfalso;
      match goal with
      | H : Rabs _ < _ |- _ =>
          revert H; unfold Rabs; destruct (Rcase_abs _); lra
      end.
  - refine (proj1 (proj1 (proj2 (@reset_restores_base
                     {| initialXDomain := Some (Fin 1, Fin 50);
                        initialYDomain := None |}
                     (initialDomains
                        {| initialXDomain := Some (Fin 1, Fin 50);
                           initialYDomain := None |})
                     [((Fin 10, Fin 20), (Fin 0, Fin 0))]
                     (Fin 1, Fin 50) (Fin 0, Fin 0) _ _)))).
    + intros b [= <-]. split; reflexivity.
    + intros b [=].
Defined.

End ZoomPanBounds.

(** ** The derived series and its summary *)

Module SeriesFacts.

Import PodcastData PodcastDataFacts.
Local Open Scope num_scope.

Lemma deriveFrom_items (raw rest : list Item) (idx : nat) (cs cd : num) :
  map item (fst (deriveFrom raw idx cs cd rest)) = rest.
Proof.
  revert idx cs cd.
  induction rest as [|it rest IH]; intros idx cs cd; simpl; [reflexivity|].
  specialize (IH (S idx) (cs + subscribersGained it) (cd + downloads it)).
  destruct (deriveFrom raw (S idx) (cs + subscribersGained it)
              (cd + downloads it) rest) as [eps totals].
  simpl in *. now rewrite IH.
Qed.

Lemma deriveFrom_totals (raw rest : list Item) (idx : nat) (cs cd : num) :
  snd (deriveFrom raw idx cs cd rest)
  = (fold_left (fun s it => s + subscribersGained it) rest cs,
     fold_left (fun s it => s + downloads it) rest cd).
Proof.
  revert idx cs cd.
  induction rest as [|it rest IH]; intros idx cs cd; simpl; [reflexivity|].
  specialize (IH (S idx) (cs + subscribersGained it) (cd + downloads it)).
  destruct (deriveFrom raw (S idx) (cs + subscribersGained it)
              (cd + downloads it) rest) as [eps totals].
  simpl in *. exact IH.
Qed.

Lemma deriveFrom_running (raw rest : list Item) (idx : nat) (cs cd : num)
    (k : nat) (e : Episode) :
  nth_error (fst (deriveFrom raw idx cs cd rest)) k = Some e ->
  cumulativeSubscribers e
  = fold_left (fun s it => s + subscribersGained it) (firstn (S k) rest) cs
  /\ cumulativeDownloads e
     = fold_left (fun s it => s + downloads it) (firstn (S k) rest) cd.
Proof.
  revert idx cs cd k.
  induction rest as [|it rest IH]; intros idx cs cd k; simpl.
  - destruct k; discriminate.
  - destruct (deriveFrom raw (S idx) (cs + subscribersGained it)
                (cd + downloads it) rest) as [eps totals] eqn:E.
    destruct k as [|k]; simpl.
    + intros [= <-]. simpl. split; reflexivity.
    + intros Hk.
      specialize (IH (S idx) (cs + subscribersGained it)
                      (cd + downloads it) k).
      rewrite E in IH. exact (IH Hk).
Qed.

Lemma nth_error_episodes toFixed toLocaleString (raw : list Item) (i : nat) :
  (i < List.length raw)%nat ->
  exists e : Episode,
    nth_error (episodes (memoized toFixed toLocaleString raw)) i = Some e.
Proof.
  intros Hi. rewrite memoized_episodes.
  destruct (nth_error (fst (deriveFrom raw 0 (Fin 0) (Fin 0) raw)) i)
    as [e|] eqn:E; [now exists e|].
  apply nth_error_None in E. rewrite deriveFrom_length in E. lia.
Qed.

(** X6.  The derived series has exactly one episode per loaded row, in
    the same order, and each episode carries the fields of its row
    unchanged. *)
Theorem episodes_follow_rows toFixed toLocaleString (raw : list Item) :
  List.length (episodes (memoized toFixed toLocaleString raw))
  = List.length raw
  /\ map item (episodes (memoized toFixed toLocaleString raw)) = raw.
Proof.
  rewrite memoized_episodes. split.
  - apply deriveFrom_length.
  - apply deriveFrom_items.
Qed.

Lemma memoized_summary toFixed toLocaleString (it : Item) (rest : list Item) :
  summary (memoized toFixed toLocaleString (it :: rest))
  = Some (computeSummary
            (episodes (memoized toFixed toLocaleString (it :: rest)))
            (sum_by subscribersGained (it :: rest))).
Proof.
  unfold memoized.
  pose proof (deriveFrom_totals (it :: rest) (it :: rest) 0 (Fin 0) (Fin 0))
    as T.
  destruct (deriveFrom (it :: rest) 0 (Fin 0) (Fin 0) (it :: rest))
    as [eps [cs cd]].
  cbn [snd] in T. injection T as -> _. reflexivity.
Qed.

(** X7.  The episode at index [i] carries as [cumulativeDownloads] and
    [cumulativeSubscribers] the sums of downloads and of subscribers
    gained over the rows [0..i]; the summary's [totalSubscribers] is the
    sum of subscribers gained over all rows and its [totalEpisodes] is
    the number of rows. *)
Theorem running_totals toFixed toLocaleString (raw : list Item) :
  (forall i : nat,
      (i < List.length raw)%nat ->
      exists e : Episode,
        nth_error (episodes (memoized toFixed toLocaleString raw)) i = Some e
        /\ cumulativeDownloads e = sum_by downloads (firstn (S i) raw)
        /\ cumulativeSubscribers e
           = sum_by subscribersGained (firstn (S i) raw))
  /\ (forall s : Summary,
         summary (memoized toFixed toLocaleString raw) = Some s ->
         totalSubscribers s = sum_by subscribersGained raw
         /\ totalEpisodes s = List.length raw).
Proof.
  split.
  - intros i Hi.
    destruct (nth_error_episodes toFixed toLocaleString raw Hi) as [e E].
    exists e. split; [exact E|].
    rewrite memoized_episodes in E.
    destruct (deriveFrom_running _ _ _ _ _ _ E) as [Hs Hd].
    now split.
  - intros s Hs. destruct raw as [|it rest]; [discriminate Hs|].
    rewrite memoized_summary in Hs.
    assert (E : s = computeSummary
                      (episodes (memoized toFixed toLocaleString (it :: rest)))
                      (sum_by subscribersGained (it :: rest)))
      by congruence.
    rewrite E. split; [reflexivity|].
    cbn [computeSummary totalEpisodes].
    rewrite memoized_episodes. apply deriveFrom_length.
Qed.

Lemma running_totals_witness :
  exists e : Episode,
    nth_error (episodes (memoized plainFixed plainLocale threeItems)) 1
    = Some e
    /\ cumulativeDownloads e = sum_by downloads (firstn 2 threeItems)
    /\ cumulativeSubscribers e
       = sum_by subscribersGained (firstn 2 threeItems).
Proof.
  apply (proj1 (running_totals plainFixed plainLocale threeItems) 1%nat).
  simpl. lia.
Defined.

Local Open Scope R_scope.

Lemma sum_by_ext_in {A : Type} (f g : A -> num) (l : list A) :
  (forall a, In a l -> f a = g a) -> sum_by f l = sum_by g l.
Proof.
  unfold sum_by. generalize (Fin 0).
  induction l as [|a l IH]; intros acc H; [reflexivity|].
  cbn [fold_left]. rewrite (H a (or_introl eq_refl)).
  apply IH. intros b Hb. apply H. now right.
Qed.

(** A sum of finite numbers is the real sum. *)
Lemma sum_by_finite {A : Type} (f : A -> num) (l : list A) :
  (forall a, In a l -> is_finite (f a) = true) ->
  sum_by f l = Fin (rsum_by (fun a => to_R (f a)) l).
Proof.
  intros H. rewrite <- sum_by_Fin. apply sum_by_ext_in.
  intros a Ha. specialize (H a Ha). now destruct (f a).
Qed.

Lemma rsum_by_app {A : Type} (f : A -> R) (l1 l2 : list A) :
  rsum_by f (l1 ++ l2) = rsum_by f l1 + rsum_by f l2.
Proof.
  unfold rsum_by.
  induction l1 as [|a l1 IH]; cbn [app fold_right]; [lra|].
  rewrite IH. lra.
Qed.

Lemma rsum_by_nonneg_in {A : Type} (g : A -> R) (l : list A) :
  (forall a, In a l -> 0 <= g a) -> 0 <= rsum_by g l.
Proof.
  unfold rsum_by.
  induction l as [|a l IH]; intros H; cbn [fold_right]; [lra|].
  pose proof (H a (or_introl eq_refl)).
  assert (0 <= fold_right (fun a s => g a + s) 0 l).
  { apply IH. intros b Hb. apply H. now right. }
  lra.
Qed.

Lemma nonNegative_finite (a : num) : nonNegative a -> is_finite a = true.
Proof. intros (r & -> & _). reflexivity. Qed.

Lemma nonNegative_to_R (a : num) : nonNegative a -> 0 <= to_R a.
Proof. intros (r & -> & H). exact H. Qed.

Lemma in_firstn {A : Type} (l : list A) (n : nat) (a : A) :
  In a (firstn n l) -> In a l.
Proof.
  intros H. rewrite <- (firstn_skipn n l). apply in_or_app. now left.
Qed.

Lemma firstn_plus {A : Type} (l : list A) (i k : nat) :
  firstn (i + k) l = firstn i l ++ firstn k (skipn i l).
Proof.
  revert l. induction i as [|i IH]; intros l; [reflexivity|].
  destruct l as [|a l]; simpl; [now rewrite firstn_nil|].
  now rewrite IH.
Qed.

Lemma firstn_le_split {A : Type} (l : list A) (i j : nat) :
  (i <= j)%nat -> exists tail, firstn j l = firstn i l ++ tail
                               /\ incl tail l.
Proof.
  intros H. exists (firstn (j - i) (skipn i l)). split.
  - replace j with (i + (j - i))%nat at 1 by lia. apply firstn_plus.
  - intros a Ha. apply in_firstn in Ha.
    rewrite <- (firstn_skipn i l). apply in_or_app. now right.
Qed.

(** X8.  When no row has negative (or non-finite) downloads, the
    cumulative downloads are finite, non-negative and never decrease
    along the series. *)
Theorem cumulative_downloads_monotone toFixed toLocaleString
    (raw : list Item) (i j : nat) :
  Forall (fun it => nonNegative (downloads it)) raw ->
  (i <= j)%nat -> (j < List.length raw)%nat ->
  exists (ei ej : Episode) (a b : R),
    nth_error (episodes (memoized toFixed toLocaleString raw)) i = Some ei
    /\ nth_error (episodes (memoized toFixed toLocaleString raw)) j = Some ej
    /\ cumulativeDownloads ei = Fin a
    /\ cumulativeDownloads ej = Fin b
    /\ 0 <= a <= b.
Proof.
  intros Hall Hij Hj. rewrite Forall_forall in Hall.
  assert (Hi : (i < List.length raw)%nat) by lia.
  destruct (nth_error_episodes toFixed toLocaleString raw Hi) as [ei Ei].
  destruct (nth_error_episodes toFixed toLocaleString raw Hj) as [ej Ej].
  exists ei, ej.
  pose proof Ei as Ei'. pose proof Ej as Ej'.
  rewrite memoized_episodes in Ei', Ej'.
  destruct (deriveFrom_running _ _ _ _ _ _ Ei') as [_ Di].
  destruct (deriveFrom_running _ _ _ _ _ _ Ej') as [_ Dj].
  fold (sum_by downloads (firstn (S i) raw)) in Di.
  fold (sum_by downloads (firstn (S j) raw)) in Dj.
  destruct (@firstn_le_split _ raw (S i) (S j)) as (tail & Et & Ht); [lia|].
  assert (Fi : forall a, In a (firstn (S i) raw) ->
                         is_finite (downloads a) = true).
  { intros a Ha. apply nonNegative_finite, Hall.
    now apply in_firstn in Ha. }
  assert (Fj : forall a, In a (firstn (S j) raw) ->
                         is_finite (downloads a) = true).
  { intros a Ha. apply nonNegative_finite, Hall.
    now apply in_firstn in Ha. }
  rewrite (sum_by_finite downloads _ Fi) in Di.
  rewrite (sum_by_finite downloads _ Fj) in Dj.
  eexists _, _. split; [exact Ei|]. split; [exact Ej|].
  split; [exact Di|]. split; [exact Dj|].
  rewrite Et, rsum_by_app.
  assert (0 <= rsum_by (fun a => to_R (downloads a)) (firstn (S i) raw)).
  { apply rsum_by_nonneg_in. intros a Ha. apply nonNegative_to_R, Hall.
    now apply in_firstn in Ha. }
  assert (0 <= rsum_by (fun a => to_R (downloads a)) tail).
  { apply rsum_by_nonneg_in. intros a Ha. apply nonNegative_to_R, Hall.
    now apply Ht. }
  lra.
Qed.

Lemma cumulative_downloads_monotone_witness :
  exists (ei ej : Episode) (a b : R),
    nth_error (episodes (memoized plainFixed plainLocale threeItems)) 0
    = Some ei
    /\ nth_error (episodes (memoized plainFixed plainLocale threeItems)) 2
       = Some ej
    /\ cumulativeDownloads ei = Fin a
    /\ cumulativeDownloads ej = Fin b
    /\ 0 <= a <= b.
Proof.
  apply (@cumulative_downloads_monotone plainFixed plainLocale threeItems
           0%nat 2%nat).
  - repeat constructor; eexists; (split; [reflexivity | lra]).
  - lia.
  - simpl. lia.
Defined.


Lemma ratio_in_unit (a t : R) :
  0 <= a <= t -> t <> 0 -> 0 <= a / t <= 1.
Proof.
  intros [Ha Hat] Ht.
  assert (Hpos : 0 < t) by lra.
  assert (Hinv : 0 < / t) by now apply Rinv_0_lt_compat.
  unfold Rdiv. split.
  - apply Rmult_le_pos; lra.
  - replace 1 with (t * / t) by (field; lra).
    apply Rmult_le_compat_r; lra.
Qed.

Lemma guarded_ratio (a t : R) :
  0 <= a <= t ->
  exists r : R,
    (if (Fin t === Fin 0)%num then Fin 0 else (Fin a / Fin t)%num) = Fin r
    /\ 0 <= r <= 1.
Proof.
  intros H. cbn [strict_eq]. unfold Reqb.
  destruct (Req_dec_T t 0) as [E|E].
  - exists 0. split; [reflexivity | lra].
  - exists (a / t). split; [now apply div_Fin | now apply ratio_in_unit].
Qed.

(** X9.  A row whose completions are between 0 and its downloads gets
    a [completionRate] between 0 and 1, also when the downloads are 0;
    an episode whose new and returning listeners are non-negative has
    their sum as [listenersTotal] and a [newListenerRatio] between 0
    and 1, also when there are no listeners at all. *)
Theorem ratios_in_unit_interval :
  (forall (row : Raw.Row) (c d : R),
      Number (Raw.completion_numbers row) = Fin c ->
      Number (Raw.downloads row) = Fin d ->
      0 <= c <= d ->
      exists r : R, completionRate (parseRow row) = Fin r /\ 0 <= r <= 1)
  /\ (forall toFixed toLocaleString (raw : list Item) (e : Episode)
             (row : Raw.Row) (a b : R),
         In e (episodes (memoized toFixed toLocaleString raw)) ->
         item e = parseRow row ->
         Number (Raw.new_listeners row) = Fin a ->
         Number (Raw.returning_listeners row) = Fin b ->
         0 <= a -> 0 <= b ->
         listenersTotal (item e) = Fin (a + b)
         /\ exists r : R, newListenerRatio e = Fin r /\ 0 <= r <= 1).
Proof.
  split.
  - intros row c d Hc Hd H.
    unfold parseRow; cbn [completionRate]. rewrite Hc, Hd.
    now apply guarded_ratio.
  - intros toFixed toLocaleString raw e row a b Hin Hitem Ha Hb Ha0 Hb0.
    rewrite memoized_episodes in Hin.
    destruct (deriveFrom_In _ _ _ _ _ _ Hin) as (it & idx & cs & cd & _ & ->).
    rewrite deriveEpisode_item in Hitem. subst it.
    unfold deriveEpisode; cbn [fst item newListenerRatio].
    unfold parseRow; cbn [listenersTotal newListeners]. rewrite Ha, Hb.
    cbn [add]. split; [reflexivity|].
    apply guarded_ratio. lra.
Qed.

Lemma ratios_in_unit_interval_witness :
  exists r : R,
    completionRate (parseRow (sampleRow "7" "00:30:00" "10" "5")) = Fin r
    /\ 0 <= r <= 1.
Proof.
  apply (proj1 ratios_in_unit_interval
               (sampleRow "7" "00:30:00" "10" "5") 5 10).
  - num_eval.
  - num_eval.
  - lra.
Defined.

(** Sorting by episode number *)
Lemma sort_insert_perm {A : Type} (compare : A -> A -> num) (x : A)
    (l : list A) :
  Permutation (sort_insert compare x l) (x :: l).
Proof.
  induction l as [|y l IH]; cbn [sort_insert]; [reflexivity|].
  destruct (gtb (compare x y) (Fin 0)); [|reflexivity].
  rewrite IH. apply perm_swap.
Qed.

Lemma sort_perm {A : Type} (compare : A -> A -> num) (l : list A) :
  Permutation (sort compare l) l.
Proof.
  induction l as [|x l IH]; cbn [sort]; [reflexivity|].
  rewrite sort_insert_perm. now constructor.
Qed.

Lemma gtb_sub_finite (x y : R) :
  gtb (Fin x - Fin y)%num (Fin 0) = true <-> y < x.
Proof.
  cbn [gtb ltb sub add neg]. unfold Rltb.
  destruct (Rlt_dec 0 (x + - y)); split; intros H;
    try reflexivity; try discriminate; lra.
Qed.

Lemma sort_insert_sorted (x : Item) (l : list Item) :
  is_finite (episode x) = true ->
  Forall (fun it => is_finite (episode it) = true) l ->
  StronglySorted episodeLe l ->
  StronglySorted episodeLe
    (sort_insert (fun a b => (episode a - episode b)%num) x l).
Proof.
  intros Hx Hl Hs.
  destruct (episode x) as [| |kx|] eqn:Ex; try discriminate Hx.
  induction Hs as [|y l Hs IH Hy]; cbn [sort_insert].
  - repeat constructor.
  - inversion Hl as [|? ? Fy Fl]; subst.
    destruct (episode y) as [| |ky|] eqn:Ey; try discriminate Fy.
    rewrite ?Ex, ?Ey.
    destruct (gtb (Fin kx - Fin ky)%num (Fin 0)) eqn:G.
    + apply gtb_sub_finite in G.
      constructor; [now apply IH|].
      apply (Permutation_Forall (Permutation_sym (sort_insert_perm _ x l))).
      constructor; [|exact Hy].
      exists ky, kx. repeat split; trivial; lra.
    + assert (Hle : kx <= ky).
      { destruct (Rle_dec kx ky); [assumption|].
        assert (T : gtb (Fin kx - Fin ky)%num (Fin 0) = true)
          by (apply gtb_sub_finite; lra).
        congruence. }
      constructor; [now constructor|].
      constructor.
      * exists kx, ky. repeat split; trivial.
      * rewrite Forall_forall in Hy |- *. intros z Hz.
        destruct (Hy z Hz) as (a & b & Ea & Eb & Hab).
        rewrite Ey in Ea. injection Ea as <-.
        exists kx, b. repeat split; trivial; lra.
Qed.

Lemma sort_sorted (l : list Item) :
  Forall (fun it => is_finite (episode it) = true) l ->
  StronglySorted episodeLe (sort (fun a b => (episode a - episode b)%num) l).
Proof.
  induction l as [|x l IH]; intros H; cbn [sort]; [constructor|].
  inversion H as [|? ? Hx Hl]; subst.
  apply sort_insert_sorted; trivial.
  - apply (Permutation_Forall (Permutation_sym (sort_perm _ l))). exact Hl.
  - now apply IH.
Qed.

Lemma sort_insert_stable (k : R) (x : Item) (l : list Item) :
  is_finite (episode x) = true ->
  Forall (fun it => is_finite (episode it) = true) l ->
  filter (fun it => (episode it === Fin k)%num)
         (sort_insert (fun a b => (episode a - episode b)%num) x l)
  = filter (fun it => (episode it === Fin k)%num) (x :: l).
Proof.
  intros Hx Hl.
  destruct (episode x) as [| |kx|] eqn:Ex; try discriminate Hx.
  induction l as [|y l IH]; cbn [sort_insert]; [reflexivity|].
  inversion Hl as [|? ? Fy Fl]; subst.
  destruct (episode y) as [| |ky|] eqn:Ey; try discriminate Fy.
  rewrite ?Ex, ?Ey.
  destruct (gtb (Fin kx - Fin ky)%num (Fin 0)) eqn:G; [|reflexivity].
  apply gtb_sub_finite in G.
  cbn [filter]. rewrite (IH Fl). cbn [filter]. rewrite ?Ex, ?Ey.
  cbn [strict_eq]. unfold Reqb.
  destruct (Req_dec_T kx k); destruct (Req_dec_T ky k);
    try reflexivity; lra.
Qed.

Lemma sort_stable (k : R) (l : list Item) :
  Forall (fun it => is_finite (episode it) = true) l ->
  filter (fun it => (episode it === Fin k)%num)
         (sort (fun a b => (episode a - episode b)%num) l)
  = filter (fun it => (episode it === Fin k)%num) l.
Proof.
  induction l as [|x l IH]; intros H; cbn [sort]; [reflexivity|].
  inversion H as [|? ? Hx Hl]; subst.
  rewrite sort_insert_stable; trivial.
  - cbn [filter]. now rewrite IH.
  - apply (Permutation_Forall (Permutation_sym (sort_perm _ l))). exact Hl.
Qed.

(** X10.  When the load resolves, the stored series holds exactly the
    parsed rows (as a permutation); if every episode number is finite it
    is in ascending order of episode number, and rows with the same
    episode number keep the order they had in the file. *)
Theorem loaded_rows_sorted (rows : list Raw.Row) (st : State) :
  let loaded := raw (onSettled (Resolved rows) st) in
  Permutation loaded (map parseRow rows)
  /\ (Forall (fun row => is_finite (Number (Raw.episode row)) = true) rows ->
      StronglySorted episodeLe loaded
      /\ forall k : R,
           filter (fun it => (episode it === Fin k)%num) loaded
           = filter (fun it => (episode it === Fin k)%num)
                    (map parseRow rows)).
Proof.
  cbv zeta. unfold onSettled; cbn [raw].
  split; [apply sort_perm|].
  intros H.
  assert (F : Forall (fun it => is_finite (episode it) = true)
                     (map parseRow rows)).
  { rewrite Forall_forall in H |- *. intros it Hit.
    apply in_map_iff in Hit. destruct Hit as (row & <- & Hrow).
    exact (H row Hrow). }
  split; [now apply sort_sorted | intros k; now apply sort_stable].
Qed.

Lemma loaded_rows_sorted_witness :
  let rows := [sampleRow "2" "00:30:00" "20" "5";
               sampleRow "1" "00:30:00" "10" "5"] in
  StronglySorted episodeLe (raw (onSettled (Resolved rows) initialState)).
Proof.
  cbv zeta.
  apply (proj2 (loaded_rows_sorted
                  [sampleRow "2" "00:30:00" "20" "5";
                   sampleRow "1" "00:30:00" "10" "5"] initialState)).
  repeat constructor.
Defined.

(** The two halves of the summary *)
Lemma slice_prefix {A : Type} (l : list A) (h : nat) :
  slice l 0 (Z.of_nat h) = firstn h l.
Proof.
  change 0%Z with (Z.of_nat 0). rewrite slice_recordsAt.
  rewrite <- firstn_skipn_recordsAt. cbn [skipn]. f_equal. lia.
Qed.

Lemma slice_from_suffix {A : Type} (l : list A) (h : nat) :
  slice_from l (Z.of_nat h) = skipn h l.
Proof.
  unfold slice_from. rewrite slice_recordsAt.
  rewrite <- firstn_skipn_recordsAt.
  apply firstn_all2. rewrite length_skipn. lia.
Qed.

Lemma last_cons {A : Type} (x d : A) (r : list A) :
  last (x :: r) d = last r x.
Proof.
  revert x d. induction r as [|y r IH]; intros x d; [reflexivity|].
  change (last (x :: y :: r) d) with (last (y :: r) d).
  now rewrite !IH.
Qed.

Lemma nth_error_last {A : Type} (l : list A) (d : A) :
  nth_error (d :: l) (List.length l) = Some (last l d).
Proof.
  revert d. induction l as [|x l IH]; intros d; [reflexivity|].
  cbn [List.length nth_error]. rewrite IH. now rewrite last_cons.
Qed.

Lemma summary_halves_lemma (eps : list Episode) :
  earlySlice eps ++ lateSlice eps = eps
  /\ List.length (earlySlice eps) = (List.length eps / 2)%nat
  /\ List.length (lateSlice eps)
     = (List.length eps - List.length eps / 2)%nat.
Proof.
  unfold earlySlice, lateSlice, halfwayIndex.
  rewrite slice_prefix, slice_from_suffix.
  assert (H : (List.length eps / 2 <= List.length eps)%nat).
  { apply Nat.Div0.div_le_upper_bound. lia. }
  refine (conj _ (conj _ _)).
  - apply firstn_skipn.
  - rewrite length_firstn. lia.
  - apply length_skipn.
Qed.

(** X11.  The early and the late half of the summary split the series
    in two consecutive parts without loss or overlap: the early half
    has [floor(n/2)] episodes, the late half the remaining ones and so
    never fewer; [latestEpisode] is the last episode of the series, and
    is missing exactly for an empty one. *)
Theorem summary_halves (eps : list Episode) (cs : num) :
  earlySlice eps ++ lateSlice eps = eps
  /\ List.length (earlySlice eps) = (List.length eps / 2)%nat
  /\ List.length (lateSlice eps)
     = (List.length eps - List.length eps / 2)%nat
  /\ (List.length (earlySlice eps) <= List.length (lateSlice eps))%nat
  /\ latestEpisode (computeSummary eps cs)
     = match eps with [] => None | e :: rest => Some (last rest e) end.
Proof.
  unfold earlySlice, lateSlice, halfwayIndex.
  rewrite slice_prefix, slice_from_suffix.
  assert (H : (List.length eps / 2 <= List.length eps)%nat).
  { apply Nat.Div0.div_le_upper_bound. lia. }
  assert (H2 : (2 * (List.length eps / 2) <= List.length eps)%nat).
  { apply Nat.Div0.mul_div_le. }
  refine (conj _ (conj _ (conj _ (conj _ _)))).
  - apply firstn_skipn.
  - rewrite length_firstn. lia.
  - apply length_skipn.
  - rewrite length_firstn, length_skipn. lia.
  - cbn [computeSummary latestEpisode].
    destruct eps as [|e rest]; [reflexivity|].
    cbn [List.length]. rewrite Nat.sub_1_r. cbn [Nat.pred].
    apply nth_error_last.
Qed.

(** Means of bounded values *)
Lemma within_finite (lo hi : R) (a : num) :
  within lo hi a -> is_finite a = true.
Proof. intros (v & -> & _). reflexivity. Qed.

Lemma within_to_R (lo hi : R) (a : num) :
  within lo hi a -> lo <= to_R a <= hi.
Proof. intros (v & -> & H). exact H. Qed.

Lemma rsum_by_bounds {A : Type} (g : A -> R) (lo hi : R) (l : list A) :
  (forall a, In a l -> lo <= g a <= hi) ->
  IZR (Z.of_nat (List.length l)) * lo <= rsum_by g l
  <= IZR (Z.of_nat (List.length l)) * hi.
Proof.
  unfold rsum_by.
  induction l as [|a l IH]; intros H; cbn [fold_right List.length].
  - change (IZR (Z.of_nat 0)) with 0. lra.
  - rewrite Nat2Z.inj_succ, succ_IZR.
    pose proof (H a (or_introl eq_refl)).
    assert (IZR (Z.of_nat (List.length l)) * lo
            <= fold_right (fun a s => g a + s) 0 l
            <= IZR (Z.of_nat (List.length l)) * hi).
    { apply IH. intros b Hb. apply H. now right. }
    lra.
Qed.

(** The mean of a non-empty list of numbers of [[lo, hi]] lies in
    [[lo, hi]]. *)
Lemma mean_within {A : Type} (f : A -> num) (lo hi : R) (l : list A) :
  l <> [] ->
  (forall a, In a l -> within lo hi (f a)) ->
  within lo hi (sum_by f l / of_nat (List.length l))%num.
Proof.
  intros Hne H.
  rewrite sum_by_finite by (intros a Ha; eapply within_finite; eauto).
  destruct l as [|a0 l0] eqn:E; [congruence|]. rewrite <- E in *.
  assert (Hn : IZR (Z.of_nat (List.length l)) <> 0)
    by (rewrite E; apply length_neq_0).
  assert (Hpos : 0 < IZR (Z.of_nat (List.length l))).
  { rewrite E. apply IZR_lt. cbn [List.length]. lia. }
  unfold of_nat. rewrite div_Fin by exact Hn.
  eexists. split; [reflexivity|].
  pose proof (@rsum_by_bounds _ (fun a => to_R (f a)) lo hi l) as B.
  destruct B as [B1 B2]; [intros a Ha; eapply within_to_R; eauto|].
  set (n := IZR (Z.of_nat (List.length l))) in *.
  set (S := rsum_by (fun a => to_R (f a)) l) in *.
  assert (Hinv : 0 < / n) by now apply Rinv_0_lt_compat.
  unfold Rdiv. split.
  - replace lo with (n * lo * / n) by (field; lra).
    apply Rmult_le_compat_r; lra.
  - replace hi with (n * hi * / n) by (field; lra).
    apply Rmult_le_compat_r; lra.
Qed.

Lemma in_recordsAt {A : Type} (series : list A) (a n : nat) (x : A) :
  In x (recordsAt series (seq a n)) -> In x series.
Proof.
  rewrite <- firstn_skipn_recordsAt. intros H.
  apply in_firstn in H.
  rewrite <- (firstn_skipn a series). apply in_or_app. now right.
Qed.

(** X12.  In exact arithmetic, at an index of the series, the
    seven-episode rolling mean of values that all lie in a finite
    interval lies in that interval too.  (In binary64 the mean can
    leave the interval by rounding: see
    [Binary64Facts.averageInWindow_binary64_above].) *)
Theorem rolling_mean_within {A : Type} (series : list A) (i : nat)
    (accessor : A -> num) (lo hi : R) :
  (i < List.length series)%nat ->
  (forall a, In a series -> within lo hi (accessor a)) ->
  within lo hi (averageInWindow series (Z.of_nat i) accessor 7).
Proof.
  intros Hi H. rewrite averageInWindow_trailingMean.
  unfold trailingMean. apply mean_within.
  - intros E. apply (f_equal (@List.length A)) in E.
    rewrite trailingWindow_length in E by exact Hi. simpl in E. lia.
  - intros a Ha. apply H. unfold trailingWindow, windowIndices in Ha.
    eapply in_recordsAt; eauto.
Qed.

Lemma rolling_mean_within_witness :
  within 1 3 (averageInWindow [Fin 1; Fin 3; Fin 2] 2 (fun v => v) 7).
Proof.
  apply (@rolling_mean_within num [Fin 1; Fin 3; Fin 2] 2%nat (fun v => v)
           1 3).
  - simpl. lia.
  - intros a [<- | [<- | [<- | []]]]; eexists;
      (split; [reflexivity | lra]).
Defined.

Lemma averageInWindow_no_record {A : Type} (series : list A) (index window : Z)
    (accessor : A -> num) :
  slice series (Z.max 0 (index - (window - 1))) (index + 1) = [] ->
  averageInWindow series index accessor window = NaN.
Proof.
  intros E. unfold averageInWindow. rewrite E. exact zero_div_zero.
Qed.

(** X13.  [averageInWindow] yields NaN, and does not throw, whenever its
    window holds no record: on an empty series, for a window size of 0
    or less at a non-negative index, and at an index that lies 6 or more
    past the end of the series. *)
Theorem rolling_mean_empty_window {A : Type} (accessor : A -> num) :
  (forall index window : Z, averageInWindow [] index accessor window = NaN)
  /\ (forall (series : list A) (index window : Z),
         (0 <= index)%Z -> (window <= 0)%Z ->
         averageInWindow series index accessor window = NaN)
  /\ (forall (series : list A) (index : Z),
         (Z.of_nat (List.length series) + 6 <= index)%Z ->
         averageInWindow series index accessor 7 = NaN).
Proof.
  refine (conj _ (conj _ _)).
  - intros index window. apply averageInWindow_no_record.
    unfold slice. now rewrite skipn_nil, firstn_nil.
  - intros series index window Hi Hw. apply averageInWindow_no_record.
    unfold slice, relative_index.
    destruct (Z.ltb_spec (Z.max 0 (index - (window - 1))) 0); [lia|].
    destruct (Z.ltb_spec (index + 1) 0); [lia|].
    replace (Z.to_nat _) with 0%nat by lia. reflexivity.
  - intros series index Hi. apply averageInWindow_no_record.
    unfold slice, relative_index.
    destruct (Z.ltb_spec (Z.max 0 (index - (7 - 1))) 0); [lia|].
    destruct (Z.ltb_spec (index + 1) 0); [lia|].
    replace (Z.to_nat _) with 0%nat by lia. reflexivity.
Qed.

Lemma rolling_mean_empty_window_witness :
  averageInWindow [Fin 1; Fin 2] 1 (fun v => v) 0 = NaN
  /\ averageInWindow [Fin 1; Fin 2] 8 (fun v => v) 7 = NaN.
Proof.
  destruct (rolling_mean_empty_window (fun v : num => v)) as (_ & Hw & Hi).
  split.
  - apply (Hw [Fin 1; Fin 2] 1%Z 0%Z); lia.
  - apply (Hi [Fin 1; Fin 2] 8%Z). simpl. lia.
Defined.

(** Finite rows give a finite summary *)
Lemma is_finite_Fin (a : num) :
  is_finite a = true -> a = Fin (to_R a).
Proof. now destruct a. Qed.

Lemma arrAverage_finite {A : Type} (l : list A) (f : A -> num) :
  l <> [] ->
  (forall a, In a l -> is_finite (f a) = true) ->
  is_finite (arrAverage l f) = true.
Proof.
  intros Hne H. unfold arrAverage. rewrite sum_by_finite by exact H.
  destruct l as [|a0 l0]; [congruence|].
  unfold of_nat. now rewrite div_Fin by apply length_neq_0.
Qed.

Lemma correlation_ext_in {A : Type} (series : list A) (x y x' y' : A -> num) :
  (forall a, In a series -> x a = x' a) ->
  (forall a, In a series -> y a = y' a) ->
  correlation series x y = correlation series x' y'.
Proof.
  intros Hx Hy. unfold correlation.
  now rewrite (map_ext_in x x' series Hx), (map_ext_in y y' series Hy).
Qed.

Lemma correlation_finite {A : Type} (series : list A) (x y : A -> num) :
  (forall a, In a series -> is_finite (x a) = true) ->
  (forall a, In a series -> is_finite (y a) = true) ->
  is_finite (correlation series x y) = true.
Proof.
  intros Hx Hy.
  rewrite (@correlation_ext_in _ series x y
             (fun a => Fin (to_R (x a))) (fun a => Fin (to_R (y a)))).
  - destruct series as [|a0 rest] eqn:E; [reflexivity|]. rewrite <- E.
    rewrite correlation_real; [reflexivity|]. rewrite E. discriminate.
  - intros a Ha. now apply is_finite_Fin, Hx.
  - intros a Ha. now apply is_finite_Fin, Hy.
Qed.

Lemma finite_sub_mul (a b c : num) :
  is_finite a = true -> is_finite b = true -> is_finite c = true ->
  is_finite ((a - b) * c)%num = true.
Proof. destruct a, b, c; try discriminate; reflexivity. Qed.

Lemma finite_growth (early late : num) :
  is_finite early = true -> is_finite late = true ->
  is_finite (if (early === Fin 0)%num then Fin 0
             else ((late - early) / early * Fin 100)%num) = true.
Proof.
  destruct early as [| |e|], late as [| |l|]; try discriminate. intros _ _.
  cbn [strict_eq]. unfold Reqb. destruct (Req_dec_T e 0) as [E|E]; [reflexivity|].
  cbn [sub add neg]. now rewrite div_Fin.
Qed.

Lemma finite_ratio (a t : num) :
  is_finite a = true -> is_finite t = true ->
  is_finite (if (t === Fin 0)%num then Fin 0 else (a / t)%num) = true.
Proof.
  destruct a as [| |a|], t as [| |t|]; try discriminate. intros _ _.
  cbn [strict_eq]. unfold Reqb. destruct (Req_dec_T t 0) as [E|E]; [reflexivity|].
  now rewrite div_Fin.
Qed.

Ltac split_finite H :=
  unfold finiteItem in H;
  repeat (apply andb_prop in H; let H' := fresh "F" in destruct H as [H H']).

(** X14.  For a series of at least two rows whose numbers are all
    finite, the summary exists and every statistic in it is a finite
    number: the guards on zero denominators leave no way to NaN or an
    infinity. *)
Theorem summary_finite toFixed toLocaleString (raw : list Item) :
  Forall (fun it => finiteItem it = true) raw ->
  (2 <= List.length raw)%nat ->
  exists s : Summary,
    summary (memoized toFixed toLocaleString raw) = Some s
    /\ finiteSummary s = true.
Proof.
  intros Hall Hlen. rewrite Forall_forall in Hall.
  destruct raw as [|it0 rest0] eqn:Eraw; [simpl in Hlen; lia|].
  rewrite <- Eraw in *.
  assert (Hsum : summary (memoized toFixed toLocaleString raw)
                 = Some (computeSummary
                           (episodes (memoized toFixed toLocaleString raw))
                           (sum_by subscribersGained raw)))
    by (rewrite Eraw; apply memoized_summary).
  eexists. split; [exact Hsum|].
  set (eps := episodes (memoized toFixed toLocaleString raw)).
  assert (Leps : List.length eps = List.length raw).
  { unfold eps. rewrite memoized_episodes. apply deriveFrom_length. }
  assert (Hit : forall e, In e eps -> finiteItem (item e) = true
                                      /\ is_finite (newListenerRatio e) = true).
  { intros e He. unfold eps in He. rewrite memoized_episodes in He.
    destruct (deriveFrom_In _ _ _ _ _ _ He)
      as (it & idx & cs & cd & Hin & ->).
    rewrite deriveEpisode_item. pose proof (Hall it Hin) as F.
    split; [exact F|].
    unfold deriveEpisode; cbn [fst newListenerRatio].
    split_finite F. now apply finite_ratio. }
  clearbody eps.
  destruct (summary_halves_lemma eps) as (Happ & Le & Ll).
  assert (Hearly : earlySlice eps <> []).
  { intros E. rewrite E in Le. cbn [List.length] in Le.
    assert (1 <= List.length eps / 2)%nat
      by (apply Nat.div_le_lower_bound; lia). lia. }
  assert (Hlate : lateSlice eps <> []).
  { intros E. rewrite E in Ll. cbn [List.length] in Ll.
    assert (List.length eps / 2 < List.length eps)%nat
      by (apply Nat.div_lt; lia). lia. }
  assert (Heps : eps <> []).
  { intros E. rewrite E in Leps. simpl in Leps. lia. }
  assert (Hin_early : forall e, In e (earlySlice eps) -> In e eps).
  { intros e He. rewrite <- Happ. apply in_or_app. now left. }
  assert (Hin_late : forall e, In e (lateSlice eps) -> In e eps).
  { intros e He. rewrite <- Happ. apply in_or_app. now right. }
  assert (Fd : forall e, In e eps -> is_finite (downloads (item e)) = true).
  { intros e He. destruct (Hit e He) as [F _]. now split_finite F. }
  assert (Fc : forall e, In e eps ->
                         is_finite (completionRate (item e)) = true).
  { intros e He. destruct (Hit e He) as [F _]. now split_finite F. }
  assert (Fm : forall e, In e eps ->
                         is_finite (durationMinutes (item e)) = true).
  { intros e He. destruct (Hit e He) as [F _]. now split_finite F. }
  assert (Fs : forall e, In e eps ->
                         is_finite (socialMediaShares (item e)) = true).
  { intros e He. destruct (Hit e He) as [F _]. now split_finite F. }
  assert (Fg : forall e, In e eps ->
                         is_finite (subscribersGained (item e)) = true).
  { intros e He. destruct (Hit e He) as [F _]. now split_finite F. }
  assert (Fr : forall e, In e eps -> is_finite (newListenerRatio e) = true).
  { intros e He. now destruct (Hit e He). }
  unfold finiteSummary, computeSummary.
  cbn [averageDownloads averageCompletionRate averageDuration totalSubscribers
       downloadsGrowthPercent completionRateChange newListenerShareChange
       sharesSubscribersCorrelation durationCompletionCorrelation].
  repeat (apply andb_true_intro; split).
  - apply arrAverage_finite; auto.
  - apply arrAverage_finite; auto.
  - apply arrAverage_finite; auto.
  - rewrite sum_by_finite; [reflexivity|].
    intros it Hin. pose proof (Hall it Hin) as F. now split_finite F.
  - apply finite_growth; apply arrAverage_finite; auto.
  - apply finite_sub_mul; try reflexivity; apply arrAverage_finite; auto.
  - apply finite_sub_mul; try reflexivity; apply arrAverage_finite; auto.
  - apply correlation_finite; auto.
  - apply correlation_finite; auto.
Qed.

Lemma summary_finite_witness :
  exists s : Summary,
    summary (memoized plainFixed plainLocale threeItems) = Some s
    /\ finiteSummary s = true.
Proof.
  apply (@summary_finite plainFixed plainLocale threeItems).
  - repeat constructor.
  - simpl. lia.
Defined.

End SeriesFacts.

(** ** Trend lines and annotated points of the scatter charts *)

Module ScatterFacts.

Import PodcastData PodcastDataFacts SeriesFacts Scatter.
Local Open Scope R_scope.

Lemma rsum_by_plus {A : Type} (f g : A -> R) (l : list A) :
  rsum_by (fun a => f a + g a) l = rsum_by f l + rsum_by g l.
Proof.
  unfold rsum_by.
  induction l as [|a l IH]; cbn [fold_right]; [lra|]. rewrite IH. lra.
Qed.

Lemma rsum_by_const {A : Type} (c : R) (l : list A) :
  rsum_by (fun _ => c) l = IZR (Z.of_nat (List.length l)) * c.
Proof.
  unfold rsum_by.
  induction l as [|a l IH]; cbn [fold_right List.length].
  - change (IZR (Z.of_nat 0)) with 0. ring.
  - rewrite IH, Nat2Z.inj_succ, succ_IZR. ring.
Qed.

(** [n * sumXX - sumX^2] is [n] times the sum of squared deviations. *)
Lemma denominator_rvar (points : list Point.t) :
  IZR (Z.of_nat (List.length points))
  * rsum_by (fun p => px p * px p) points
  - rsum_by px points * rsum_by px points
  = IZR (Z.of_nat (List.length points)) * rvar px points.
Proof.
  destruct points as [|p0 rest] eqn:E.
  { unfold rvar, rcov, rsum_by; simpl. ring. }
  rewrite <- E in *.
  assert (Hn : IZR (Z.of_nat (List.length points)) <> 0)
    by (rewrite E; apply length_neq_0).
  unfold rvar, rcov.
  set (m := rmean px points).
  rewrite (@rsum_by_ext_in _ (fun a => (px a - m) * (px a - m))
             (fun a => px a * px a + ((-2 * m) * px a + m * m)) points)
    by (intros; ring).
  rewrite !rsum_by_plus, rsum_by_scale, rsum_by_const.
  unfold m, rmean. field. exact Hn.
Qed.

Lemma numerator_rcov (points : list Point.t) :
  IZR (Z.of_nat (List.length points))
  * rsum_by (fun p => px p * py p) points
  - rsum_by px points * rsum_by py points
  = IZR (Z.of_nat (List.length points)) * rcov px py points.
Proof.
  destruct points as [|p0 rest] eqn:E.
  { unfold rcov, rsum_by; simpl. ring. }
  rewrite <- E in *.
  assert (Hn : IZR (Z.of_nat (List.length points)) <> 0)
    by (rewrite E; apply length_neq_0).
  unfold rcov.
  set (mx := rmean px points). set (my := rmean py points).
  rewrite (@rsum_by_ext_in _ (fun a => (px a - mx) * (py a - my))
             (fun a => px a * py a
                       + ((- my) * px a + ((- mx) * py a + mx * my)))
             points)
    by (intros; ring).
  rewrite !rsum_by_plus, !rsum_by_scale, rsum_by_const.
  unfold mx, my, rmean. field. exact Hn.
Qed.

Section Sums.

Variable points : list Point.t.

Hypothesis finite : Forall (fun p => finitePoint p = true) points.

Lemma finite_x (p : Point.t) : In p points -> Point.x p = Fin (px p).
Proof.
  intros H. rewrite Forall_forall in finite. specialize (finite p H).
  unfold finitePoint in finite. apply andb_prop in finite.
  unfold px. destruct (Point.x p); try easy; now destruct finite.
Qed.

Lemma finite_y (p : Point.t) : In p points -> Point.y p = Fin (py p).
Proof.
  intros H. rewrite Forall_forall in finite. specialize (finite p H).
  unfold finitePoint in finite. apply andb_prop in finite.
  unfold py. destruct (Point.y p); try easy; now destruct finite.
Qed.

Lemma sumX_real : sum_by Point.x points = Fin (rsum_by px points).
Proof.
  rewrite <- sum_by_Fin. apply sum_by_ext_in. apply finite_x.
Qed.

Lemma sumY_real : sum_by Point.y points = Fin (rsum_by py points).
Proof.
  rewrite <- sum_by_Fin. apply sum_by_ext_in. apply finite_y.
Qed.

Lemma sumXY_real :
  sum_by (fun p => (Point.x p * Point.y p)%num) points = Fin (rsum_by (fun p => px p * py p) points).
Proof.
  rewrite <- sum_by_Fin. apply sum_by_ext_in.
  intros p Hp. now rewrite (finite_x p Hp), (finite_y p Hp).
Qed.

Lemma sumXX_real :
  sum_by (fun p => (Point.x p * Point.x p)%num) points = Fin (rsum_by (fun p => px p * px p) points).
Proof.
  rewrite <- sum_by_Fin. apply sum_by_ext_in.
  intros p Hp. now rewrite (finite_x p Hp).
Qed.

End Sums.

Lemma sub_Fin (a b : R) : (Fin a - Fin b)%num = Fin (a - b).
Proof. reflexivity. Qed.

Lemma mul_Fin (a b : R) : (Fin a * Fin b)%num = Fin (a * b).
Proof. reflexivity. Qed.

Lemma strict_eq_Fin_true (a : R) : a = 0 -> (Fin a === Fin 0)%num = true.
Proof.
  intros ->. cbn [strict_eq]. unfold Reqb.
  destruct (Req_dec_T 0 0); [reflexivity | lra].
Qed.

Lemma strict_eq_Fin_false (a : R) : a <> 0 -> (Fin a === Fin 0)%num = false.
Proof.
  intros H. cbn [strict_eq]. unfold Reqb.
  destruct (Req_dec_T a 0); [lra | reflexivity].
Qed.

Lemma nonzero_denominator_nonempty (points : list Point.t) :
  IZR (Z.of_nat (List.length points))
  * rsum_by (fun p => px p * px p) points
  - rsum_by px points * rsum_by px points <> 0 ->
  IZR (Z.of_nat (List.length points)) <> 0.
Proof.
  destruct points as [|p rest]; [|intros _; apply length_neq_0].
  unfold rsum_by; simpl. intros H. exfalso. apply H. ring.
Qed.

(** What both functions compute on finite points, in real terms. *)
Lemma calculateRegression_regular (points : list Point.t) :
  Forall (fun p => finitePoint p = true) points ->
  let n := IZR (Z.of_nat (List.length points)) in
  let den := n * rsum_by (fun p => px p * px p) points
             - rsum_by px points * rsum_by px points in
  let s := (n * rsum_by (fun p => px p * py p) points
            - rsum_by px points * rsum_by py points) / den in
  den <> 0 ->
  calculateRegression points
  = {| slope := Fin s;
       intercept := Fin ((rsum_by py points - s * rsum_by px points) / n) |}
  /\ regressionLine points
     = {| slope := Fin s;
          intercept :=
            Fin ((rsum_by py points - s * rsum_by px points) / n) |}.
Proof.
  intros F n den s Hden.
  assert (Hn : n <> 0) by now apply nonzero_denominator_nonempty.
  unfold calculateRegression, regressionLine.
  rewrite (sumX_real F), (sumY_real F), (sumXY_real F), (sumXX_real F).
  unfold of_nat. fold n.
  rewrite !mul_Fin, !sub_Fin. fold den.
  rewrite (strict_eq_Fin_false Hden).
  rewrite (div_Fin _ Hden). fold s.
  rewrite !mul_Fin, !sub_Fin, (div_Fin _ Hn).
  split; reflexivity.
Qed.

Lemma calculateRegression_degenerate (points : list Point.t) :
  Forall (fun p => finitePoint p = true) points ->
  let n := IZR (Z.of_nat (List.length points)) in
  n * rsum_by (fun p => px p * px p) points
  - rsum_by px points * rsum_by px points = 0 ->
  calculateRegression points
  = {| slope := Fin 0;
       intercept := match points with
                    | [] => Fin 0
                    | _ :: _ => Fin (rmean py points)
                    end |}
  /\ regressionLine points = {| slope := Fin 0; intercept := Fin 0 |}.
Proof.
  intros F n Hden.
  unfold calculateRegression, regressionLine.
  rewrite (sumX_real F), (sumY_real F), (sumXY_real F), (sumXX_real F).
  unfold of_nat. fold n.
  rewrite !mul_Fin, !sub_Fin.
  rewrite (strict_eq_Fin_true Hden).
  split; [|reflexivity]. f_equal.
  unfold n in *. clear n Hden F.
  destruct points as [|p rest] eqn:E.
  - cbn [List.length rsum_by fold_right].
    change (IZR (Z.of_nat 0)) with 0. rewrite zero_div_zero. reflexivity.
  - rewrite <- E.
    assert (Hn : IZR (Z.of_nat (List.length points)) <> 0)
      by (rewrite E; apply length_neq_0).
    rewrite (div_Fin _ Hn). fold (rmean py points).
    unfold or_else, Reqb.
    destruct (Req_dec_T (rmean py points) 0) as [-> | _]; reflexivity.
Qed.

Lemma count_pos {A : Type} (a : A) (l : list A) :
  0 < IZR (Z.of_nat (List.length (a :: l))).
Proof. apply IZR_lt. cbn [List.length]. lia. Qed.

(** X15.  When the points have finite coordinates, all lie on one line
    [y = k x + b] and do not all share one [x], both regression
    functions return exactly that line: slope [k] and intercept [b]. *)
Theorem regression_exact_on_line (points : list Point.t) (k b : R) :
  Forall (fun p => finitePoint p = true) points ->
  (forall p, In p points -> py p = k * px p + b) ->
  (exists p q, In p points /\ In q points /\ px p <> px q) ->
  calculateRegression points = {| slope := Fin k; intercept := Fin b |}
  /\ regressionLine points = {| slope := Fin k; intercept := Fin b |}.
Proof.
  intros F Hline (p & q & Hp & Hq & Hpq).
  pose proof (@rvar_pos _ px points p q Hp Hq Hpq) as Hvar.
  destruct (@rcov_affine _ k b px py points Hline) as [Hcov _].
  assert (Hpos : 0 < IZR (Z.of_nat (List.length points))).
  { destruct points as [|p0 rest]; [destruct Hp | apply count_pos]. }
  assert (Hsum : rsum_by py points
                 = k * rsum_by px points
                   + IZR (Z.of_nat (List.length points)) * b).
  { rewrite (@rsum_by_ext_in _ py (fun a => k * px a + b) points Hline).
    apply rsum_by_affine. }
  pose proof (denominator_rvar points) as Hden.
  pose proof (numerator_rcov points) as Hnum.
  assert (Hd : IZR (Z.of_nat (List.length points))
               * rsum_by (fun p => px p * px p) points
               - rsum_by px points * rsum_by px points <> 0).
  { rewrite Hden. apply Rmult_integral_contrapositive_currified; lra. }
  destruct (calculateRegression_regular F Hd) as [E1 E2].
  rewrite E1, E2. rewrite Hnum, Hden, Hcov, Hsum.
  set (n := IZR (Z.of_nat (List.length points))) in *.
  set (V := rvar px points) in *.
  replace (n * (k * V) / (n * V)) with k by (field; lra).
  replace ((k * rsum_by px points + n * b - k * rsum_by px points) / n)
    with b by (field; lra).
  split; reflexivity.
Qed.

Lemma regression_exact_on_line_witness :
  calculateRegression linePoints = {| slope := Fin 2; intercept := Fin 1 |}
  /\ regressionLine linePoints = {| slope := Fin 2; intercept := Fin 1 |}.
Proof.
  apply (@regression_exact_on_line linePoints 2 1).
  - repeat constructor.
  - intros p [<- | [<- | [<- | []]]]; unfold px, py; simpl; lra.
  - exists (samplePoint 1 3), (samplePoint 2 5).
    split; [now left|]. split; [right; now left|].
    unfold px; simpl; lra.
Defined.

(** Zero variance means every value is the mean. *)
Lemma rvar_zero_constant {A : Type} (f : A -> R) (l : list A) (a : A) :
  rvar f l = 0 -> In a l -> f a = rmean f l.
Proof.
  intros Hv Ha. unfold rvar, rcov in Hv.
  set (m := rmean f l) in *.
  pose proof (@term_le_rsum_by _ (fun a => (f a - m) * (f a - m)) l a
                (fun b => sq_nonneg (f b - m)) Ha) as H.
  cbv beta in H. rewrite Hv in H.
  pose proof (sq_nonneg (f a - m)) as H0.
  assert (Hz : (f a - m) * (f a - m) = 0) by lra.
  apply Rmult_integral in Hz. lra.
Qed.

(** X16.  In exact arithmetic, when all points share one finite [x]
    (in particular for a single point or none), the guard on the zero
    denominator is taken: both functions return slope 0;
    [calculateRegression] returns the mean of the [y] values as
    intercept (0 for no point), while [regressionLine] returns
    intercept 0.  (In binary64 the denominator of several points with
    one [x] need not be 0: see
    [Binary64Facts.regression_binary64_constant_x].) *)
Theorem regression_constant_x (points : list Point.t) (c : R) :
  Forall (fun p => finitePoint p = true) points ->
  (forall p, In p points -> px p = c) ->
  calculateRegression points
  = {| slope := Fin 0;
       intercept := match points with
                    | [] => Fin 0
                    | _ :: _ => Fin (rmean py points)
                    end |}
  /\ regressionLine points = {| slope := Fin 0; intercept := Fin 0 |}.
Proof.
  intros F Hc. apply calculateRegression_degenerate; [exact F|].
  rewrite denominator_rvar.
  rewrite (@rvar_constant _ c px points Hc). ring.
Qed.

Lemma regression_constant_x_witness :
  calculateRegression [samplePoint 4 3; samplePoint 4 5]
  = {| slope := Fin 0;
       intercept := Fin (rmean py [samplePoint 4 3; samplePoint 4 5]) |}
  /\ regressionLine [samplePoint 4 3; samplePoint 4 5]
     = {| slope := Fin 0; intercept := Fin 0 |}.
Proof.
  apply (@regression_constant_x [samplePoint 4 3; samplePoint 4 5] 4).
  - repeat constructor.
  - intros p [<- | [<- | []]]; reflexivity.
Defined.

Lemma squaredError_expand (points : list Point.t) (s i : R) :
  squaredError points s i
  = rsum_by (fun p => py p * py p) points
    + s * s * rsum_by (fun p => px p * px p) points
    + IZR (Z.of_nat (List.length points)) * (i * i)
    - 2 * s * rsum_by (fun p => px p * py p) points
    - 2 * i * rsum_by py points
    + 2 * s * i * rsum_by px points.
Proof.
  unfold squaredError.
  rewrite (@rsum_by_ext_in _
             (fun p => (py p - (s * px p + i)) * (py p - (s * px p + i)))
             (fun p => py p * py p
                       + ((s * s) * (px p * px p)
                          + ((-2 * s) * (px p * py p)
                             + ((-2 * i) * py p
                                + ((2 * s * i) * px p + i * i)))))
             points)
    by (intros; ring).
  rewrite !rsum_by_plus, !rsum_by_scale, rsum_by_const. ring.
Qed.

Lemma line_square_sum (points : list Point.t) (ds di : R) :
  0 <= ds * ds * rsum_by (fun p => px p * px p) points
       + 2 * ds * di * rsum_by px points
       + IZR (Z.of_nat (List.length points)) * (di * di).
Proof.
  assert (H : 0 <= rsum_by (fun p => (ds * px p + di) * (ds * px p + di))
                           points)
    by (apply rsum_by_nonneg; intros; apply sq_nonneg).
  rewrite (@rsum_by_ext_in _
             (fun p => (ds * px p + di) * (ds * px p + di))
             (fun p => (ds * ds) * (px p * px p)
                       + ((2 * ds * di) * px p + di * di))
             points) in H
    by (intros; ring).
  rewrite !rsum_by_plus, !rsum_by_scale, rsum_by_const in H. lra.
Qed.

(** A line that satisfies the two normal equations has the least
    squared error of all lines. *)
Lemma least_squares_normal (points : list Point.t) (s i : R) :
  rsum_by py points
  = s * rsum_by px points + IZR (Z.of_nat (List.length points)) * i ->
  rsum_by (fun p => px p * py p) points
  = s * rsum_by (fun p => px p * px p) points + i * rsum_by px points ->
  forall s' i' : R, squaredError points s i <= squaredError points s' i'.
Proof.
  intros N1 N2 s' i'. rewrite !squaredError_expand, N1, N2.
  pose proof (line_square_sum points (s' - s) (i' - i)) as Q.
  set (n := IZR (Z.of_nat (List.length points))) in *.
  set (Sx := rsum_by px points) in *.
  set (Sxx := rsum_by (fun p => px p * px p) points) in *.
  set (Syy := rsum_by (fun p => py p * py p) points) in *.
  match goal with |- ?l <= ?r =>
    replace r with (l + ((s' - s) * (s' - s) * Sxx
                         + 2 * (s' - s) * (i' - i) * Sx
                         + n * ((i' - i) * (i' - i)))) by ring
  end.
  lra.
Qed.

(** X17.  For a non-empty list of points with finite coordinates,
    [calculateRegression] returns a line with finite slope and intercept
    whose sum of squared vertical distances to the points is the least
    among all lines; [regressionLine] does so whenever two points differ
    in [x]. *)
Theorem regression_least_squares (points : list Point.t) :
  Forall (fun p => finitePoint p = true) points ->
  points <> [] ->
  (exists s i : R,
      calculateRegression points = {| slope := Fin s; intercept := Fin i |}
      /\ forall s' i' : R,
           squaredError points s i <= squaredError points s' i')
  /\ ((exists p q, In p points /\ In q points /\ px p <> px q) ->
      exists s i : R,
        regressionLine points = {| slope := Fin s; intercept := Fin i |}
        /\ forall s' i' : R,
             squaredError points s i <= squaredError points s' i').
Proof.
  intros F Hne.
  assert (Hn : IZR (Z.of_nat (List.length points)) <> 0).
  { destruct points as [|p0 rest]; [congruence | apply length_neq_0]. }
  assert (Hmatch : match points with
                   | [] => Fin 0
                   | _ :: _ => Fin (rmean py points)
                   end = Fin (rmean py points)).
  { destruct points as [|p0 rest]; [congruence | reflexivity]. }
  set (n := IZR (Z.of_nat (List.length points))) in *.
  set (den := n * rsum_by (fun p => px p * px p) points
              - rsum_by px points * rsum_by px points).
  assert (Regular :
            den <> 0 ->
            exists s i : R,
              (calculateRegression points
               = {| slope := Fin s; intercept := Fin i |}
               /\ regressionLine points
                  = {| slope := Fin s; intercept := Fin i |})
              /\ forall s' i' : R,
                   squaredError points s i <= squaredError points s' i').
  { intros Hden.
    destruct (calculateRegression_regular F Hden) as [E1 E2].
    fold n in E1, E2. fold den in E1, E2.
    set (s := (n * rsum_by (fun p => px p * py p) points
               - rsum_by px points * rsum_by py points) / den) in *.
    exists s, ((rsum_by py points - s * rsum_by px points) / n).
    split; [now split|].
    apply least_squares_normal; fold n.
    - field. exact Hn.
    - assert (Hs : s * den
                   = n * rsum_by (fun p => px p * py p) points
                     - rsum_by px points * rsum_by py points)
        by (unfold s; field; exact Hden).
      unfold den in Hs.
      apply (Rmult_eq_reg_l n); [|exact Hn].
      replace (n * (s * rsum_by (fun p => px p * px p) points
                    + (rsum_by py points - s * rsum_by px points) / n
                      * rsum_by px points))
        with (s * (n * rsum_by (fun p => px p * px p) points
                   - rsum_by px points * rsum_by px points)
              + rsum_by px points * rsum_by py points)
        by (field; exact Hn).
      rewrite Hs. ring. }
  split.
  - destruct (Req_dec_T den 0) as [Hz | Hnz].
    + destruct (calculateRegression_degenerate F Hz) as [E _].
      rewrite Hmatch in E.
      exists 0, (rmean py points). split; [exact E|].
      assert (Hv : rvar px points = 0).
      { unfold den, n in Hz. rewrite denominator_rvar in Hz.
        apply Rmult_integral in Hz.
        destruct Hz as [Hz | Hz]; [exfalso; exact (Hn Hz) | exact Hz]. }
      assert (Hx : forall p, In p points -> px p = rmean px points)
        by (intros p Hp; now apply rvar_zero_constant).
      apply least_squares_normal; fold n.
      * unfold rmean. fold n. field. exact Hn.
      * rewrite (@rsum_by_ext_in _ (fun p => px p * py p)
                   (fun p => rmean px points * py p) points)
          by (intros p Hp; now rewrite (Hx p Hp)).
        rewrite rsum_by_scale. unfold rmean. fold n. field. exact Hn.
    + destruct (Regular Hnz) as (s & i & [E _] & H). now exists s, i.
  - intros (p & q & Hp & Hq & Hpq).
    pose proof (@rvar_pos _ px points p q Hp Hq Hpq) as Hvar.
    assert (Hnz : den <> 0).
    { unfold den, n. rewrite denominator_rvar. fold n.
      apply Rmult_integral_contrapositive_currified; lra. }
    destruct (Regular Hnz) as (s & i & [_ E] & H). now exists s, i.
Qed.

Lemma regression_least_squares_witness :
  exists s i : R,
    calculateRegression scatterPoints
    = {| slope := Fin s; intercept := Fin i |}
    /\ forall s' i' : R,
         squaredError scatterPoints s i <= squaredError scatterPoints s' i'.
Proof.
  apply (@regression_least_squares scatterPoints).
  - repeat constructor.
  - discriminate.
Defined.

Lemma rsum_by_map {A B : Type} (f : B -> R) (g : A -> B) (l : list A) :
  rsum_by f (map g l) = rsum_by (fun a => f (g a)) l.
Proof.
  unfold rsum_by. induction l as [|a l IH]; cbn [map fold_right]; [reflexivity|].
  now rewrite IH.
Qed.

Lemma rcov_map {A B : Type} (fx fy : B -> R) (g : A -> B) (l : list A) :
  rcov fx fy (map g l) = rcov (fun a => fx (g a)) (fun a => fy (g a)) l.
Proof.
  unfold rcov, rmean. now rewrite !rsum_by_map, length_map.
Qed.

Lemma div_pos_sign (c t : R) : 0 < t -> (0 <= c / t <-> 0 <= c).
Proof.
  intros Ht. assert (Hinv : 0 < / t) by now apply Rinv_0_lt_compat.
  unfold Rdiv. split; intros H.
  - replace c with (c * / t * t) by (field; lra).
    apply Rmult_le_pos; lra.
  - apply Rmult_le_pos; lra.
Qed.

Lemma sign_agree (C V W n : R) :
  0 <= V -> 0 <= W -> C * C <= V * W -> 0 < n ->
  (0 <= (if Req_dec_T (n * V) 0 then 0 else n * C / (n * V))
   <-> 0 <= (if Req_dec_T (sqrt (V * W)) 0 then 0 else C / sqrt (V * W))).
Proof.
  intros HV HW HCS Hn.
  destruct (Req_dec_T (n * V) 0) as [Hz | Hnz].
  - assert (V = 0).
    { apply Rmult_integral in Hz. destruct Hz; lra. }
    subst V. replace (0 * W) with 0 by ring. rewrite sqrt_0.
    destruct (Req_dec_T 0 0); [tauto | lra].
  - assert (HVpos : 0 < V).
    { destruct (Req_dec_T V 0) as [->|]; [exfalso; apply Hnz; ring | lra]. }
    replace (n * C / (n * V)) with (C / V) by (field; lra).
    rewrite (div_pos_sign C HVpos).
    destruct (Req_dec_T (sqrt (V * W)) 0) as [Hs | Hs].
    + assert (HVW : V * W = 0).
      { apply sqrt_eq_0; [|exact Hs]. now apply Rmult_le_pos. }
      assert (HC : C * C <= 0) by lra.
      pose proof (sq_nonneg C) as HC0.
      assert (C = 0).
      { assert (E : C * C = 0) by lra.
        apply Rmult_integral in E. lra. }
      subst C. split; intros; lra.
    + assert (Hspos : 0 < sqrt (V * W)).
      { pose proof (sqrt_pos (V * W)). lra. }
      now rewrite (div_pos_sign C Hspos).
Qed.

Lemma geb_Fin_zero (a : R) : (Fin a >=? Fin 0)%num = true <-> 0 <= a.
Proof.
  unfold geb, ltb, strict_eq, Rltb, Reqb.
  destruct (Rlt_dec 0 a) as [Hl | Hl]; destruct (Req_dec_T a 0) as [He | He];
    simpl; split; intros H; try reflexivity; try discriminate; try lra.
Qed.

Lemma geb_agree (a b : R) :
  (0 <= a <-> 0 <= b) ->
  (Fin a >=? Fin 0)%num = (Fin b >=? Fin 0)%num.
Proof.
  intros H.
  destruct (Fin a >=? Fin 0)%num eqn:Ea; destruct (Fin b >=? Fin 0)%num eqn:Eb;
    try reflexivity.
  - apply geb_Fin_zero in Ea. apply H in Ea. apply geb_Fin_zero in Ea.
    congruence.
  - apply geb_Fin_zero in Eb. apply H in Eb. apply geb_Fin_zero in Eb.
    congruence.
Qed.

Lemma list_eq_nil_dec {A : Type} (l : list A) : {l = []} + {l <> []}.
Proof. destruct l; [now left | now right]. Qed.

(** For the points built from a series with finite coordinates, the
    least-squares slope and the correlation coefficient of the two
    coordinates have the same sign. *)
Lemma slope_correlation_sign {A : Type} (data : list A) (g : A -> Point.t) :
  (forall d, In d data -> finitePoint (g d) = true) ->
  (slope (calculateRegression (map g data)) >=? Fin 0)%num
  = (correlation data (fun d => Point.x (g d)) (fun d => Point.y (g d))
     >=? Fin 0)%num
  /\ (slope (regressionLine (map g data)) >=? Fin 0)%num
     = (correlation data (fun d => Point.x (g d)) (fun d => Point.y (g d))
        >=? Fin 0)%num.
Proof.
  intros Fg.
  assert (Fx : forall d, In d data -> is_finite (Point.x (g d)) = true).
  { intros d Hd. specialize (Fg d Hd). unfold finitePoint in Fg.
    now apply andb_prop in Fg. }
  assert (Fy : forall d, In d data -> is_finite (Point.y (g d)) = true).
  { intros d Hd. specialize (Fg d Hd). unfold finitePoint in Fg.
    now apply andb_prop in Fg. }
  assert (F : Forall (fun p => finitePoint p = true) (map g data)).
  { apply Forall_forall. intros p Hp.
    apply in_map_iff in Hp. destruct Hp as (d & <- & Hd). now apply Fg. }
  destruct (list_eq_nil_dec data) as [Hnil | Hne].
  { assert (Hden : IZR (Z.of_nat (List.length (map g data)))
                   * rsum_by (fun p => px p * px p) (map g data)
                   - rsum_by px (map g data) * rsum_by px (map g data) = 0)
      by (rewrite Hnil; unfold rsum_by; simpl; ring).
    destruct (calculateRegression_degenerate F Hden) as [E1 E2].
    rewrite E1, E2, Hnil. split; reflexivity. }
  rewrite (@correlation_ext_in _ data _ _
             (fun d => Fin (px (g d))) (fun d => Fin (py (g d))))
    by (intros; apply is_finite_Fin; auto).
  rewrite (correlation_real _ _ Hne).
  set (fx := fun d => px (g d)). set (fy := fun d => py (g d)).
  assert (Hn : 0 < IZR (Z.of_nat (List.length (map g data)))).
  { rewrite length_map.
    destruct data; [congruence | apply count_pos]. }
  assert (HV : rvar px (map g data) = rvar fx data)
    by (unfold rvar; rewrite rcov_map; reflexivity).
  assert (HC : rcov px py (map g data) = rcov fx fy data)
    by (rewrite rcov_map; reflexivity).
  pose proof (rvar_nonneg fx data) as V0.
  pose proof (rvar_nonneg fy data) as W0.
  pose proof (rcov_sq_le fx fy data) as CS.
  pose proof (@sign_agree (rcov fx fy data) (rvar fx data) (rvar fy data)
                (IZR (Z.of_nat (List.length (map g data)))) V0 W0 CS Hn) as S.
  fold (rcorr fx fy data) in S.
  pose proof (denominator_rvar (map g data)) as Hd. rewrite HV in Hd.
  pose proof (numerator_rcov (map g data)) as Hnu. rewrite HC in Hnu.
  destruct (Req_dec_T (IZR (Z.of_nat (List.length (map g data)))
                       * rvar fx data) 0)
    as [Hz | Hnz].
  - assert (Hden : IZR (Z.of_nat (List.length (map g data)))
                   * rsum_by (fun p => px p * px p) (map g data)
                   - rsum_by px (map g data) * rsum_by px (map g data) = 0)
      by (rewrite Hd; exact Hz).
    destruct (calculateRegression_degenerate F Hden) as [E1 E2].
    rewrite E1, E2. cbn [slope].
    split; now apply geb_agree.
  - assert (Hden : IZR (Z.of_nat (List.length (map g data)))
                   * rsum_by (fun p => px p * px p) (map g data)
                   - rsum_by px (map g data) * rsum_by px (map g data) <> 0)
      by (rewrite Hd; exact Hnz).
    pose proof (calculateRegression_regular F Hden) as E.
    cbv zeta in E. rewrite Hd, Hnu in E. destruct E as [E1 E2].
    rewrite E1, E2. cbn [slope].
    split; now apply geb_agree.
Qed.

Lemma memoized_insights toFixed toLocaleString (raw : list Item)
    (ins : Insights.t) :
  insights (memoized toFixed toLocaleString raw) = Some ins ->
  exists cs : num,
    ins = buildInsights toFixed toLocaleString
            (computeSummary (episodes (memoized toFixed toLocaleString raw))
                            cs).
Proof.
  destruct raw as [|it rest]; [discriminate|].
  unfold memoized.
  destruct (deriveFrom (it :: rest) 0 (Fin 0) (Fin 0) (it :: rest))
    as [eps [cs cd]].
  cbn [insights episodes]. intros [= <-]. now exists cs.
Qed.

Lemma episodes_finite toFixed toLocaleString (raw : list Item) (e : Episode) :
  Forall (fun it => finiteItem it = true) raw ->
  In e (episodes (memoized toFixed toLocaleString raw)) ->
  finiteItem (item e) = true.
Proof.
  intros Hall He. rewrite Forall_forall in Hall.
  rewrite memoized_episodes in He.
  destruct (deriveFrom_In _ _ _ _ _ _ He) as (it & idx & cs & cd & Hin & ->).
  rewrite deriveEpisode_item. now apply Hall.
Qed.

(** X18.  In exact arithmetic, for rows whose numbers are all finite,
    each scatter chart's trend line agrees with the insight printed
    under it: the line of shares against subscribers has a slope [>= 0]
    exactly when the shares insight uses its positive phrasing, and the
    line of duration against completion has a slope [>= 0] exactly when
    the duration insight uses its positive phrasing.  (In binary64 a
    slope and a coefficient near 0 can round to different signs: see
    [Binary64Facts.slope_binary64_sign].) *)
Theorem trend_line_matches_insight toFixed toLocaleString (raw : list Item)
    (ins : Insights.t) :
  Forall (fun it => finiteItem it = true) raw ->
  insights (memoized toFixed toLocaleString raw) = Some ins ->
  let data := episodes (memoized toFixed toLocaleString raw) in
  (slope (calculateRegression (sharesSubscribersPoints data)) >=? Fin 0)%num
  = positiveSharesToSubs (Insights.sharesToSubs ins)
  /\ (slope (regressionLine (durationCompletionPoints data)) >=? Fin 0)%num
     = positiveDuration (Insights.duration ins).
Proof.
  intros Hall Hins data.
  destruct (memoized_insights _ _ _ Hins) as [cs ->]. fold data.
  assert (F : forall d, In d data -> finiteItem (item d) = true)
    by (intros d Hd; exact (@episodes_finite toFixed toLocaleString raw d
                              Hall Hd)).
  clearbody data. split.
  - destruct (@slope_correlation_sign _ data sharesSubscribersPoint) as [E _].
    { intros d Hd. pose proof (F d Hd) as Fd. split_finite Fd.
      unfold finitePoint, sharesSubscribersPoint; cbn [Point.x Point.y].
      now apply andb_true_intro. }
    unfold sharesSubscribersPoints. rewrite E.
    unfold buildInsights; cbn [Insights.sharesToSubs].
    unfold computeSummary; cbn [sharesSubscribersCorrelation].
    unfold sharesSubscribersPoint; cbn [Point.x Point.y].
    now destruct (correlation data _ _ >=? Fin 0)%num.
  - destruct (@slope_correlation_sign _ data durationCompletionPoint) as [_ E].
    { intros d Hd. pose proof (F d Hd) as Fd. split_finite Fd.
      unfold finitePoint, durationCompletionPoint; cbn [Point.x Point.y].
      now apply andb_true_intro. }
    unfold durationCompletionPoints. rewrite E.
    unfold buildInsights; cbn [Insights.duration].
    unfold computeSummary; cbn [durationCompletionCorrelation].
    unfold durationCompletionPoint; cbn [Point.x Point.y].
    now destruct (correlation data _ _ >=? Fin 0)%num.
Qed.

Lemma trend_line_matches_insight_witness :
  exists ins : Insights.t,
    insights (memoized plainFixed plainLocale threeItems) = Some ins
    /\ (slope (calculateRegression
                 (sharesSubscribersPoints
                    (episodes (memoized plainFixed plainLocale threeItems))))
        >=? Fin 0)%num
       = positiveSharesToSubs (Insights.sharesToSubs ins).
Proof.
  eexists. split; [reflexivity|].
  refine (proj1 (@trend_line_matches_insight plainFixed plainLocale
                   threeItems _ _ eq_refl)).
  repeat constructor.
Defined.

(** The annotated point *)
Lemma gtb_trans (a b c : num) :
  (a >? b)%num = true -> (b >? c)%num = true -> (a >? c)%num = true.
Proof.
  destruct a, b, c; cbn [gtb ltb]; unfold Rltb; try discriminate;
    try reflexivity.
  destruct (Rlt_dec r0 r); destruct (Rlt_dec r1 r0); destruct (Rlt_dec r1 r);
    try discriminate; try reflexivity; lra.
Qed.

(** The reduction with [point.k > acc.k ? point : acc] keeps a point of
    the list that no point seen exceeds in [k]. *)
Lemma fold_max_by (k : Point.t -> num) (rest : list Point.t)
    (first : Point.t) :
  let m := fold_left (fun acc point =>
                        if (k point >? k acc)%num then point else acc)
                     rest first in
  In m (first :: rest)
  /\ (forall p, In p (first :: rest) -> (k p >? k m)%num = false).
Proof.
  cbv zeta.
  assert (Hirr : forall a : num, (a >? a)%num = false).
  { intros []; cbn [gtb ltb]; unfold Rltb; try reflexivity.
    destruct (Rlt_dec r r); [lra | reflexivity]. }
  split.
  - revert first. induction rest as [|q rest IH]; intros first; [now left|].
    cbn [fold_left].
    destruct (IH (if (k q >? k first)%num then q else first)) as [E | Hin].
    + rewrite <- E. destruct (k q >? k first)%num; [right; now left | now left].
    + right. now right.
  - assert (G : forall (seen : list Point.t) (acc : Point.t),
               (forall p, In p seen -> (k p >? k acc)%num = false) ->
               forall p, In p (seen ++ rest) ->
                 (k p >? k (fold_left
                              (fun acc point =>
                                 if (k point >? k acc)%num then point else acc)
                              rest acc))%num = false).
    { induction rest as [|q rest IH]; intros seen acc Hseen p Hp.
      - rewrite app_nil_r in Hp. now apply Hseen.
      - cbn [fold_left].
        apply (IH (seen ++ [q])).
        + intros p' Hp'. apply in_app_or in Hp'.
          destruct (k q >? k acc)%num eqn:E.
          * destruct Hp' as [Hp' | [<- | []]]; [|apply Hirr].
            destruct (k p' >? k q)%num eqn:E'; [|reflexivity].
            rewrite <- (Hseen p' Hp'). symmetry.
            now apply (gtb_trans _ (k q)).
          * destruct Hp' as [Hp' | [<- | []]]; [now apply Hseen | exact E].
        + now rewrite <- app_assoc. }
    intros p Hp. apply (G [first] first).
    + intros p' [<- | []]. apply Hirr.
    + exact Hp.
Qed.

(** X19.  The point each scatter chart annotates is one of the plotted
    points and no plotted point exceeds it: [topShare] in shares ([x]),
    [bestCompletion] in completion rate ([y]).  Without points, and
    only then, the reduction has no value (the call throws). *)
Theorem annotated_point_maximal (points : list Point.t) :
  (topShare points = None <-> points = [])
  /\ (bestCompletion points = None <-> points = [])
  /\ (forall m, topShare points = Some m ->
        In m points
        /\ forall p, In p points -> (Point.x p >? Point.x m)%num = false)
  /\ (forall m, bestCompletion points = Some m ->
        In m points
        /\ forall p, In p points -> (Point.y p >? Point.y m)%num = false).
Proof.
  unfold topShare, bestCompletion, reduce1.
  destruct points as [|first rest].
  - repeat split; try discriminate; try reflexivity.
  - refine (conj _ (conj _ (conj _ _))).
    + split; discriminate.
    + split; discriminate.
    + intros m [= <-].
      destruct (fold_max_by Point.x rest first) as (H1 & H2).
      now split.
    + intros m [= <-].
      destruct (fold_max_by Point.y rest first) as (H1 & H2).
      now split.
Qed.

Lemma annotated_point_maximal_witness :
  In (samplePoint 3 2) scatterPoints
  /\ forall p, In p scatterPoints ->
       (Point.x p >? Point.x (samplePoint 3 2))%num = false.
Proof.
  apply (proj1 (proj2 (proj2 (annotated_point_maximal scatterPoints)))).
  unfold topShare, reduce1, scatterPoints, samplePoint.
  cbn [fold_left].
  repeat (cbn [Point.x gtb ltb]; unfold Rltb;
          match goal with
          | |- context [Rlt_dec ?a ?b] => destruct (Rlt_dec a b); try lra
          end).
  reflexivity.
Defined.

End ScatterFacts.

(** ** What the page shows *)

Module AppViewFacts.

Import PodcastData PodcastDataFacts SeriesFacts AppView.
Local Open Scope num_scope.

Lemma onSettled_raw_length (rows : list Raw.Row) (st : State) :
  List.length (raw (onSettled (Resolved rows) st)) = List.length rows.
Proof.
  unfold onSettled; cbn [raw].
  rewrite (Permutation_length (sort_perm _ _)). apply length_map.
Qed.

(** X20.  The page shows the loading line until the load settles; the
    fallback message when the load was rejected, whatever the reason,
    and when it resolved without rows; and for a load that resolved
    with at least one row the dashboard, with one episode per row, a
    summary that counts them, and the insights built from that
    summary. *)
Theorem app_view toFixed toLocaleString :
  App (usePodcastData toFixed toLocaleString initialState) = LoadingView
  /\ (forall err : string,
         App (usePodcastData toFixed toLocaleString
                (onSettled (Rejected err) initialState)) = FallbackView)
  /\ App (usePodcastData toFixed toLocaleString
            (onSettled (Resolved []) initialState)) = FallbackView
  /\ (forall (row : Raw.Row) (rows : list Raw.Row),
         exists (s : Summary) (data : list Episode) (ins : Insights.t),
           App (usePodcastData toFixed toLocaleString
                  (onSettled (Resolved (row :: rows)) initialState))
           = Dashboard s data (Some ins)
           /\ List.length data = S (List.length rows)
           /\ totalEpisodes s = S (List.length rows)
           /\ ins = buildInsights toFixed toLocaleString s).
Proof.
  refine (conj _ (conj _ (conj _ _))); try reflexivity.
  intros row rows.
  pose proof (onSettled_raw_length (row :: rows) initialState) as L.
  unfold App, usePodcastData.
  cbn [Out.loading Out.error Out.summary Out.episodes Out.insights].
  change (loading (onSettled (Resolved (row :: rows)) initialState))
    with false.
  change (error (onSettled (Resolved (row :: rows)) initialState))
    with (@None string).
  destruct (raw (onSettled (Resolved (row :: rows)) initialState))
    as [|it rest] eqn:E; [discriminate L|].
  pose proof (memoized_episodes toFixed toLocaleString (it :: rest)) as Heps.
  pose proof (deriveFrom_length (it :: rest) (it :: rest) 0 (Fin 0) (Fin 0))
    as Hlen.
  rewrite <- Heps in Hlen.
  unfold memoized in *.
  destruct (deriveFrom (it :: rest) 0 (Fin 0) (Fin 0) (it :: rest))
    as [eps [cs cd]].
  cbn [summary episodes insights] in *.
  eexists _, _, _. split; [reflexivity|].
  split; [|split; [|reflexivity]].
  - rewrite Hlen. exact L.
  - cbn [computeSummary totalEpisodes]. rewrite Hlen. exact L.
Qed.

End AppViewFacts.

(** ** The stacked listener shares *)

Module ListenerMixFacts.

Import PodcastData PodcastDataFacts SeriesFacts ListenerMix.
Local Open Scope R_scope.



End ListenerMixFacts.

(** ** Tooltip placement and the hovered point *)

Module HoverFacts.

Import PodcastDataFacts Hover.
Local Open Scope R_scope.

Lemma Math_max_Fin (a b : R) : Math_max (Fin a) (Fin b) = Fin (Rmax a b).
Proof.
  cbv [Math_max ltb Rltb]. unfold Rmax.
  destruct (Rlt_dec a b); destruct (Rle_dec a b); try reflexivity;
    try lra; apply Fin_eq; lra.
Qed.

Lemma Math_min_Fin (a b : R) : Math_min (Fin a) (Fin b) = Fin (Rmin a b).
Proof.
  cbv [Math_min ltb Rltb]. unfold Rmin.
  destruct (Rlt_dec b a); destruct (Rle_dec a b); try reflexivity;
    try lra; apply Fin_eq; lra.
Qed.

Lemma projectPointToWrapper_finite (rect : Rect) (w h x y : R) :
  rectWidth rect = Fin w -> rectHeight rect = Fin h ->
  w <> 0 -> h <> 0 ->
  projectPointToWrapper (Some rect) (Fin x) (Fin y)
  = Some {| left := Fin (Rmin (Rmax (x / 640 * w) 12) (w - 12));
            top := Fin (Rmin (Rmax (y / 360 * h) 20) (h - 20)) |}.
Proof.
  intros Hw Hh Hw0 Hh0. unfold projectPointToWrapper.
  rewrite Hw, Hh. cbn [strict_eq]. unfold Reqb.
  destruct (Req_dec_T w 0); [contradiction|].
  destruct (Req_dec_T h 0); [contradiction|].
  cbn [orb]. unfold Hover.width, Hover.height.
  rewrite !div_Fin by lra. cbn [mul sub add neg].
  rewrite !Math_max_Fin, !Math_min_Fin. reflexivity.
Qed.

(** X21.  [projectPointToWrapper] places no tooltip when the wrapper
    is missing or has a zero side.  Otherwise, for finite coordinates,
    the position is finite; it lies at least 12 from the left and right
    edges of a wrapper at least 24 wide and at least 20 from the top
    and bottom edges of one at least 40 high, and it is the plain
    proportional projection of the point when that already lies within
    the padding. *)
Theorem tooltip_stays_inside (rect : Rect) (w h x y : R) :
  rectWidth rect = Fin w -> rectHeight rect = Fin h ->
  (projectPointToWrapper None (Fin x) (Fin y) = None)
  /\ (w = 0 \/ h = 0 ->
      projectPointToWrapper (Some rect) (Fin x) (Fin y) = None)
  /\ (w <> 0 -> h <> 0 ->
      exists l t : R,
        projectPointToWrapper (Some rect) (Fin x) (Fin y)
        = Some {| left := Fin l; top := Fin t |}
        /\ (24 <= w -> 12 <= l <= w - 12)
        /\ (40 <= h -> 20 <= t <= h - 20)
        /\ (12 <= x / 640 * w <= w - 12 -> l = x / 640 * w)
        /\ (20 <= y / 360 * h <= h - 20 -> t = y / 360 * h)).
Proof.
  intros Hw Hh. split; [reflexivity|]. split.
  - intros H0. unfold projectPointToWrapper. rewrite Hw, Hh.
    cbn [strict_eq]. unfold Reqb.
    destruct H0 as [-> | ->].
    + destruct (Req_dec_T 0 0); [reflexivity | lra].
    + destruct (Req_dec_T 0 0); [now rewrite orb_true_r | lra].
  - intros Hw0 Hh0.
    rewrite (projectPointToWrapper_finite rect x y Hw Hh Hw0 Hh0).
    eexists _, _. split; [reflexivity|].
    repeat split; intros; minmax_cases; lra.
Qed.

Lemma tooltip_stays_inside_witness :
  exists l t : R,
    projectPointToWrapper
      (Some {| rectLeft := Fin 0; rectTop := Fin 0;
               rectWidth := Fin 320; rectHeight := Fin 180 |})
      (Fin 700) (Fin 90)
    = Some {| left := Fin l; top := Fin t |}
    /\ (24 <= 320 -> 12 <= l <= 320 - 12)
    /\ (40 <= 180 -> 20 <= t <= 180 - 20)
    /\ (12 <= 700 / 640 * 320 <= 320 - 12 -> l = 700 / 640 * 320)
    /\ (20 <= 90 / 360 * 180 <= 180 - 20 -> t = 90 / 360 * 180).
Proof.
  refine (proj2 (proj2 (@tooltip_stays_inside
                          {| rectLeft := Fin 0; rectTop := Fin 0;
                             rectWidth := Fin 320; rectHeight := Fin 180 |}
                          320 180 700 90 eq_refl eq_refl)) _ _); lra.
Defined.

Lemma ltb_trans (a b c : num) :
  (a <? b)%num = true -> (b <? c)%num = true -> (a <? c)%num = true.
Proof.
  destruct a, b, c; cbn [ltb]; unfold Rltb; try discriminate;
    try reflexivity.
  destruct (Rlt_dec r r0); destruct (Rlt_dec r0 r1); destruct (Rlt_dec r r1);
    try discriminate; try reflexivity; lra.
Qed.

Lemma ltb_irrefl (a : num) : (a <? a)%num = false.
Proof.
  destruct a; cbn [ltb]; unfold Rltb; try reflexivity.
  destruct (Rlt_dec r r); [lra | reflexivity].
Qed.

Section Nearest.

Context {P : Type}.
Variable project : P -> option Position.
Variables pointerX pointerY : num.

Lemma closestStep_closestOf (seen : list P) (acc : Closest) (point : P) :
  closestOf project pointerX pointerY seen acc ->
  closestOf project pointerX pointerY (seen ++ [point])
    (closestStep project pointerX pointerY acc point).
Proof.
  intros [Hmin Hrec]. unfold closestStep.
  destruct (project point) as [projected|] eqn:Ep.
  - destruct (distanceTo pointerX pointerY projected <? closestDistance acc)%num
      eqn:Hd.
    + split; cbn [closestPoint closestDistance closestPosition].
      * intros q pq Hq Epq. apply in_app_or in Hq.
        destruct Hq as [Hq | [<- | []]].
        -- destruct (distanceTo pointerX pointerY pq
                     <? distanceTo pointerX pointerY projected)%num eqn:E;
             [|reflexivity].
           rewrite <- (Hmin q pq Hq Epq). symmetry.
           exact (ltb_trans _ _ _ E Hd).
        -- rewrite Ep in Epq. injection Epq as <-. apply ltb_irrefl.
      * split; [apply in_or_app; right; now left | now split].
    + split.
      * intros q pq Hq Epq. apply in_app_or in Hq.
        destruct Hq as [Hq | [<- | []]]; [exact (Hmin q pq Hq Epq)|].
        rewrite Ep in Epq. injection Epq as <-. exact Hd.
      * destruct (closestPoint acc), (closestPosition acc); trivial.
        destruct Hrec as (Hin & Hp & Hdist).
        split; [apply in_or_app; now left | now split].
  - split.
    + intros q pq Hq Epq. apply in_app_or in Hq.
      destruct Hq as [Hq | [<- | []]]; [exact (Hmin q pq Hq Epq) | congruence].
    + destruct (closestPoint acc), (closestPosition acc); trivial.
      destruct Hrec as (Hin & Hp & Hdist).
      split; [apply in_or_app; now left | now split].
Qed.

Lemma fold_closestOf (data seen : list P) (acc : Closest) :
  closestOf project pointerX pointerY seen acc ->
  closestOf project pointerX pointerY (seen ++ data)
    (fold_left (closestStep project pointerX pointerY) data acc).
Proof.
  revert seen acc. induction data as [|point data IH]; intros seen acc H.
  - now rewrite app_nil_r.
  - cbn [fold_left].
    replace (seen ++ point :: data) with ((seen ++ [point]) ++ data)
      by (rewrite <- app_assoc; reflexivity).
    apply IH. now apply closestStep_closestOf.
Qed.

End Nearest.

(** X22.  [handlePointerMove] leaves the hovered point as it is while
    the wrapper is missing and clears it while a button is pressed.
    Otherwise, when it selects a point, that point is one of the chart's
    data with its own tooltip position, its distance from the pointer
    is within the activation radius, and no projected point of the data
    is strictly closer to the pointer. *)
Theorem pointer_move_nearest {P : Type} (project : P -> option Position)
    (rect : Rect) (data : list P) (event : PointerEvent)
    (hoveredPoint : option (P * Position)) :
  handlePointerMove project None data event hoveredPoint = hoveredPoint
  /\ ((buttons event >? Fin 0)%num = true ->
      handlePointerMove project (Some rect) data event hoveredPoint = None)
  /\ (forall (p : P) (pos : Position),
         handlePointerMove project (Some rect) data event hoveredPoint
         = Some (p, pos) ->
         let pointerX := (clientX event - rectLeft rect)%num in
         let pointerY := (clientY event - rectTop rect)%num in
         In p data
         /\ project p = Some pos
         /\ leqb (distanceTo pointerX pointerY pos) (activationRadius rect)
            = true
         /\ forall (q : P) (pq : Position),
              In q data -> project q = Some pq ->
              (distanceTo pointerX pointerY pq
               <? distanceTo pointerX pointerY pos)%num = false).
Proof.
  split; [reflexivity|]. split.
  - intros Hb. unfold handlePointerMove. now rewrite Hb.
  - intros p pos. unfold handlePointerMove.
    destruct (buttons event >? Fin 0)%num; [discriminate|].
    cbv zeta.
    pose proof (@fold_closestOf P project
                  (clientX event - rectLeft rect)%num
                  (clientY event - rectTop rect)%num data []
                  {| closestPoint := None; closestDistance := PosInf;
                     closestPosition := None |}) as H.
    cbn [app] in H.
    destruct H as [Hmin Hrec].
    { split; [intros q pq [] | exact I]. }
    destruct (closestPoint (fold_left _ data _)) as [point|];
      [|discriminate].
    destruct (closestPosition (fold_left _ data _)) as [position|];
      [|discriminate].
    destruct Hrec as (Hin & Hp & Hdist).
    destruct (leqb _ _) eqn:Hr; [|discriminate].
    intros [= <- <-].
    rewrite Hdist in Hr, Hmin.
    repeat split; trivial.
Qed.

Lemma hover_example :
  handlePointerMove (fun pos : Position => Some pos)
    (Some {| rectLeft := Fin 10; rectTop := Fin 20;
             rectWidth := Fin 640; rectHeight := Fin 360 |})
    [{| left := Fin 100; top := Fin 100 |}]
    {| buttons := Fin 0; clientX := Fin 110; clientY := Fin 120 |}
    None
  = Some ({| left := Fin 100; top := Fin 100 |},
          {| left := Fin 100; top := Fin 100 |}).
Proof.
  unfold handlePointerMove, activationRadius, leqb.
  cbn [buttons clientX clientY rectLeft rectTop rectWidth rectHeight
       fold_left closestStep distanceTo left top sub add neg Math_hypot
       closestDistance closestPoint closestPosition ltb gtb mul].
  rewrite Math_min_Fin. cbn [mul]. rewrite Math_max_Fin.
  replace ((100 + - (110 + - (10))) * (100 + - (110 + - (10)))
           + (100 + - (120 + - (20))) * (100 + - (120 + - (20))))
    with 0 by ring.
  rewrite sqrt_0. unfold Rltb.
  destruct (Rlt_dec 0 0); [lra|].
  destruct (Rlt_dec 0 (Rmax 24 (Rmin 640 360 * (5 / 100)))) as [|Hn];
    [reflexivity|].
  exfalso. apply Hn. unfold Rmax, Rmin.
  destruct (Rle_dec 640 360); destruct (Rle_dec 24 _); lra.
Defined.

Lemma pointer_move_nearest_witness :
  leqb (distanceTo (Fin 110 - Fin 10)%num (Fin 120 - Fin 20)%num
          {| left := Fin 100; top := Fin 100 |})
       (activationRadius
          {| rectLeft := Fin 10; rectTop := Fin 20;
             rectWidth := Fin 640; rectHeight := Fin 360 |})
  = true.
Proof.
  pose proof (proj2 (proj2 (@pointer_move_nearest Position
                              (fun pos : Position => Some pos)
                              {| rectLeft := Fin 10; rectTop := Fin 20;
                                 rectWidth := Fin 640;
                                 rectHeight := Fin 360 |}
                              [{| left := Fin 100; top := Fin 100 |}]
                              {| buttons := Fin 0; clientX := Fin 110;
                                 clientY := Fin 120 |}
                              None))
                    _ _ hover_example) as H.
  cbv zeta in H. destruct H as (_ & _ & H & _). exact H.
Defined.

End HoverFacts.
